(** * PersonaLens icon generator: rasteriser, compositor and PNG encoder

    A shallow embedding of [scripts/generate_personalens_icons.py].

    Python's [float] is IEEE 754 binary64.  A finite float is represented by
    the rational number it denotes, and every arithmetic operation returns
    the exact rational result rounded to the nearest binary64 value, ties
    to even ([RN]), which is how IEEE 754 defines [+], [-], [*] and [/].
    Infinities and NaN are not represented: [RN] rounds onto the binary64
    grid continued above the largest finite float, so the model is the
    interpreter's arithmetic as long as no result reaches 2^1024.  Every
    theorem that takes float arguments therefore bounds them ([within]):
    geometry by 2^256, which keeps every sum and product of the rasterisers
    below 2^520, distances and radii of a coverage function by 2^1000.  A
    quotient is the one result that may still leave the range, over a tiny
    feather; the code clamps each such quotient to [0, 1] at once, and the
    clamp of an infinity is the clamp of the value the model has in its
    place.  The sign of zero is not represented either; nothing in the
    program observes it (a division by zero raises in Python).

    Pixel coordinates, canvas sizes and colour components are integers;
    the geometry of a shape (centres, radii, feather, widths) is given in
    floats, as at every call site.  [zlib.compress] and [math.hypot] are
    external: the encoder and the rasterisers take them as parameters. *)

From Stdlib Require Import ZArith QArith Qround Qabs Qpower Qminmax.
From Stdlib Require Import Lia Lqa List Bool.
From Stdlib Require Import Strings.Byte.
Import ListNotations.

Local Open Scope Z_scope.

(** ** Binary64 rounding *)

Module PyFloat.

Local Open Scope Q_scope.

(** Python's [round(x)] on a float: nearest integer, ties to even. *)
Definition rne (q : Q) : Z :=
  let f := Qfloor q in
  match Qcompare (q - inject_Z f) (1 # 2) with
  | Lt => f
  | Gt => (f + 1)%Z
  | Eq => if Z.even f then f else (f + 1)%Z
  end.

(** Python's [int(x)] on a float: truncation toward zero. *)
Definition trunc (q : Q) : Z := Z.quot (Qnum q) (Zpos (Qden q)).

(** [ilog2 q] is the integer [k] with [2^k <= q < 2^(k+1)], for [q > 0]. *)
Definition ilog2 (q : Q) : Z :=
  let k := (Z.log2 (Qnum q) - Z.log2 (Zpos (Qden q)))%Z in
  if Qle_bool (2 ^ k) q then k else (k - 1)%Z.

(** Exponent of the unit in the last place: 53 significant bits, and the
    subnormal grid 2^-1074 at the bottom of the range. *)
Definition ulp_exp (q : Q) : Z := Z.max (ilog2 q - 52) (-1074).

Definition RNpos (q : Q) : Q :=
  let e := ulp_exp q in
  inject_Z (rne (q * 2 ^ (- e))) * 2 ^ e.

(** Round to nearest binary64, ties to even. *)
Definition RN (q : Q) : Q :=
  match Qcompare q 0 with
  | Eq => 0
  | Gt => RNpos q
  | Lt => - RNpos (- q)
  end.

(** A rational lies on the binary64 grid when rounding leaves it
    unchanged.  The grid goes on above 2^1024; a float of the interpreter
    is a point of the grid of bounded magnitude. *)
Definition is_float (q : Q) : Prop := RN q == q.
Definition is_floatb (q : Q) : bool := Qeq_bool (RN q) q.

(** The binary64 values of magnitude at most [2^k], for [k < 1024]. *)
Definition within (k : Z) (q : Q) : Prop := is_float q /\ Qabs q <= 2 ^ k.

(** *** Rounding to an integer *)

Lemma rne_cases (q : Q) :
  (rne q = Qfloor q /\
     (q - inject_Z (Qfloor q) < 1 # 2 \/
      (q - inject_Z (Qfloor q) == 1 # 2 /\ Z.even (Qfloor q) = true))) \/
  (rne q = (Qfloor q + 1)%Z /\
     (1 # 2 < q - inject_Z (Qfloor q) \/
      (q - inject_Z (Qfloor q) == 1 # 2 /\ Z.even (Qfloor q) = false))).
Proof.
  unfold rne.
  destruct (Qcompare (q - inject_Z (Qfloor q)) (1 # 2)) eqn:E.
  - apply Qeq_alt in E.
    destruct (Z.even (Qfloor q)) eqn:Ev; [left | right]; auto.
  - apply Qlt_alt in E. left; auto.
  - apply Qgt_alt in E. right; auto.
Qed.

Lemma rne_mono (x y : Q) : x <= y -> (rne x <= rne y)%Z.
Proof.
  intros Hxy.
  pose proof (Qfloor_resp_le _ _ Hxy) as Hf.
  destruct (rne_cases x) as [[Hx Cx] | [Hx Cx]];
    destruct (rne_cases y) as [[Hy Cy] | [Hy Cy]]; rewrite Hx, Hy; try lia.
  destruct (Z.eq_dec (Qfloor x) (Qfloor y)) as [E | NE]; [exfalso | lia].
  rewrite E in Cx.
  destruct Cx as [Cx | [Cx Ex]]; destruct Cy as [Cy | [Cy Ey]];
    try lra; congruence.
Qed.

Lemma rne_inject_Z (z : Z) : rne (inject_Z z) = z.
Proof.
  unfold rne. rewrite Qfloor_Z.
  replace (Qcompare (inject_Z z - inject_Z z) (1 # 2)) with Lt; [reflexivity |].
  symmetry. apply Qlt_alt.
  setoid_replace (inject_Z z - inject_Z z) with 0 by ring. reflexivity.
Qed.

#[export] Instance rne_wd : Proper (Qeq ==> eq) rne.
Proof.
  intros x y E. apply Z.le_antisymm; apply rne_mono; rewrite E; apply Qle_refl.
Qed.

Lemma rne_nonneg (q : Q) : 0 <= q -> (0 <= rne q)%Z.
Proof.
  intros H. rewrite <- (rne_inject_Z 0). apply rne_mono. exact H.
Qed.

(** *** Powers of two and the binary logarithm *)

Lemma pow2_pos (k : Z) : 0 < 2 ^ k.
Proof. apply Qpower_0_lt. reflexivity. Qed.

Lemma pow2_add (a b : Z) : 2 ^ (a + b) == 2 ^ a * 2 ^ b.
Proof. apply Qpower_plus. discriminate. Qed.

Lemma pow2_le (a b : Z) : (a <= b)%Z -> 2 ^ a <= 2 ^ b.
Proof. intros H. apply Qpower_le_compat_l; [exact H | discriminate]. Qed.

Lemma pow2_lt (a b : Z) : (a < b)%Z -> 2 ^ a < 2 ^ b.
Proof. intros H. apply Qpower_lt_compat_l; [exact H | reflexivity]. Qed.

Lemma pow2_lt_inv (a b : Z) : 2 ^ a < 2 ^ b -> (a < b)%Z.
Proof. intros H. apply (Qpower_lt_compat_l_inv 2); [exact H | reflexivity]. Qed.

Lemma pow2_inject (n : Z) : (0 <= n)%Z -> inject_Z (2 ^ n) == 2 ^ n.
Proof. intros H. apply (Zpower_Qpower 2 n H). Qed.

Lemma pow2_cancel (e : Z) : 2 ^ (- e) * 2 ^ e == 1.
Proof. rewrite <- pow2_add. replace (- e + e)%Z with 0%Z by lia. reflexivity. Qed.

Lemma ilog2_spec (q : Q) : 0 < q -> 2 ^ ilog2 q <= q /\ q < 2 ^ (ilog2 q + 1).
Proof.
  intros Hq. unfold ilog2.
  destruct q as [n d]. cbn [Qnum Qden].
  assert (Hn : (0 < n)%Z) by (unfold Qlt in Hq; cbn in Hq; lia).
  set (ln := Z.log2 n). set (ld := Z.log2 (Zpos d)).
  destruct (Z.log2_spec n Hn) as [Hn1 Hn2].
  destruct (Z.log2_spec (Zpos d) eq_refl) as [Hd1 Hd2].
  fold ln in Hn1, Hn2. fold ld in Hd1, Hd2.
  assert (Lln : (0 <= ln)%Z) by apply Z.log2_nonneg.
  assert (Lld : (0 <= ld)%Z) by apply Z.log2_nonneg.
  assert (QN1 : 2 ^ ln <= inject_Z n)
    by (rewrite <- pow2_inject by lia; rewrite <- Zle_Qle; exact Hn1).
  assert (QN2 : inject_Z n < 2 ^ (ln + 1))
    by (rewrite <- pow2_inject by lia; rewrite <- Zlt_Qlt; exact Hn2).
  assert (QD1 : 2 ^ ld <= inject_Z (Zpos d))
    by (rewrite <- pow2_inject by lia; rewrite <- Zle_Qle; exact Hd1).
  assert (QD2 : inject_Z (Zpos d) < 2 ^ (ld + 1))
    by (rewrite <- pow2_inject by lia; rewrite <- Zlt_Qlt; exact Hd2).
  assert (HD : 0 < inject_Z (Zpos d)) by reflexivity.
  assert (Eq : n # d == inject_Z n / inject_Z (Zpos d)) by apply Qmake_Qdiv.
  assert (Up : n # d < 2 ^ (ln - ld + 1)).
  { rewrite Eq. apply Qlt_shift_div_r; [exact HD |].
    replace (ln - ld + 1)%Z with ((ln + 1) + - ld)%Z by lia.
    rewrite pow2_add.
    apply Qlt_le_trans with (2 ^ (ln + 1) * 2 ^ (- ld) * 2 ^ ld).
    - rewrite <- Qmult_assoc, pow2_cancel, Qmult_1_r. exact QN2.
    - apply Qmult_le_l; [| exact QD1].
      apply Qmult_lt_0_compat; apply pow2_pos. }
  assert (Lo : 2 ^ (ln - ld - 1) < n # d).
  { rewrite Eq. apply Qlt_shift_div_l; [exact HD |].
    replace (ln - ld - 1)%Z with (ln + - (ld + 1))%Z by lia.
    rewrite pow2_add.
    apply Qlt_le_trans with (2 ^ ln * 2 ^ (- (ld + 1)) * 2 ^ (ld + 1)).
    - apply Qmult_lt_l; [| exact QD2].
      apply Qmult_lt_0_compat; apply pow2_pos.
    - rewrite <- Qmult_assoc, pow2_cancel, Qmult_1_r. exact QN1. }
  destruct (Qle_bool (2 ^ (ln - ld)) (n # d)) eqn:B.
  - apply Qle_bool_iff in B. split; assumption.
  - assert (B' : ~ 2 ^ (ln - ld) <= n # d)
      by (intros C; apply Qle_bool_iff in C; congruence).
    apply Qnot_le_lt in B'. split.
    + apply Qlt_le_weak. exact Lo.
    + replace (ln - ld - 1 + 1)%Z with (ln - ld)%Z by lia. exact B'.
Qed.

Lemma ilog2_unique (q : Q) (k : Z) : 2 ^ k <= q -> q < 2 ^ (k + 1) -> ilog2 q = k.
Proof.
  intros H1 H2.
  assert (Hq : 0 < q) by (eapply Qlt_le_trans; [apply (pow2_pos k) | exact H1]).
  destruct (ilog2_spec q Hq) as [S1 S2].
  assert ((ilog2 q < k + 1)%Z)
    by (apply pow2_lt_inv; eapply Qle_lt_trans; eassumption).
  assert ((k < ilog2 q + 1)%Z)
    by (apply pow2_lt_inv; eapply Qle_lt_trans; eassumption).
  lia.
Qed.

Lemma ilog2_mono (x y : Q) : 0 < x -> x <= y -> (ilog2 x <= ilog2 y)%Z.
Proof.
  intros Hx Hxy.
  assert (Hy : 0 < y) by (eapply Qlt_le_trans; eassumption).
  destruct (ilog2_spec x Hx) as [X1 _].
  destruct (ilog2_spec y Hy) as [_ Y2].
  assert ((ilog2 x < ilog2 y + 1)%Z); [| lia].
  apply pow2_lt_inv.
  eapply Qle_lt_trans; [exact X1 |]. eapply Qle_lt_trans; eassumption.
Qed.

Lemma ilog2_wd (x y : Q) : 0 < x -> x == y -> ilog2 x = ilog2 y.
Proof.
  intros Hx E. symmetry.
  destruct (ilog2_spec x Hx) as [X1 X2].
  apply ilog2_unique; rewrite <- E; assumption.
Qed.

(** *** Properties of binary64 rounding *)

Lemma ulp_exp_wd (x y : Q) : 0 < x -> x == y -> ulp_exp x = ulp_exp y.
Proof. intros Hx E. unfold ulp_exp. rewrite (ilog2_wd x y Hx E). reflexivity. Qed.

Lemma ulp_exp_mono (x y : Q) : 0 < x -> x <= y -> (ulp_exp x <= ulp_exp y)%Z.
Proof. intros Hx H. unfold ulp_exp. pose proof (ilog2_mono x y Hx H). lia. Qed.

Lemma RNpos_wd (x y : Q) : 0 < x -> x == y -> RNpos x == RNpos y.
Proof.
  intros Hx E. unfold RNpos. rewrite (ulp_exp_wd x y Hx E).
  rewrite E. reflexivity.
Qed.

Lemma RNpos_nonneg (q : Q) : 0 < q -> 0 <= RNpos q.
Proof.
  intros Hq. unfold RNpos.
  apply Qmult_le_0_compat; [| apply Qlt_le_weak, pow2_pos].
  change 0 with (inject_Z 0). rewrite <- Zle_Qle. apply rne_nonneg.
  apply Qmult_le_0_compat; [apply Qlt_le_weak, Hq | apply Qlt_le_weak, pow2_pos].
Qed.

Lemma scaled_le (x : Q) (n e : Z) : x <= 2 ^ n -> x * 2 ^ (- e) <= 2 ^ (n - e).
Proof.
  intros H. replace (n - e)%Z with (n + - e)%Z by lia. rewrite pow2_add.
  apply Qmult_le_compat_r; [exact H | apply Qlt_le_weak, pow2_pos].
Qed.

Lemma scaled_ge (x : Q) (n e : Z) : 2 ^ n <= x -> 2 ^ (n - e) <= x * 2 ^ (- e).
Proof.
  intros H. replace (n - e)%Z with (n + - e)%Z by lia. rewrite pow2_add.
  apply Qmult_le_compat_r; [exact H | apply Qlt_le_weak, pow2_pos].
Qed.

Lemma rne_le_pow2 (q : Q) (n : Z) :
  (0 <= n)%Z -> q <= 2 ^ n -> inject_Z (rne q) <= 2 ^ n.
Proof.
  intros Hn H. rewrite <- pow2_inject by exact Hn. rewrite <- Zle_Qle.
  rewrite <- (rne_inject_Z (2 ^ n)). apply rne_mono.
  rewrite pow2_inject by exact Hn. exact H.
Qed.

Lemma rne_ge_pow2 (q : Q) (n : Z) :
  (0 <= n)%Z -> 2 ^ n <= q -> 2 ^ n <= inject_Z (rne q).
Proof.
  intros Hn H. rewrite <- pow2_inject by exact Hn. rewrite <- Zle_Qle.
  rewrite <- (rne_inject_Z (2 ^ n)). apply rne_mono.
  rewrite pow2_inject by exact Hn. exact H.
Qed.

Lemma unscale (m : Q) (n e : Z) : m <= 2 ^ (n - e) -> m * 2 ^ e <= 2 ^ n.
Proof.
  intros H. replace n with ((n - e) + e)%Z at 1 by lia. rewrite pow2_add.
  apply Qmult_le_compat_r; [exact H | apply Qlt_le_weak, pow2_pos].
Qed.

Lemma unscale_ge (m : Q) (n e : Z) : 2 ^ (n - e) <= m -> 2 ^ n <= m * 2 ^ e.
Proof.
  intros H. replace n with ((n - e) + e)%Z at 1 by lia. rewrite pow2_add.
  apply Qmult_le_compat_r; [exact H | apply Qlt_le_weak, pow2_pos].
Qed.

Lemma RNpos_mono (x y : Q) : 0 < x -> x <= y -> RNpos x <= RNpos y.
Proof.
  intros Hx Hxy.
  assert (Hy : 0 < y) by (eapply Qlt_le_trans; eassumption).
  pose proof (ulp_exp_mono x y Hx Hxy) as He.
  destruct (Z.eq_dec (ulp_exp x) (ulp_exp y)) as [E | NE].
  - unfold RNpos. rewrite E.
    apply Qmult_le_compat_r; [| apply Qlt_le_weak, pow2_pos].
    rewrite <- Zle_Qle. apply rne_mono.
    apply Qmult_le_compat_r; [exact Hxy | apply Qlt_le_weak, pow2_pos].
  - destruct (ilog2_spec x Hx) as [_ X2].
    destruct (ilog2_spec y Hy) as [Y1 _].
    assert (Ey : ulp_exp y = (ilog2 y - 52)%Z) by (unfold ulp_exp in *; lia).
    assert (Lxy : (ilog2 x + 1 <= ilog2 y)%Z) by (unfold ulp_exp in *; lia).
    apply Qle_trans with (2 ^ ilog2 y).
    + unfold RNpos. apply unscale. apply rne_le_pow2.
      * unfold ulp_exp in *; lia.
      * apply scaled_le. apply Qle_trans with (2 ^ (ilog2 x + 1)).
        -- apply Qlt_le_weak, X2.
        -- apply pow2_le, Lxy.
    + unfold RNpos. apply unscale_ge. apply rne_ge_pow2.
      * lia.
      * apply scaled_ge. exact Y1.
Qed.

#[export] Instance RN_wd : Proper (Qeq ==> Qeq) RN.
Proof.
  intros x y E. unfold RN. rewrite <- E.
  destruct (Qcompare x 0) eqn:C.
  - reflexivity.
  - apply Qlt_alt in C.
    assert (0 < - x) by lra.
    rewrite (RNpos_wd (- x) (- y)); [reflexivity | assumption | rewrite E; reflexivity].
  - apply Qgt_alt in C. apply RNpos_wd; assumption.
Qed.

Lemma RN_0 : RN 0 == 0.
Proof. reflexivity. Qed.

Lemma RN_pos (q : Q) : 0 < q -> RN q = RNpos q.
Proof.
  intros H. assert (C : Qcompare q 0 = Gt) by (apply Qgt_alt; exact H).
  unfold RN. rewrite C. reflexivity.
Qed.

Lemma RN_neg (q : Q) : q < 0 -> RN q = - RNpos (- q).
Proof.
  intros H. assert (C : Qcompare q 0 = Lt) by (apply Qlt_alt; exact H).
  unfold RN. rewrite C. reflexivity.
Qed.

Lemma RN_zero (q : Q) : q == 0 -> RN q = 0.
Proof.
  intros H. assert (C : Qcompare q 0 = Eq) by (apply Qeq_alt; exact H).
  unfold RN. rewrite C. reflexivity.
Qed.

Lemma RN_nonneg (q : Q) : 0 <= q -> 0 <= RN q.
Proof.
  intros H. destruct (Qlt_le_dec 0 q) as [P | N].
  - rewrite RN_pos by exact P. apply RNpos_nonneg, P.
  - rewrite RN_zero by lra. apply Qle_refl.
Qed.

Lemma RN_nonpos (q : Q) : q <= 0 -> RN q <= 0.
Proof.
  intros H. destruct (Qlt_le_dec q 0) as [N | P].
  - rewrite RN_neg by exact N.
    assert (0 <= RNpos (- q)) by (apply RNpos_nonneg; lra). lra.
  - rewrite RN_zero by lra. apply Qle_refl.
Qed.

Lemma RN_opp (q : Q) : RN (- q) == - RN q.
Proof.
  destruct (Q_dec q 0) as [[N | P] | Z].
  - rewrite (RN_neg q N). rewrite RN_pos by lra. ring.
  - rewrite (RN_pos q P). rewrite RN_neg by lra.
    rewrite (RNpos_wd (- - q) q); [reflexivity | lra | ring].
  - rewrite (RN_zero q Z). rewrite RN_zero by lra. reflexivity.
Qed.

Theorem RN_mono (x y : Q) : x <= y -> RN x <= RN y.
Proof.
  intros H.
  destruct (Qlt_le_dec 0 x) as [Px | Nx].
  - assert (Py : 0 < y) by lra.
    rewrite (RN_pos x Px), (RN_pos y Py). apply RNpos_mono; assumption.
  - destruct (Qlt_le_dec y 0) as [Ny | Py].
    + assert (Nx' : x < 0) by lra.
      rewrite (RN_neg x Nx'), (RN_neg y Ny).
      apply Qopp_le_compat. apply RNpos_mono; lra.
    + apply Qle_trans with 0; [apply RN_nonpos, Nx | apply RN_nonneg, Py].
Qed.

(** Values [m * 2^e] with [m < 2^53] and [e >= -1074] are binary64 floats. *)
Lemma RNpos_repr (m e : Z) :
  (0 < m < 2 ^ 53)%Z -> (-1074 <= e)%Z ->
  RNpos (inject_Z m * 2 ^ e) == inject_Z m * 2 ^ e.
Proof.
  intros Hm He.
  set (q := inject_Z m * 2 ^ e).
  assert (Hq : 0 < q).
  { apply Qmult_lt_0_compat; [| apply pow2_pos].
    change 0 with (inject_Z 0). rewrite <- Zlt_Qlt. lia. }
  destruct (Z.log2_spec m (proj1 Hm)) as [L1 L2].
  assert (L0 : (0 <= Z.log2 m)%Z) by apply Z.log2_nonneg.
  assert (L53 : (Z.log2 m < 53)%Z) by (apply Z.log2_lt_pow2; lia).
  assert (El : ilog2 q = (Z.log2 m + e)%Z).
  { apply ilog2_unique; unfold q.
    - rewrite pow2_add. apply Qmult_le_compat_r; [| apply Qlt_le_weak, pow2_pos].
      rewrite <- pow2_inject by lia. rewrite <- Zle_Qle. exact L1.
    - replace (Z.log2 m + e + 1)%Z with ((Z.log2 m + 1) + e)%Z by lia.
      rewrite pow2_add. apply Qmult_lt_compat_r; [apply pow2_pos |].
      rewrite <- pow2_inject by lia. rewrite <- Zlt_Qlt. exact L2. }
  unfold RNpos. fold q.
  set (u := ulp_exp q).
  assert (Hu : (u <= e)%Z) by (unfold u, ulp_exp; lia).
  assert (Es : q * 2 ^ (- u) == inject_Z (m * 2 ^ (e - u))).
  { unfold q. rewrite inject_Z_mult, pow2_inject by lia.
    replace (e - u)%Z with (e + - u)%Z by lia. rewrite pow2_add. ring. }
  rewrite Es, rne_inject_Z. rewrite inject_Z_mult, pow2_inject by lia.
  unfold q. rewrite <- Qmult_assoc, <- pow2_add.
  replace (e - u + u)%Z with e by lia. reflexivity.
Qed.

Lemma RNpos_repr_le (m e : Z) :
  (0 < m <= 2 ^ 53)%Z -> (-1074 <= e)%Z ->
  RNpos (inject_Z m * 2 ^ e) == inject_Z m * 2 ^ e.
Proof.
  intros Hm He.
  destruct (Z.eq_dec m (2 ^ 53)) as [E | NE].
  - subst m.
    assert (R : inject_Z (2 ^ 53) * 2 ^ e == inject_Z (2 ^ 52) * 2 ^ (e + 1)).
    { rewrite (pow2_add e 1).
      change (inject_Z (2 ^ 53)) with (inject_Z (2 ^ 52) * 2). ring. }
    assert (P : 0 < inject_Z (2 ^ 53) * 2 ^ e).
    { apply Qmult_lt_0_compat; [| apply pow2_pos].
      change 0 with (inject_Z 0). rewrite <- Zlt_Qlt. lia. }
    rewrite (RNpos_wd _ _ P R).
    rewrite R. apply RNpos_repr; lia.
  - apply RNpos_repr; lia.
Qed.

Lemma RNpos_form (q : Q) :
  0 < q ->
  exists m : Z, (0 <= m <= 2 ^ 53)%Z /\ RNpos q = inject_Z m * 2 ^ ulp_exp q.
Proof.
  intros Hq. exists (rne (q * 2 ^ (- ulp_exp q))). split; [| reflexivity].
  split.
  - apply rne_nonneg. apply Qmult_le_0_compat; apply Qlt_le_weak;
      [exact Hq | apply pow2_pos].
  - rewrite Zle_Qle. rewrite pow2_inject by lia.
    destruct (ilog2_spec q Hq) as [_ S2].
    apply rne_le_pow2; [lia |].
    apply Qle_trans with (2 ^ (ilog2 q + 1 - ulp_exp q)).
    + apply scaled_le. apply Qlt_le_weak, S2.
    + apply pow2_le. unfold ulp_exp. lia.
Qed.

Lemma ulp_exp_ge (q : Q) : (-1074 <= ulp_exp q)%Z.
Proof. unfold ulp_exp. lia. Qed.

Lemma RNpos_idem (q : Q) : 0 < q -> RN (RNpos q) == RNpos q.
Proof.
  intros Hq. destruct (RNpos_form q Hq) as [m [Hm E]].
  destruct (Z.eq_dec m 0) as [Z | NZ].
  - rewrite E. subst m. rewrite RN_zero by ring. ring.
  - assert (P : 0 < inject_Z m * 2 ^ ulp_exp q).
    { apply Qmult_lt_0_compat; [| apply pow2_pos].
      change 0 with (inject_Z 0). rewrite <- Zlt_Qlt. lia. }
    rewrite E. rewrite (RN_pos _ P).
    apply RNpos_repr_le; [lia | apply ulp_exp_ge].
Qed.

(** Rounding is idempotent: its results are floats. *)
Theorem RN_idem (q : Q) : RN (RN q) == RN q.
Proof.
  destruct (Q_dec q 0) as [[N | P] | Z].
  - rewrite (RN_neg q N). rewrite RN_opp. rewrite RNpos_idem by lra. reflexivity.
  - rewrite (RN_pos q P). apply RNpos_idem, P.
  - rewrite (RN_zero q Z). reflexivity.
Qed.

Lemma RN_is_float (q : Q) : is_float (RN q).
Proof. apply RN_idem. Qed.

(** Integers of magnitude at most 2^53 are floats: [float(n)] is exact. *)
Theorem RN_inject_Z (z : Z) : (Z.abs z <= 2 ^ 53)%Z -> RN (inject_Z z) == inject_Z z.
Proof.
  intros Hz.
  assert (Pz : forall m : Z, (0 < m <= 2 ^ 53)%Z -> RN (inject_Z m) == inject_Z m).
  { intros m Hm.
    assert (P : 0 < inject_Z m)
      by (change 0 with (inject_Z 0); rewrite <- Zlt_Qlt; lia).
    rewrite (RN_pos _ P).
    assert (E : inject_Z m == inject_Z m * 2 ^ 0) by (change (2 ^ 0) with 1; ring).
    rewrite (RNpos_wd _ _ P E).
    transitivity (inject_Z m * 2 ^ 0); [apply RNpos_repr_le; lia | symmetry; exact E]. }
  destruct (Z.lt_trichotomy z 0) as [N | [Z | P]].
  - assert (E : inject_Z z == - inject_Z (- z)) by (rewrite inject_Z_opp; ring).
    rewrite E, RN_opp, Pz by lia. reflexivity.
  - subst z. reflexivity.
  - apply Pz. lia.
Qed.

Lemma is_float_inject_Z (z : Z) : (Z.abs z <= 2 ^ 53)%Z -> is_float (inject_Z z).
Proof. apply RN_inject_Z. Qed.

Lemma is_float_wd (x y : Q) : x == y -> is_float x -> is_float y.
Proof. unfold is_float. intros E H. rewrite <- E. exact H. Qed.

Lemma is_floatb_true (q : Q) : is_floatb q = true <-> is_float q.
Proof. unfold is_floatb, is_float. apply Qeq_bool_iff. Qed.

(** A float between an exact value and its rounding: rounding never skips
    a float. *)
Lemma RN_ge_float (d x : Q) : is_float d -> d <= x -> d <= RN x.
Proof.
  intros Hd H. unfold is_float in Hd.
  apply Qle_trans with (RN d); [rewrite Hd; apply Qle_refl | apply RN_mono, H].
Qed.

Lemma RN_le_float (d x : Q) : is_float d -> x <= d -> RN x <= d.
Proof.
  intros Hd H. unfold is_float in Hd.
  apply Qle_trans with (RN d); [apply RN_mono, H | rewrite Hd; apply Qle_refl].
Qed.

(** *** Rounding error *)

Lemma rne_err (t : Q) :
  inject_Z (rne t) - (1 # 2) <= t /\ t <= inject_Z (rne t) + (1 # 2).
Proof.
  pose proof (Qfloor_le t) as F1. pose proof (Qlt_floor t) as F2.
  rewrite inject_Z_plus in F2. change (inject_Z 1) with 1 in F2.
  destruct (rne_cases t) as [[E C] | [E C]]; rewrite E.
  - destruct C as [C | [C _]]; split; lra.
  - rewrite inject_Z_plus. change (inject_Z 1) with 1.
    destruct C as [C | [C _]]; split; lra.
Qed.

Lemma RNpos_err (x : Q) (k : Z) :
  0 < x -> x < 2 ^ k -> (-1021 <= k)%Z ->
  x - 2 ^ (k - 54) <= RNpos x /\ RNpos x <= x + 2 ^ (k - 54).
Proof.
  intros Hx Hk Hmin.
  destruct (ilog2_spec x Hx) as [L1 _].
  assert (Hl : (ilog2 x < k)%Z)
    by (apply pow2_lt_inv; eapply Qle_lt_trans; eassumption).
  set (e := ulp_exp x).
  assert (He : (e - 1 <= k - 54)%Z) by (unfold e, ulp_exp; lia).
  assert (Hp : 2 ^ (e - 1) <= 2 ^ (k - 54)) by (apply pow2_le, He).
  assert (Hh : 2 ^ (e - 1) == (1 # 2) * 2 ^ e).
  { replace (e - 1)%Z with (e + - 1)%Z by lia. rewrite pow2_add.
    change (2 ^ (- 1)) with (1 # 2). ring. }
  unfold RNpos. fold e.
  destruct (rne_err (x * 2 ^ (- e))) as [R1 R2].
  set (m := inject_Z (rne (x * 2 ^ (- e)))) in *.
  pose proof (pow2_pos e) as Pe.
  assert (Ex : x == x * 2 ^ (- e) * 2 ^ e)
    by (rewrite <- Qmult_assoc, pow2_cancel; ring).
  assert (B1 : (m - (1 # 2)) * 2 ^ e <= x).
  { apply Qle_trans with (x * 2 ^ (- e) * 2 ^ e);
      [apply Qmult_le_compat_r; [exact R1 | lra] | rewrite <- Ex; apply Qle_refl]. }
  assert (B2 : x <= (m + (1 # 2)) * 2 ^ e).
  { apply Qle_trans with (x * 2 ^ (- e) * 2 ^ e);
      [rewrite <- Ex; apply Qle_refl | apply Qmult_le_compat_r; [exact R2 | lra]]. }
  split.
  - apply Qle_trans with (x - 2 ^ (e - 1)); [lra |].
    rewrite Hh. setoid_replace (m * 2 ^ e) with
      ((m + (1 # 2)) * 2 ^ e - (1 # 2) * 2 ^ e) by ring. lra.
  - apply Qle_trans with (x + 2 ^ (e - 1)); [| lra].
    rewrite Hh. setoid_replace (m * 2 ^ e) with
      ((m - (1 # 2)) * 2 ^ e + (1 # 2) * 2 ^ e) by ring. lra.
Qed.

(** Absolute error of rounding a nonnegative value below [2^k]. *)
Theorem RN_err (x : Q) (k : Z) :
  0 <= x -> x < 2 ^ k -> (-1021 <= k)%Z ->
  x - 2 ^ (k - 54) <= RN x /\ RN x <= x + 2 ^ (k - 54).
Proof.
  intros Hx Hk Hmin.
  destruct (Qlt_le_dec 0 x) as [P | Z].
  - rewrite (RN_pos x P). apply RNpos_err; assumption.
  - rewrite RN_zero by lra. pose proof (pow2_pos (k - 54)). split; lra.
Qed.

(** Relative form: the error of rounding a value of [0, B] is at most
    [B * 2^-53], above the subnormal range. *)
Lemma RN_err_rel (x B : Q) :
  0 <= x -> x <= B -> 2 ^ (-1022) <= B ->
  x - B * 2 ^ (-53) <= RN x /\ RN x <= x + B * 2 ^ (-53).
Proof.
  intros Hx HB Hmin.
  assert (PB : 0 < B)
    by (apply Qlt_le_trans with (2 ^ (-1022)); [apply pow2_pos | exact Hmin]).
  destruct (ilog2_spec B PB) as [L1 L2].
  assert (Hk : (-1022 < ilog2 B + 1)%Z)
    by (apply pow2_lt_inv; eapply Qle_lt_trans; eassumption).
  destruct (RN_err x (ilog2 B + 1) Hx ltac:(lra) ltac:(lia)) as [E1 E2].
  assert (P : 2 ^ (ilog2 B + 1 - 54) <= B * 2 ^ (-53)).
  { replace (ilog2 B + 1 - 54)%Z with (ilog2 B + (-53))%Z by lia.
    rewrite pow2_add. apply Qmult_le_compat_r; [exact L1 |].
    apply Qlt_le_weak, pow2_pos. }
  split; lra.
Qed.

Lemma within_is_float (k : Z) (q : Q) : within k q -> is_float q.
Proof. intros [H _]. exact H. Qed.

Lemma RN_le_const (x c : Q) : is_floatb c = true -> x <= c -> RN x <= c.
Proof. intros Hc H. apply RN_le_float; [apply is_floatb_true, Hc | exact H]. Qed.

Lemma RN_ge_const (x c : Q) : is_floatb c = true -> c <= x -> c <= RN x.
Proof. intros Hc H. apply RN_ge_float; [apply is_floatb_true, Hc | exact H]. Qed.

End PyFloat.

(** ** Python values and exceptions *)

Inductive exn : Set :=
| ValueError
| IndexError
| ZeroDivisionError
| OverflowError
| MemoryError
| StructError.

Inductive result (A : Type) : Type :=
| Ok (a : A)
| Raise (e : exn).

Arguments Ok {A} a.
Arguments Raise {A} e.

Definition bind {A B : Type} (m : result A) (f : A -> result B) : result B :=
  match m with
  | Ok a => f a
  | Raise e => Raise e
  end.

Notation "x <- m ;; k" := (bind m (fun x => k))
  (at level 61, m at next level, right associativity).

(** A [for] loop over a list of indices, threading the mutated object. *)
Fixpoint for_each {S : Type} (l : list Z) (s : S) (body : S -> Z -> result S)
  : result S :=
  match l with
  | [] => Ok s
  | i :: l' => s' <- body s i ;; for_each l' s' body
  end.

(** [range(lo, hi)] and [range(lo, hi, step)] for a positive step. *)
Definition range (lo hi : Z) : list Z :=
  map (fun k => lo + Z.of_nat k) (seq 0 (Z.to_nat (hi - lo))).

Definition range_step (lo hi step : Z) : list Z :=
  map (fun k => lo + step * Z.of_nat k)
      (seq 0 (Z.to_nat ((hi - lo + step - 1) / step))).

(** *** Byte strings

    [bytes] and [bytearray] are lists of bytes; storing an integer outside
    0..255 raises [ValueError]. *)

Definition u8 (b : byte) : Z := Z.of_N (Byte.to_N b).

Definition to_byte (v : Z) : result byte :=
  if (0 <=? v) && (v <? 256) then
    match Byte.of_N (Z.to_N v) with
    | Some b => Ok b
    | None => Raise ValueError
    end
  else Raise ValueError.

Definition len {A : Type} (l : list A) : Z := Z.of_nat (length l).

(** What the interpreter's host decides: [sys.maxsize], the largest value
    of an index-sized integer, and the largest byte count the allocator
    grants. *)
Record platform : Set := { maxsize : Z; capacity : Z }.

(** [bytearray(n)]: [n] zero bytes.  The count is first converted to an
    index-sized integer ([OverflowError] outside
    [-maxsize-1 .. maxsize]), a negative count is then refused
    ([ValueError]), and the allocation can fail ([MemoryError]). *)
Definition bytearray (pf : platform) (n : Z) : result (list byte) :=
  if (n <? - maxsize pf - 1) || (maxsize pf <? n) then Raise OverflowError
  else if n <? 0 then Raise ValueError
  else if capacity pf <? n then Raise MemoryError
  else Ok (repeat x00 (Z.to_nat n)).

(** Index normalisation: a negative index counts from the end. *)
Definition norm_index (px : list byte) (i : Z) : result nat :=
  let j := if i <? 0 then i + len px else i in
  if (0 <=? j) && (j <? len px) then Ok (Z.to_nat j) else Raise IndexError.

(** [px[i]] *)
Definition getitem (px : list byte) (i : Z) : result Z :=
  j <- norm_index px i ;; Ok (u8 (nth j px x00)).

Fixpoint update (px : list byte) (j : nat) (b : byte) : list byte :=
  match px, j with
  | [], _ => []
  | _ :: t, O => b :: t
  | a :: t, S j' => a :: update t j' b
  end.

(** [px[i] = v] *)
Definition setitem (px : list byte) (i v : Z) : result (list byte) :=
  j <- norm_index px i ;;
  b <- to_byte v ;;
  Ok (update px j b).

(** A colour is a 4-tuple of integers (r, g, b, a). *)
Definition color : Set := (Z * Z * Z * Z)%type.

(** [bytes(c)] for a 4-tuple of integers. *)
Definition bytes4 (c : color) : result (list byte) :=
  let '(r, g, b, a) := c in
  r' <- to_byte r ;; g' <- to_byte g ;; b' <- to_byte b ;; a' <- to_byte a ;;
  Ok [r'; g'; b'; a'].

(** Slice bounds are clamped to the sequence, never an error. *)
Definition clamp_index (px : list byte) (i : Z) : nat :=
  let j := if i <? 0 then Z.max 0 (i + len px) else Z.min i (len px) in
  Z.to_nat j.

(** [px[lo:hi]] *)
Definition getslice (px : list byte) (lo hi : Z) : list byte :=
  let a := clamp_index px lo in
  let b := clamp_index px hi in
  firstn (b - a) (skipn a px).

(** [px[lo:hi] = bs] *)
Definition setslice (px : list byte) (lo hi : Z) (bs : list byte) : list byte :=
  let a := clamp_index px lo in
  let b := Nat.max a (clamp_index px hi) in
  firstn a px ++ bs ++ skipn b px.

(** ** Container encoder *)

(** [zlib.crc32]: the CRC-32 of ISO 3309, reflected polynomial 0xEDB88320. *)
Definition crc_step (c : Z) : Z :=
  if Z.testbit c 0 then Z.lxor (Z.shiftr c 1) 0xEDB88320 else Z.shiftr c 1.

Definition crc_byte (c : Z) (b : byte) : Z :=
  let c0 := Z.lxor c (u8 b) in
  crc_step (crc_step (crc_step (crc_step
    (crc_step (crc_step (crc_step (crc_step c0))))))).

Definition crc32 (data : list byte) : Z :=
  Z.lxor (fold_left crc_byte data 0xFFFFFFFF) 0xFFFFFFFF.

(** Big-endian bytes of an integer below 2^32. *)
Definition byte_of (v : Z) : byte :=
  match Byte.of_N (Z.to_N (v mod 256)) with
  | Some b => b
  | None => x00
  end.

Definition be32 (n : Z) : list byte :=
  [byte_of (Z.shiftr n 24); byte_of (Z.shiftr n 16);
   byte_of (Z.shiftr n 8); byte_of n].

(** [struct.pack('>I', n)]: [struct.error] outside 0 <= n < 2^32. *)
Definition pack_I (n : Z) : result (list byte) :=
  if (0 <=? n) && (n <? 2 ^ 32) then Ok (be32 n) else Raise StructError.

(** [struct.pack('>IIBBBBB', w, h, 8, 6, 0, 0, 0)] *)
Definition pack_IHDR (w h : Z) : result (list byte) :=
  wb <- pack_I w ;; hb <- pack_I h ;;
  Ok (wb ++ hb ++ [x08; x06; x00; x00; x00]).

Definition chunk (tag data : list byte) : result (list byte) :=
  l <- pack_I (len data) ;;
  c <- pack_I (Z.land (crc32 (tag ++ data)) 0xFFFFFFFF) ;;
  Ok (l ++ tag ++ data ++ c).

Definition png_signature : list byte :=
  [x89; x50; x4e; x47; x0d; x0a; x1a; x0a].

Definition IHDR : list byte := [x49; x48; x44; x52].
Definition IDAT : list byte := [x49; x44; x41; x54].
Definition IEND : list byte := [x49; x45; x4e; x44].

(** The scanline loop of [save_png]: a zero filter byte before every row. *)
Definition filter_scanlines (w h : Z) (rgba : list byte) : list byte :=
  let stride := w * 4 in
  fold_left
    (fun raw y => raw ++ [x00] ++ getslice rgba (y * stride) ((y + 1) * stride))
    (range 0 h) [].

Section Encoder.

(** [zlib.compress(data, level=9)], an external library function. *)
Variable compress : list byte -> list byte.

(** [save_png] returns the bytes it hands to [path.write_bytes]. *)
Definition save_png (w h : Z) (rgba : list byte) : result (list byte) :=
  let raw := filter_scanlines w h rgba in
  let compressed := compress raw in
  let png := png_signature in
  c1 <- (hdr <- pack_IHDR w h ;; chunk IHDR hdr) ;;
  let png := png ++ c1 in
  c2 <- chunk IDAT compressed ;;
  let png := png ++ c2 in
  c3 <- chunk IEND [] ;;
  let png := png ++ c3 in
  Ok png.

End Encoder.

(** Reading a container back: the width and height fields of the header
    chunk, which follows the 8-byte signature, a 4-byte length and the
    4-byte tag. *)
Definition read_be32 (bs : list byte) : Z :=
  fold_left (fun acc b => acc * 256 + u8 b) (firstn 4 bs) 0.

Definition parse_header (png : list byte) : Z * Z :=
  (read_be32 (skipn 16 png), read_be32 (skipn 20 png)).

(** ** Float arithmetic as the interpreter performs it *)

Import PyFloat.

(** Closed instances of [within]. *)
Ltac in_range :=
  split; [unfold is_float; vm_compute; reflexivity | vm_compute; discriminate].

(** A geometry argument of a rasteriser: a binary64 value of magnitude at
    most 2^256.  With arguments in this range every pixel coordinate of
    the bounding box is below 2^259, every sum and product the rasteriser
    forms is below 2^520, and [int()] is applied to finite values only. *)
Definition coord (q : Q) : Prop := within 256 q.

(** [float(n)] for an integer operand of a mixed operation. *)
Definition of_int (z : Z) : Q := RN (inject_Z z).

Definition fadd (x y : Q) : Q := RN (x + y).
Definition fsub (x y : Q) : Q := RN (x - y).
Definition fmul (x y : Q) : Q := RN (x * y).

(** [x / y] on floats raises [ZeroDivisionError] for a zero divisor. *)
Definition fdiv (x y : Q) : result Q :=
  if Qeq_bool y 0 then Raise ZeroDivisionError else Ok (RN (x / y)).

(** [a / b] on integers: the correctly rounded quotient. *)
Definition int_truediv (a b : Z) : result Q :=
  if b =? 0 then Raise ZeroDivisionError
  else Ok (RN (inject_Z a / inject_Z b)).

Definition Qltb (x y : Q) : bool := negb (Qle_bool y x).

(** [max(a, b)] and [min(a, b)]: the first argument unless the second is
    strictly larger (smaller). *)
Definition fmax (a b : Q) : Q := if Qltb a b then b else a.
Definition fmin (a b : Q) : Q := if Qltb b a then b else a.

Notation "x ⊕ y" := (fadd x y) (at level 50, left associativity).
Notation "x ⊖ y" := (fsub x y) (at level 50, left associativity).
Notation "x ⊗ y" := (fmul x y) (at level 40, left associativity).

(** The float literals of the source.  Small integer operands of mixed
    operations ([1], [2]) convert exactly and are written as they are. *)
Definition f0_5 : Q := 1 # 2.
Definition f1_5 : Q := 3 # 2.
Definition f0_6 : Q := RN (6 # 10).
Definition f0_9 : Q := RN (9 # 10).
Definition f1e_6 : Q := RN (1 # 1000000).
Definition f255 : Q := 255 # 1.

(** ** Canvas and compositor *)

Definition make_canvas (pf : platform) (w h : Z) (bg : color)
  : result (list byte) :=
  let '(r, g, b, a) := bg in
  px <- bytearray pf (w * h * 4) ;;
  for_each (range_step 0 (len px) 4) px (fun px i =>
    px <- setitem px i r ;;
    px <- setitem px (i + 1) g ;;
    px <- setitem px (i + 2) b ;;
    setitem px (i + 3) a).

(** The compositing arithmetic of [blend], after its two early returns:
    [sa_f], [da_f], [out_a] and the nested function [comp]. *)
Definition alpha_unit (a : Z) : result Q := fdiv (of_int a) f255.

Definition out_alpha (sa_f da_f : Q) : Q := sa_f ⊕ da_f ⊗ (1 ⊖ sa_f).

Definition comp (sa_f da_f out_a : Q) (sc dc : Z) : result Z :=
  q <- fdiv (of_int sc ⊗ sa_f ⊕ of_int dc ⊗ da_f ⊗ (1 ⊖ sa_f)) out_a ;;
  Ok (rne q).

(** [blend] mutates [px] in place; the model returns the buffer after the
    call.  When an assignment raises, the interpreter leaves the earlier
    assignments of the same call in the buffer; the model reports the
    exception only. *)
Definition blend (px : list byte) (w h x y : Z) (c : color)
  : result (list byte) :=
  if (x <? 0) || (y <? 0) || (x >=? w) || (y >=? h) then Ok px else
  let '(sr, sg, sb, sa) := c in
  if sa <=? 0 then Ok px else
  let i := (y * w + x) * 4 in
  dr <- getitem px i ;;
  dg <- getitem px (i + 1) ;;
  db <- getitem px (i + 2) ;;
  da <- getitem px (i + 3) ;;
  sa_f <- alpha_unit sa ;;
  da_f <- alpha_unit da ;;
  let out_a := out_alpha sa_f da_f in
  if Qle_bool out_a 0 then Ok (setslice px i (i + 4) [x00; x00; x00; x00])
  else
    v <- comp sa_f da_f out_a sr dr ;;
    px <- setitem px i v ;;
    v <- comp sa_f da_f out_a sg dg ;;
    px <- setitem px (i + 1) v ;;
    v <- comp sa_f da_f out_a sb db ;;
    px <- setitem px (i + 2) v ;;
    setitem px (i + 3) (rne (out_a ⊗ f255)).

Definition lerp (a b : Z) (t : Q) : Q := of_int a ⊕ of_int (b - a) ⊗ t.

Definition mix (c1 c2 : color) (t : Q) : color :=
  let '(r1, g1, b1, a1) := c1 in
  let '(r2, g2, b2, a2) := c2 in
  (rne (lerp r1 r2 t), rne (lerp g1 g2 t), rne (lerp b1 b2 t),
   rne (lerp a1 a2 t)).

Definition fill_linear_gradient (px : list byte) (w h : Z) (c_tl c_br : color)
  : result (list byte) :=
  for_each (range 0 h) px (fun px y =>
    ty <- int_truediv y (Z.max 1 (h - 1)) ;;
    for_each (range 0 w) px (fun px x =>
      tx <- int_truediv x (Z.max 1 (w - 1)) ;;
      v <- fdiv (tx ⊗ f0_6 ⊕ ty ⊗ f0_9) f1_5 ;;
      let t := fmax 0 (fmin 1 v) in
      let c := mix c_tl c_br t in
      let i := (y * w + x) * 4 in
      bs <- bytes4 c ;;
      Ok (setslice px i (i + 4) bs))).

(** ** Shape rasterisers *)

(** Coverage of the soft disc at distance [d] from its centre: the value
    of [a] in [draw_soft_circle]. *)
Definition soft_circle_coverage (r feather d : Q) : result Q :=
  if Qle_bool d (r ⊖ feather) then Ok 1%Q
  else if Qle_bool d (r ⊕ feather) then
    q <- fdiv (r ⊕ feather ⊖ d) (2 ⊗ feather) ;;
    Ok (fmax 0 (fmin 1 q))
  else Ok 0%Q.

(** Coverage of the ring at distance [d]: the value of [a] in [draw_ring]. *)
Definition ring_coverage (r thickness feather d : Q) : result Q :=
  half <- fdiv thickness 2 ;;
  let outer := r ⊕ half in
  let inner := fmax 0 (r ⊖ half) in
  if Qle_bool (inner ⊕ feather) d && Qle_bool d (outer ⊖ feather) then Ok 1%Q
  else if Qle_bool (inner ⊖ feather) d && Qle_bool d (outer ⊕ feather) then
    a_out <- (if Qle_bool d (outer ⊖ feather) then Ok 1%Q
              else q <- fdiv (outer ⊕ feather ⊖ d) (2 ⊗ feather) ;;
                   Ok (fmax 0 (fmin 1 q))) ;;
    a_in <- (if Qle_bool (inner ⊕ feather) d then Ok 1%Q
             else q <- fdiv (d ⊖ (inner ⊖ feather)) (2 ⊗ feather) ;;
                  Ok (fmax 0 (fmin 1 q))) ;;
    Ok (fmin a_out a_in)
  else Ok 0%Q.

(** Coverage of the capsule glow at distance [d] from the segment, inside
    the test [d <= width + feather] of [draw_diag_glow]. *)
Definition glow_coverage (width feather d : Q) : result Q :=
  if Qle_bool d width then Ok 1%Q
  else q <- fdiv (width ⊕ feather ⊖ d) feather ;; Ok (fmax 0 (fmin 1 q)).

(** Coverage of the rounded-rectangle stroke at unsigned distance [ad],
    inside the test [ad <= thickness]. *)
Definition stroke_coverage (thickness ad : Q) : result Q :=
  q <- fdiv ad (fmax 1 thickness) ;; Ok (fmax 0 (1 ⊖ q)).

(** [int(ca * a)] *)
Definition scale_alpha (ca : Z) (a : Q) : Z := trunc (of_int ca ⊗ a).

(** The pixel scan shared by the four rasterisers:
    [for y in range(y0, y1 + 1): for x in range(x0, x1 + 1): body]. *)
Definition box : Set := (Z * Z * Z * Z)%type.

Definition scan (px : list byte) (b : box)
  (body : list byte -> Z -> Z -> result (list byte)) : result (list byte) :=
  let '(x0, x1, y0, y1) := b in
  for_each (range y0 (y1 + 1)) px (fun px y =>
    for_each (range x0 (x1 + 1)) px (fun px x => body px x y)).

(** The bounding box [x0, x1, y0, y1] of a shape of half-extent [ext]
    about [(cx, cy)] with margin [feather + pad], clamped to the canvas. *)
Definition disc_box (w h : Z) (cx cy ext feather pad : Q) : box :=
  (Z.max 0 (trunc (cx ⊖ ext ⊖ feather ⊖ pad)),
   Z.min (w - 1) (trunc (cx ⊕ ext ⊕ feather ⊕ pad)),
   Z.max 0 (trunc (cy ⊖ ext ⊖ feather ⊖ pad)),
   Z.min (h - 1) (trunc (cy ⊕ ext ⊕ feather ⊕ pad))).

Definition glow_box (w h : Z) (x0 y0 x1 y1 width feather : Q) : box :=
  (Z.max 0 (trunc (fmin x0 x1 ⊖ width ⊖ feather ⊖ 2)),
   Z.min (w - 1) (trunc (fmax x0 x1 ⊕ width ⊕ feather ⊕ 2)),
   Z.max 0 (trunc (fmin y0 y1 ⊖ width ⊖ feather ⊖ 2)),
   Z.min (h - 1) (trunc (fmax y0 y1 ⊕ width ⊕ feather ⊕ 2))).

Definition stroke_box (w h : Z) (x y rw rh thickness : Q) : box :=
  (Z.max 0 (trunc (x ⊖ thickness ⊖ 2)),
   Z.min (w - 1) (trunc (x ⊕ rw ⊕ thickness ⊕ 2)),
   Z.max 0 (trunc (y ⊖ thickness ⊖ 2)),
   Z.min (h - 1) (trunc (y ⊕ rh ⊕ thickness ⊕ 2))).

Section Rasterisers.

(** [math.hypot], an external library function. *)
Variable hypot : Q -> Q -> Q.

Definition draw_soft_circle (px : list byte) (w h : Z) (cx cy r : Q)
  (c : color) (feather : Q) : result (list byte) :=
  let '(cr, cg, cb, ca) := c in
  scan px (disc_box w h cx cy r feather 1) (fun px x y =>
    let d := hypot (of_int x ⊕ f0_5 ⊖ cx) (of_int y ⊕ f0_5 ⊖ cy) in
    a <- soft_circle_coverage r feather d ;;
    if Qltb 0 a then blend px w h x y (cr, cg, cb, scale_alpha ca a)
    else Ok px).

Definition draw_ring (px : list byte) (w h : Z) (cx cy r thickness : Q)
  (c : color) (feather : Q) : result (list byte) :=
  half <- fdiv thickness 2 ;;
  let outer := r ⊕ half in
  let '(cr, cg, cb, ca) := c in
  scan px (disc_box w h cx cy outer feather 1) (fun px x y =>
    let d := hypot (of_int x ⊕ f0_5 ⊖ cx) (of_int y ⊕ f0_5 ⊖ cy) in
    a <- ring_coverage r thickness feather d ;;
    if Qltb 0 a then blend px w h x y (cr, cg, cb, scale_alpha ca a)
    else Ok px).

Definition draw_diag_glow (px : list byte) (w h : Z) (x0 y0 x1 y1 width : Q)
  (c : color) (feather : Q) : result (list byte) :=
  let '(cr, cg, cb, ca) := c in
  let vx := x1 ⊖ x0 in
  let vy := y1 ⊖ y0 in
  let vlen2 := vx ⊗ vx ⊕ vy ⊗ vy ⊕ f1e_6 in
  scan px (glow_box w h x0 y0 x1 y1 width feather) (fun px x y =>
    let px0 := of_int x ⊕ f0_5 ⊖ x0 in
    let py0 := of_int y ⊕ f0_5 ⊖ y0 in
    s <- fdiv (px0 ⊗ vx ⊕ py0 ⊗ vy) vlen2 ;;
    let t := fmax 0 (fmin 1 s) in
    let qx := x0 ⊕ vx ⊗ t in
    let qy := y0 ⊕ vy ⊗ t in
    let d := hypot (of_int x ⊕ f0_5 ⊖ qx) (of_int y ⊕ f0_5 ⊖ qy) in
    if Qle_bool d (width ⊕ feather) then
      a <- glow_coverage width feather d ;;
      blend px w h x y (cr, cg, cb, scale_alpha ca a)
    else Ok px).

Definition draw_rounded_rect_stroke (px : list byte) (w h : Z)
  (x y rw rh radius thickness : Q) (c : color) : result (list byte) :=
  let '(cr, cg, cb, ca) := c in
  rw2 <- fdiv rw 2 ;;
  let cx := x ⊕ rw2 in
  rh2 <- fdiv rh 2 ;;
  let cy := y ⊕ rh2 in
  let hx := rw2 ⊖ radius in
  let hy := rh2 ⊖ radius in
  scan px (stroke_box w h x y rw rh thickness) (fun px pxl py =>
    let qx := Qabs (of_int pxl ⊕ f0_5 ⊖ cx) ⊖ hx in
    let qy := Qabs (of_int py ⊕ f0_5 ⊖ cy) ⊖ hy in
    let qx2 := fmax qx 0 in
    let qy2 := fmax qy 0 in
    let dist := hypot qx2 qy2 ⊕ fmin (fmax qx qy) 0 ⊖ radius in
    let ad := Qabs dist in
    if Qle_bool ad thickness then
      a <- stroke_coverage thickness ad ;;
      blend px w h pxl py (cr, cg, cb, scale_alpha ca a)
    else Ok px).

End Rasterisers.

(** * Verification *)

(** ** Bytes *)

Lemma u8_range (b : byte) : 0 <= u8 b < 256.
Proof.
  unfold u8. pose proof (Byte.to_N_bounded b). lia.
Qed.

Lemma of_N_some (n : N) : (n < 256)%N -> exists b, Byte.of_N n = Some b /\ Byte.to_N b = n.
Proof.
  intros H. destruct (Byte.of_N n) eqn:E.
  - exists b. split; [reflexivity | apply Byte.to_of_N, E].
  - apply Byte.of_N_None_iff in E. lia.
Qed.

Lemma to_byte_ok (v : Z) :
  0 <= v < 256 -> exists b, to_byte v = Ok b /\ u8 b = v.
Proof.
  intros H. unfold to_byte.
  replace ((0 <=? v) && (v <? 256)) with true by (symmetry; apply andb_true_iff; lia).
  destruct (of_N_some (Z.to_N v)) as [b [E1 E2]]; [lia |].
  rewrite E1. exists b. split; [reflexivity |]. unfold u8. rewrite E2. lia.
Qed.

Lemma to_byte_u8 (b : byte) : to_byte (u8 b) = Ok b.
Proof.
  pose proof (u8_range b) as H. unfold to_byte.
  replace ((0 <=? u8 b) && (u8 b <? 256)) with true
    by (symmetry; apply andb_true_iff; lia).
  unfold u8. rewrite N2Z.id, Byte.of_to_N. reflexivity.
Qed.

Lemma u8_byte_of (v : Z) : u8 (byte_of v) = v mod 256.
Proof.
  unfold byte_of.
  assert (H : 0 <= v mod 256 < 256) by (apply Z.mod_pos_bound; lia).
  destruct (of_N_some (Z.to_N (v mod 256))) as [b [E1 E2]]; [lia |].
  rewrite E1. unfold u8. rewrite E2. lia.
Qed.

Lemma len_app {A : Type} (l1 l2 : list A) : len (l1 ++ l2) = len l1 + len l2.
Proof. unfold len. rewrite length_app. lia. Qed.

Lemma len_nonneg {A : Type} (l : list A) : 0 <= len l.
Proof. unfold len. lia. Qed.

(** ** Container encoder *)

Lemma pack_I_ok (n : Z) : 0 <= n < 2 ^ 32 -> pack_I n = Ok (be32 n).
Proof.
  intros H. unfold pack_I.
  replace ((0 <=? n) && (n <? 2 ^ 32)) with true; [reflexivity |].
  symmetry. apply andb_true_iff. lia.
Qed.

Lemma length_be32 (n : Z) : length (be32 n) = 4%nat.
Proof. reflexivity. Qed.

Lemma mask32_range (c : Z) : 0 <= Z.land c 0xFFFFFFFF < 2 ^ 32.
Proof.
  change 0xFFFFFFFF with (Z.ones 32). rewrite Z.land_ones by lia.
  apply Z.mod_pos_bound. lia.
Qed.

Lemma byte_of_mod (v : Z) : byte_of (v mod 256) = byte_of v.
Proof. unfold byte_of. rewrite Z.mod_mod by lia. reflexivity. Qed.

Lemma shiftr_mask32 (c k : Z) :
  0 <= k <= 24 ->
  (Z.shiftr (Z.land c 0xFFFFFFFF) k) mod 256 = (Z.shiftr c k) mod 256.
Proof.
  intros Hk. change 0xFFFFFFFF with (Z.ones 32). change 256 with (2 ^ 8).
  rewrite <- !Z.land_ones by lia.
  apply Z.bits_inj'. intros i Hi.
  rewrite !Z.land_spec, !Z.shiftr_spec, Z.land_spec by lia.
  destruct (Z.ltb_spec i 8) as [L | G].
  - rewrite (Z.ones_spec_low 32 (i + k)) by lia. rewrite andb_true_r. reflexivity.
  - rewrite (Z.ones_spec_high 8 i) by lia. rewrite !andb_false_r. reflexivity.
Qed.

(** The mask [& 0xFFFFFFFF] does not change the four bytes written. *)
Lemma be32_mask (c : Z) : be32 (Z.land c 0xFFFFFFFF) = be32 c.
Proof.
  unfold be32.
  rewrite <- (byte_of_mod (Z.shiftr (Z.land c 0xFFFFFFFF) 24)).
  rewrite <- (byte_of_mod (Z.shiftr (Z.land c 0xFFFFFFFF) 16)).
  rewrite <- (byte_of_mod (Z.shiftr (Z.land c 0xFFFFFFFF) 8)).
  rewrite <- (byte_of_mod (Z.land c 0xFFFFFFFF)).
  rewrite !shiftr_mask32 by lia.
  replace (Z.land c 0xFFFFFFFF mod 256) with (c mod 256)
    by (symmetry; apply (shiftr_mask32 c 0); lia).
  rewrite !byte_of_mod. reflexivity.
Qed.

Lemma chunk_ok (tag data : list byte) :
  len data < 2 ^ 32 ->
  chunk tag data =
  Ok (be32 (len data) ++ tag ++ data ++ be32 (crc32 (tag ++ data))).
Proof.
  intros H. unfold chunk.
  rewrite pack_I_ok by (pose proof (len_nonneg data); lia).
  cbn [bind]. rewrite pack_I_ok by apply mask32_range.
  cbn [bind]. rewrite be32_mask. reflexivity.
Qed.

Lemma read_be32_be32 (n : Z) (rest : list byte) :
  0 <= n < 2 ^ 32 -> read_be32 (be32 n ++ rest) = n.
Proof.
  intros H. unfold read_be32, be32. cbn [app firstn fold_left].
  rewrite !u8_byte_of, !Z.shiftr_div_pow2 by lia.
  change (2 ^ 24) with 16777216. change (2 ^ 16) with 65536.
  change (2 ^ 8) with 256. change (2 ^ 32) with 4294967296 in H.
  assert (E24 : (n / 16777216) mod 256 = n / 16777216)
    by (apply Z.mod_small; split; [apply Z.div_pos; lia | apply Z.div_lt_upper_bound; lia]).
  pose proof (Z.div_mod n 256 ltac:(lia)) as D0.
  pose proof (Z.div_mod (n / 256) 256 ltac:(lia)) as D1.
  pose proof (Z.div_mod (n / 65536) 256 ltac:(lia)) as D2.
  rewrite (Z.div_div n 256 256) in D1 by lia.
  rewrite (Z.div_div n 65536 256) in D2 by lia.
  change (256 * 256) with 65536 in *. change (65536 * 256) with 16777216 in *.
  rewrite E24. lia.
Qed.

Definition TEST : list byte := [x54; x45; x53; x54].

(** C7. For every tag and every payload whose length fits the 4-byte length
    field, [chunk tag payload] is the big-endian payload length, the tag,
    the payload and the big-endian CRC-32 of [tag ++ payload]; for a 4-byte
    tag that is [12 + len payload] bytes, and [chunk b"TEST" b""] is the
    twelve bytes 00 00 00 00, "TEST", CRC-32("TEST"). *)
Theorem chunk_layout (tag data : list byte) :
  len data < 2 ^ 32 ->
  chunk tag data =
    Ok (be32 (len data) ++ tag ++ data ++ be32 (crc32 (tag ++ data)))
  /\ (length tag = 4%nat ->
      length (be32 (len data) ++ tag ++ data ++ be32 (crc32 (tag ++ data)))
      = (12 + length data)%nat)
  /\ chunk TEST [] = Ok ([x00; x00; x00; x00] ++ TEST ++ be32 (crc32 TEST))
  /\ length ([x00; x00; x00; x00] ++ TEST ++ be32 (crc32 TEST)) = 12%nat.
Proof.
  intros H. split; [apply chunk_ok, H |]. split.
  - intros Ht. rewrite !length_app, Ht, !length_be32. lia.
  - split; reflexivity.
Qed.

Lemma chunk_layout_witness :
  chunk IEND [] = Ok (be32 0 ++ IEND ++ [] ++ be32 (crc32 (IEND ++ []))).
Proof.
  apply (chunk_layout IEND []). reflexivity.
Defined.

(** ** Float operations: order and exactness *)

Lemma of_int_exact (z : Z) : Z.abs z <= 2 ^ 53 -> (of_int z == inject_Z z)%Q.
Proof. apply RN_inject_Z. Qed.

Lemma of_int_u8 (z : Z) : 0 <= z <= 255 -> (of_int z == inject_Z z)%Q.
Proof. intros H. apply of_int_exact. change (2 ^ 53) with 9007199254740992. lia. Qed.

#[export] Instance fadd_wd : Proper (Qeq ==> Qeq ==> Qeq) fadd.
Proof. intros x x' Ex y y' Ey. unfold fadd. rewrite Ex, Ey. reflexivity. Qed.

#[export] Instance fsub_wd : Proper (Qeq ==> Qeq ==> Qeq) fsub.
Proof. intros x x' Ex y y' Ey. unfold fsub. rewrite Ex, Ey. reflexivity. Qed.

#[export] Instance fmul_wd : Proper (Qeq ==> Qeq ==> Qeq) fmul.
Proof. intros x x' Ex y y' Ey. unfold fmul. rewrite Ex, Ey. reflexivity. Qed.

Lemma fadd_mono (a a' b b' : Q) : (a <= a' -> b <= b' -> a ⊕ b <= a' ⊕ b')%Q.
Proof. intros H1 H2. apply RN_mono. lra. Qed.

Lemma fsub_mono (a a' b b' : Q) : (a <= a' -> b' <= b -> a ⊖ b <= a' ⊖ b')%Q.
Proof. intros H1 H2. apply RN_mono. lra. Qed.

Lemma fmul_mono (a a' b b' : Q) :
  (0 <= a -> a <= a' -> 0 <= b -> b <= b' -> a ⊗ b <= a' ⊗ b')%Q.
Proof.
  intros H1 H2 H3 H4. apply RN_mono.
  apply Qmult_le_compat_nonneg; split; assumption.
Qed.

Lemma fadd_nonneg (a b : Q) : (0 <= a -> 0 <= b -> 0 <= a ⊕ b)%Q.
Proof. intros H1 H2. apply RN_nonneg. lra. Qed.

Lemma fmul_nonneg (a b : Q) : (0 <= a -> 0 <= b -> 0 <= a ⊗ b)%Q.
Proof. intros H1 H2. apply RN_nonneg. apply Qmult_le_0_compat; assumption. Qed.

Lemma fdiv_ok (x y : Q) : (~ y == 0)%Q -> fdiv x y = Ok (RN (x / y)).
Proof.
  intros H. unfold fdiv. destruct (Qeq_bool y 0) eqn:E; [| reflexivity].
  apply Qeq_bool_iff in E. contradiction.
Qed.

Lemma Qle_bool_false (x y : Q) : Qle_bool x y = false <-> (y < x)%Q.
Proof.
  split; intros H.
  - apply Qnot_le_lt. intros C. apply Qle_bool_iff in C. congruence.
  - destruct (Qle_bool x y) eqn:E; [| reflexivity].
    apply Qle_bool_iff in E. lra.
Qed.

Lemma Qltb_true (x y : Q) : Qltb x y = true <-> (x < y)%Q.
Proof.
  unfold Qltb. rewrite negb_true_iff. apply Qle_bool_false.
Qed.

Lemma Qltb_false (x y : Q) : Qltb x y = false <-> (y <= x)%Q.
Proof.
  unfold Qltb. rewrite negb_false_iff. apply Qle_bool_iff.
Qed.

Lemma fmax_spec (a b : Q) : (fmax a b == Qmax a b)%Q /\ (fmax a b = a \/ fmax a b = b).
Proof.
  unfold fmax. destruct (Qltb a b) eqn:E.
  - apply Qltb_true in E. split; [| right; reflexivity].
    symmetry. apply Q.max_r. lra.
  - apply Qltb_false in E. split; [| left; reflexivity].
    symmetry. apply Q.max_l. exact E.
Qed.

Lemma fmin_spec (a b : Q) : (fmin a b == Qmin a b)%Q /\ (fmin a b = a \/ fmin a b = b).
Proof.
  unfold fmin. destruct (Qltb b a) eqn:E.
  - apply Qltb_true in E. split; [| right; reflexivity].
    symmetry. apply Q.min_r. lra.
  - apply Qltb_false in E. split; [| left; reflexivity].
    symmetry. apply Q.min_l. exact E.
Qed.

(** [max(0.0, min(1.0, v))] lies in the unit interval for every [v]. *)
Lemma clamp01 (v : Q) : (0 <= fmax 0 (fmin 1 v) /\ fmax 0 (fmin 1 v) <= 1)%Q.
Proof.
  unfold fmax, fmin.
  destruct (Qltb v 1) eqn:E1.
  - apply Qltb_true in E1. destruct (Qltb 0 v) eqn:E2.
    + apply Qltb_true in E2. split; lra.
    + split; lra.
  - change (Qltb 0 1) with true. cbn iota. split; lra.
Qed.

Lemma clamp01_mono (u v : Q) :
  (u <= v -> fmax 0 (fmin 1 u) <= fmax 0 (fmin 1 v))%Q.
Proof.
  intros H.
  destruct (fmax_spec 0 (fmin 1 u)) as [Eu _].
  destruct (fmax_spec 0 (fmin 1 v)) as [Ev _].
  destruct (fmin_spec 1 u) as [Eu' _]. destruct (fmin_spec 1 v) as [Ev' _].
  rewrite Eu, Ev, Eu', Ev'.
  apply Q.max_le_compat_l. apply Q.min_le_compat_l. exact H.
Qed.

(** ** The compositing arithmetic of [blend] *)

(** [sa / 255.0] for an 8-bit component. *)
Definition unit_of (a : Z) : Q := RN (of_int a / f255).

Lemma alpha_unit_ok (a : Z) : alpha_unit a = Ok (unit_of a).
Proof. reflexivity. Qed.

Lemma div255 (x : Q) : (x / f255 == x * (1 # 255))%Q.
Proof. reflexivity. Qed.

Lemma unit_of_range (a : Z) : 0 <= a <= 255 -> (0 <= unit_of a /\ unit_of a <= 1)%Q.
Proof.
  intros H. unfold unit_of.
  assert (E := of_int_u8 a H).
  assert (L : (0 <= inject_Z a)%Q) by (change 0%Q with (inject_Z 0); rewrite <- Zle_Qle; lia).
  assert (U : (inject_Z a <= 255)%Q) by (change 255%Q with (inject_Z 255); rewrite <- Zle_Qle; lia).
  split.
  - apply RN_nonneg. rewrite div255, E. lra.
  - apply RN_le_const; [reflexivity |]. rewrite div255, E. lra.
Qed.

Lemma unit_of_pos (a : Z) : 1 <= a <= 255 -> (RN (1 # 255) <= unit_of a)%Q.
Proof.
  intros H. unfold unit_of. apply RN_mono.
  assert (E := of_int_u8 a ltac:(lia)).
  assert (L : (1 <= inject_Z a)%Q) by (change 1%Q with (inject_Z 1); rewrite <- Zle_Qle; lia).
  rewrite div255, E. lra.
Qed.

Lemma unit_of_255 : (unit_of 255 == 1)%Q.
Proof. reflexivity. Qed.

Definition eps : Q := 1 # 35184372088832.

Lemma RN_err9 (x : Q) :
  (0 <= x -> x < 512 -> x - eps <= RN x /\ RN x <= x + eps)%Q.
Proof. intros H1 H2. apply (RN_err x 9); [exact H1 | exact H2 | lia]. Qed.

Section SourceOver.

Variables A D : Q.
Hypothesis HA : (RN (1 # 255) <= A /\ A <= 1)%Q.
Hypothesis HD : (0 <= D /\ D <= 1)%Q.
Hypothesis FA : is_float A.

Let M : Q := 1 ⊖ A.
Let P : Q := D ⊗ M.
Let O : Q := out_alpha A D.

Local Open Scope Q_scope.

Lemma A_lower : (1 # 256 <= A)%Q.
Proof.
  apply Qle_trans with (RN (1 # 255)); [| apply HA].
  apply Qle_bool_iff. reflexivity.
Qed.

Lemma M_range : (0 <= M /\ M <= 1)%Q.
Proof.
  pose proof A_lower. destruct HA as [_ HA2]. split.
  - apply RN_nonneg. lra.
  - apply RN_le_const; [reflexivity | lra].
Qed.

Lemma M_upper : (M <= 1 - A + (1 # 18014398509481984))%Q.
Proof.
  pose proof A_lower. destruct HA as [_ HA2].
  destruct (Qlt_le_dec A 1) as [L | G].
  - apply (RN_err (1 - A) 0); [lra | | lia].
    change (2 ^ 0)%Q with 1%Q. lra.
  - unfold M, fsub. rewrite RN_zero by lra. lra.
Qed.

Lemma P_range : (0 <= P /\ P <= M)%Q.
Proof.
  destruct M_range as [M1 M2]. destruct HD as [D1 D2]. split.
  - apply fmul_nonneg; assumption.
  - apply RN_le_float; [apply RN_is_float |].
    setoid_replace M with (1 * M)%Q at 2 by ring.
    apply Qmult_le_compat_r; assumption.
Qed.

(** The output alpha is at least the source alpha, hence positive. *)
Lemma out_alpha_lower : (A <= O)%Q.
Proof.
  destruct P_range as [P1 _].
  apply RN_ge_float; [exact FA |]. fold M. fold P. lra.
Qed.

Lemma out_alpha_pos : (0 < O)%Q.
Proof. pose proof out_alpha_lower. pose proof A_lower. lra. Qed.

Lemma out_alpha_upper : (O <= 1)%Q.
Proof.
  destruct P_range as [_ P2]. pose proof M_upper as MU.
  apply Qle_trans with (RN (1 + (1 # 18014398509481984))).
  - apply RN_mono. fold M. fold P. lra.
  - apply Qle_bool_iff. reflexivity.
Qed.

Lemma out_alpha_approx : (A + D * M - 2 * eps <= O)%Q.
Proof.
  destruct M_range as [M1 M2]. destruct HD as [D1 D2].
  destruct HA as [_ HA2]. pose proof A_lower as HA1.
  assert (DM : (0 <= D * M)%Q) by (apply Qmult_le_0_compat; assumption).
  assert (DM1 : (D * M <= 1 * 1)%Q) by (apply Qmult_le_compat_nonneg; split; assumption).
  destruct (RN_err9 (D * M)) as [E1 _]; [lra | lra |].
  destruct P_range as [P1 P2].
  destruct (RN_err9 (A + P)) as [E2 _]; [lra | lra |].
  change (RN (D * M)) with P in E1. change O with (RN (A + P)).
  unfold eps in *. lra.
Qed.

(** The numerator of [comp] at full brightness on both sides. *)
Lemma num_upper :
  (of_int 255 ⊗ A ⊕ of_int 255 ⊗ D ⊗ M <= 255 * (A + D * M) + 4 * eps)%Q.
Proof.
  destruct M_range as [M1 M2]. destruct HD as [D1 D2].
  destruct HA as [_ HA2]. pose proof A_lower as HA1.
  assert (E255 : of_int 255 == 255) by reflexivity.
  assert (DM : 0 <= D * M) by (apply Qmult_le_0_compat; assumption).
  set (u := of_int 255 ⊗ D). set (t1 := of_int 255 ⊗ A). set (t2 := u ⊗ M).
  assert (U1 : u <= 255 * D + eps).
  { destruct (RN_err9 (of_int 255 * D)) as [_ U1];
      [rewrite E255; lra | rewrite E255; lra |].
    rewrite E255 in U1 at 2. exact U1. }
  assert (T1 : t1 <= 255 * A + eps).
  { destruct (RN_err9 (of_int 255 * A)) as [_ T1];
      [rewrite E255; lra | rewrite E255; lra |].
    rewrite E255 in T1 at 2. exact T1. }
  assert (U0 : 0 <= u) by (apply fmul_nonneg; [rewrite E255 |]; lra).
  assert (U255 : u <= 255).
  { apply RN_le_const; [reflexivity |]. rewrite E255. lra. }
  assert (UM : u * M <= 255 * (D * M) + eps).
  { apply Qle_trans with ((255 * D + eps) * M).
    - apply Qmult_le_compat_r; assumption.
    - setoid_replace ((255 * D + eps) * M) with (255 * (D * M) + eps * M) by ring.
      unfold eps in *. lra. }
  assert (UM0 : 0 <= u * M) by (apply Qmult_le_0_compat; assumption).
  assert (UM1 : u * M <= 255 * 1) by (apply Qmult_le_compat_nonneg; split; assumption).
  assert (T2 : t2 <= u * M + eps) by (apply (RN_err9 (u * M)); lra).
  assert (T10 : 0 <= t1) by (apply fmul_nonneg; [rewrite E255 |]; lra).
  assert (T20 : 0 <= t2) by (apply fmul_nonneg; assumption).
  assert (T1u : t1 <= 255).
  { apply RN_le_const; [reflexivity |]. rewrite E255. lra. }
  assert (T2u : t2 <= 255).
  { apply RN_le_const; [reflexivity |]. lra. }
  assert (N1 : t1 ⊕ t2 <= t1 + t2 + eps) by (apply (RN_err9 (t1 + t2)); lra).
  unfold eps in *. lra.
Qed.

Lemma quotient_upper :
  (RN ((of_int 255 ⊗ A ⊕ of_int 255 ⊗ D ⊗ M) / O) <= 255 + (1 # 4))%Q.
Proof.
  pose proof num_upper as NU. pose proof out_alpha_approx as OA.
  pose proof out_alpha_pos as OP. pose proof A_lower as HA1.
  destruct M_range as [M1 M2]. destruct HD as [D1 D2].
  assert (DM : (0 <= D * M)%Q) by (apply Qmult_le_0_compat; assumption).
  apply RN_le_const; [reflexivity |].
  apply Qle_shift_div_r; [exact OP |].
  unfold eps in *. lra.
Qed.

End SourceOver.

(** [comp] never divides by zero and returns a byte value. *)
Lemma comp_ok (A D : Q) (sc dc : Z) :
  (RN (1 # 255) <= A /\ A <= 1)%Q -> (0 <= D /\ D <= 1)%Q -> is_float A ->
  0 <= sc <= 255 -> 0 <= dc <= 255 ->
  exists v,
    comp A D (out_alpha A D) sc dc = Ok v /\
    v = rne (RN ((of_int sc ⊗ A ⊕ of_int dc ⊗ D ⊗ (1 ⊖ A)) / out_alpha A D)) /\
    0 <= v <= 255.
Proof.
  intros HA HD FA Hsc Hdc.
  pose proof (out_alpha_pos A D HA HD FA) as OP.
  pose proof (A_lower A HA) as HA1.
  destruct (M_range A HA) as [M1 M2].
  destruct HA as [HA0 HA2]. destruct HD as [D1 D2].
  eexists. split; [| split; [reflexivity |]].
  - unfold comp. rewrite fdiv_ok by lra. reflexivity.
  - assert (Esc := of_int_u8 sc Hsc). assert (Edc := of_int_u8 dc Hdc).
    assert (S0 : (0 <= of_int sc)%Q)
      by (rewrite Esc; change 0%Q with (inject_Z 0); rewrite <- Zle_Qle; lia).
    assert (S1 : (of_int sc <= of_int 255)%Q)
      by (apply RN_mono; rewrite <- Zle_Qle; lia).
    assert (C0 : (0 <= of_int dc)%Q)
      by (rewrite Edc; change 0%Q with (inject_Z 0); rewrite <- Zle_Qle; lia).
    assert (C1 : (of_int dc <= of_int 255)%Q)
      by (apply RN_mono; rewrite <- Zle_Qle; lia).
    set (num := of_int sc ⊗ A ⊕ of_int dc ⊗ D ⊗ (1 ⊖ A)).
    assert (N0 : (0 <= num)%Q).
    { apply fadd_nonneg; [apply fmul_nonneg; lra |].
      apply fmul_nonneg; [apply fmul_nonneg |]; assumption. }
    assert (N1 : (num <= of_int 255 ⊗ A ⊕ of_int 255 ⊗ D ⊗ (1 ⊖ A))%Q).
    { apply fadd_mono.
      - apply fmul_mono; try lra.
      - apply fmul_mono; try lra.
        + apply fmul_nonneg; assumption.
        + apply fmul_mono; try lra. }
    split.
    + apply rne_nonneg, RN_nonneg.
      apply Qle_shift_div_l; [exact OP | lra].
    + change 255 with (rne (255 + (1 # 4))).
      apply rne_mono.
      eapply Qle_trans; [| apply (quotient_upper A D); try split; assumption].
      apply RN_mono. apply Qmult_le_compat_r; [exact N1 |].
      apply Qlt_le_weak, Qinv_lt_0_compat, OP.
Qed.

(** The output alpha [round(out_a * 255)] is a byte value. *)
Lemma out_alpha_byte (A D : Q) :
  (RN (1 # 255) <= A /\ A <= 1)%Q -> (0 <= D /\ D <= 1)%Q -> is_float A ->
  0 <= rne (out_alpha A D ⊗ f255) <= 255.
Proof.
  intros HA HD FA.
  pose proof (out_alpha_pos A D HA HD FA) as OP.
  pose proof (out_alpha_upper A D HA HD) as OU.
  split.
  - apply rne_nonneg, RN_nonneg. unfold f255. lra.
  - apply Z.le_trans with (rne (255 # 1)); [| discriminate].
    apply rne_mono.
    apply RN_le_const; [reflexivity |]. unfold f255. lra.
Qed.

(** ** Buffers *)

Lemma length_update (px : list byte) (j : nat) (b : byte) :
  length (update px j b) = length px.
Proof.
  revert j. induction px as [| a t IH]; intros [| j]; cbn; auto.
Qed.

Lemma update_app (pre l : list byte) (j : nat) (b : byte) :
  update (pre ++ l) (length pre + j) b = pre ++ update l j b.
Proof.
  induction pre as [| a t IH]; cbn; [reflexivity | rewrite IH; reflexivity].
Qed.

Lemma nth_update_ne (px : list byte) (j k : nat) (b : byte) :
  j <> k -> nth k (update px j b) x00 = nth k px x00.
Proof.
  revert j k. induction px as [| a t IH]; intros [| j] [| k] H; cbn; auto.
  contradiction.
Qed.

Lemma split_at (px : list byte) (i : nat) :
  (i <= length px)%nat ->
  exists pre post, px = pre ++ post /\ length pre = i.
Proof.
  intros H. exists (firstn i px), (skipn i px). split.
  - symmetry. apply firstn_skipn.
  - apply firstn_length_le, H.
Qed.

Lemma split4 (px : list byte) (i : nat) :
  (i + 4 <= length px)%nat ->
  exists pre a0 a1 a2 a3 post,
    px = pre ++ a0 :: a1 :: a2 :: a3 :: post /\ length pre = i.
Proof.
  intros H. destruct (split_at px i ltac:(lia)) as [pre [post [E L]]].
  subst px. rewrite length_app in H.
  destruct post as [| a0 [| a1 [| a2 [| a3 post]]]]; cbn in H; try lia.
  exists pre, a0, a1, a2, a3, post. split; [reflexivity | exact L].
Qed.

Lemma norm_index_ok (px : list byte) (i : Z) :
  0 <= i < len px -> norm_index px i = Ok (Z.to_nat i).
Proof.
  intros H. unfold norm_index.
  replace (i <? 0) with false by (symmetry; apply Z.ltb_ge; lia).
  replace ((0 <=? i) && (i <? len px)) with true; [reflexivity |].
  symmetry. apply andb_true_iff. lia.
Qed.

Lemma getitem_ok (px : list byte) (i : Z) :
  0 <= i < len px -> getitem px i = Ok (u8 (nth (Z.to_nat i) px x00)).
Proof. intros H. unfold getitem. rewrite norm_index_ok by exact H. reflexivity. Qed.

Lemma setitem_ok (px : list byte) (i v : Z) :
  0 <= i < len px -> 0 <= v <= 255 ->
  exists b, setitem px i v = Ok (update px (Z.to_nat i) b) /\ u8 b = v.
Proof.
  intros H Hv. unfold setitem. rewrite norm_index_ok by exact H.
  destruct (to_byte_ok v ltac:(lia)) as [b [E1 E2]].
  exists b. cbn [bind]. rewrite E1. split; [reflexivity | exact E2].
Qed.

Lemma clamp_index_ok (px : list byte) (i : Z) :
  0 <= i <= len px -> clamp_index px i = Z.to_nat i.
Proof.
  intros H. unfold clamp_index.
  replace (i <? 0) with false by (symmetry; apply Z.ltb_ge; lia).
  f_equal. lia.
Qed.

Lemma len_update (px : list byte) (j : nat) (b : byte) :
  len (update px j b) = len px.
Proof. unfold len. rewrite length_update. reflexivity. Qed.

(** Overwriting the four bytes of one pixel. *)
Lemma setslice_pixel (pre post : list byte) (a0 a1 a2 a3 : byte) (bs : list byte) :
  setslice (pre ++ a0 :: a1 :: a2 :: a3 :: post) (len pre) (len pre + 4) bs
  = pre ++ bs ++ post.
Proof.
  unfold setslice.
  rewrite !clamp_index_ok by (rewrite len_app; unfold len; cbn [length]; lia).
  replace (Z.to_nat (len pre)) with (length pre) by (unfold len; lia).
  replace (Z.to_nat (len pre + 4)) with (length pre + 4)%nat by (unfold len; lia).
  rewrite Nat.max_r by lia.
  rewrite firstn_app, firstn_all, Nat.sub_diag. cbn [firstn].
  rewrite app_nil_r.
  rewrite skipn_app, skipn_all2 by lia.
  replace (length pre + 4 - length pre)%nat with 4%nat by lia.
  reflexivity.
Qed.

Lemma update4 (pre post : list byte) (a0 a1 a2 a3 b0 b1 b2 b3 : byte) :
  let px := pre ++ a0 :: a1 :: a2 :: a3 :: post in
  let n := length pre in
  update (update (update (update px n b0) (n + 1) b1) (n + 2) b2) (n + 3) b3
  = pre ++ [b0; b1; b2; b3] ++ post.
Proof.
  intros px n. subst px n.
  rewrite <- (Nat.add_0_r (length pre)) at 1.
  rewrite !update_app. reflexivity.
Qed.

(** ** The compositor *)

Definition pixel_index (w x y : Z) : Z := (y * w + x) * 4.

(** The colour stored at byte offset [i] of the buffer. *)
Definition pixel_at (px : list byte) (i : Z) : color :=
  let n := Z.to_nat i in
  (u8 (nth n px x00), u8 (nth (n + 1) px x00),
   u8 (nth (n + 2) px x00), u8 (nth (n + 3) px x00)).

(** The contract in the words of the specification, its arithmetic read as
    float arithmetic: [sa = srcColor.a/255], [da = destColor.a/255],
    [oa = sa + da*(1-sa)], alpha [round(oa*255)] and each channel
    [round((srcChannel*sa + destChannel*da*(1-sa)) / oa)]. *)
Definition source_over_alpha (sa da : Z) : Z :=
  let sa' := RN (of_int sa / f255) in
  let da' := RN (of_int da / f255) in
  let oa := sa' ⊕ da' ⊗ (1 ⊖ sa') in
  rne (oa ⊗ f255).

Definition source_over_channel (sc dc sa da : Z) : Z :=
  let sa' := RN (of_int sa / f255) in
  let da' := RN (of_int da / f255) in
  let oa := sa' ⊕ da' ⊗ (1 ⊖ sa') in
  rne (RN ((of_int sc ⊗ sa' ⊕ of_int dc ⊗ da' ⊗ (1 ⊖ sa')) / oa)).

Definition source_over (src dst : color) : color :=
  let '(sr, sg, sb, sa) := src in
  let '(dr, dg, db, da) := dst in
  (source_over_channel sr dr sa da, source_over_channel sg dg sa da,
   source_over_channel sb db sa da, source_over_alpha sa da).

Definition color8 (c : color) : Prop :=
  let '(r, g, b, a) := c in
  0 <= r <= 255 /\ 0 <= g <= 255 /\ 0 <= b <= 255 /\ 0 <= a <= 255.

Lemma unit_of_facts (sa : Z) :
  1 <= sa <= 255 ->
  (RN (1 # 255) <= unit_of sa /\ unit_of sa <= 1)%Q /\ is_float (unit_of sa).
Proof.
  intros H. split; [split |].
  - apply unit_of_pos, H.
  - apply unit_of_range. lia.
  - apply RN_is_float.
Qed.

Lemma nth_app_plus (pre l : list byte) (k : nat) :
  nth (length pre + k) (pre ++ l) x00 = nth k l x00.
Proof. apply app_nth2_plus. Qed.

Lemma in_bounds_index (w h x y : Z) :
  0 <= x < w -> 0 <= y < h ->
  0 <= pixel_index w x y /\ pixel_index w x y + 4 <= w * h * 4.
Proof. intros Hx Hy. unfold pixel_index. nia. Qed.

Lemma guard_in (w h x y : Z) :
  0 <= x < w -> 0 <= y < h ->
  (x <? 0) || (y <? 0) || (x >=? w) || (y >=? h) = false.
Proof.
  intros Hx Hy. rewrite !orb_false_iff.
  repeat split; try apply Z.ltb_ge; try (apply Z.geb_leb, Z.leb_gt); lia.
Qed.

Lemma guard_out (w h x y : Z) :
  ~ (0 <= x < w /\ 0 <= y < h) ->
  (x <? 0) || (y <? 0) || (x >=? w) || (y >=? h) = true.
Proof.
  intros H. rewrite !orb_true_iff.
  destruct (Z.ltb_spec x 0); [tauto |]. destruct (Z.ltb_spec y 0); [tauto |].
  destruct (Z.geb_spec x w); [tauto |]. destruct (Z.geb_spec y h); [tauto |].
  lia.
Qed.

Lemma blend_pixel (pre post : list byte) (a0 a1 a2 a3 : byte)
  (w h x y sr sg sb sa : Z) :
  pixel_index w x y = len pre ->
  0 <= x < w -> 0 <= y < h ->
  0 <= sr <= 255 -> 0 <= sg <= 255 -> 0 <= sb <= 255 -> 1 <= sa <= 255 ->
  exists b0 b1 b2 b3,
    blend (pre ++ a0 :: a1 :: a2 :: a3 :: post) w h x y (sr, sg, sb, sa)
    = Ok (pre ++ [b0; b1; b2; b3] ++ post)
    /\ (u8 b0, u8 b1, u8 b2, u8 b3)
       = source_over (sr, sg, sb, sa) (u8 a0, u8 a1, u8 a2, u8 a3).
Proof.
  intros Hi Hx Hy Hr Hg Hb Ha.
  set (px := pre ++ a0 :: a1 :: a2 :: a3 :: post).
  assert (Hlen : len px = len pre + 4 + len post).
  { unfold px, len. rewrite length_app. cbn [length]. lia. }
  pose proof (len_nonneg pre) as Lp. pose proof (len_nonneg post) as Lq.
  assert (N0 : Z.to_nat (len pre) = (length pre + 0)%nat) by (unfold len; lia).
  assert (N1 : Z.to_nat (len pre + 1) = (length pre + 1)%nat) by (unfold len; lia).
  assert (N2 : Z.to_nat (len pre + 2) = (length pre + 2)%nat) by (unfold len; lia).
  assert (N3 : Z.to_nat (len pre + 3) = (length pre + 3)%nat) by (unfold len; lia).
  assert (G0 : nth (length pre + 0) px x00 = a0)
    by (unfold px; rewrite nth_app_plus; reflexivity).
  assert (G1 : nth (length pre + 1) px x00 = a1)
    by (unfold px; rewrite nth_app_plus; reflexivity).
  assert (G2 : nth (length pre + 2) px x00 = a2)
    by (unfold px; rewrite nth_app_plus; reflexivity).
  assert (G3 : nth (length pre + 3) px x00 = a3)
    by (unfold px; rewrite nth_app_plus; reflexivity).
  destruct (unit_of_facts sa Ha) as [HA FA].
  pose proof (unit_of_range (u8 a3) ltac:(pose proof (u8_range a3); lia)) as HD.
  set (A := unit_of sa) in *. set (D := unit_of (u8 a3)) in *.
  destruct (comp_ok A D sr (u8 a0) HA HD FA Hr ltac:(pose proof (u8_range a0); lia))
    as [v0 [C0 [V0 R0]]].
  destruct (comp_ok A D sg (u8 a1) HA HD FA Hg ltac:(pose proof (u8_range a1); lia))
    as [v1 [C1 [V1 R1]]].
  destruct (comp_ok A D sb (u8 a2) HA HD FA Hb ltac:(pose proof (u8_range a2); lia))
    as [v2 [C2 [V2 R2]]].
  pose proof (out_alpha_byte A D HA HD FA) as R3.
  pose proof (out_alpha_pos A D HA HD FA) as OP.
  destruct (setitem_ok px (len pre) v0 ltac:(lia) R0) as [b0 [S0 U0]].
  set (px1 := update px (Z.to_nat (len pre)) b0) in *.
  destruct (setitem_ok px1 (len pre + 1) v1
              ltac:(unfold px1; rewrite len_update; lia) R1) as [b1 [S1 U1]].
  set (px2 := update px1 (Z.to_nat (len pre + 1)) b1) in *.
  destruct (setitem_ok px2 (len pre + 2) v2
              ltac:(unfold px2, px1; rewrite !len_update; lia) R2) as [b2 [S2 U2]].
  set (px3 := update px2 (Z.to_nat (len pre + 2)) b2) in *.
  destruct (setitem_ok px3 (len pre + 3) (rne (out_alpha A D ⊗ f255))
              ltac:(unfold px3, px2, px1; rewrite !len_update; lia) R3) as [b3 [S3 U3]].
  exists b0, b1, b2, b3. split.
  - unfold blend. rewrite guard_in by assumption.
    replace (sa <=? 0) with false by (symmetry; apply Z.leb_gt; lia).
    fold (pixel_index w x y). rewrite Hi.
    rewrite !getitem_ok by lia. cbn [bind].
    rewrite N0, N1, N2, N3, G0, G1, G2, G3.
    rewrite !alpha_unit_ok. cbn [bind].
    fold A. fold D.
    replace (Qle_bool (out_alpha A D) 0) with false
      by (symmetry; apply Qle_bool_false; exact OP).
    rewrite C0. cbn [bind]. rewrite S0. cbn [bind].
    rewrite C1. cbn [bind]. rewrite S1. cbn [bind].
    rewrite C2. cbn [bind]. rewrite S2. cbn [bind].
    rewrite S3. f_equal.
    unfold px3, px2, px1. rewrite N0, N1, N2, N3, Nat.add_0_r.
    apply update4.
  - unfold source_over, source_over_channel, source_over_alpha.
    fold (unit_of sa). fold (unit_of (u8 a3)). fold A. fold D.
    fold (out_alpha A D).
    rewrite U0, U1, U2, U3, V0, V1, V2. reflexivity.
Qed.

Lemma blend_outside (px : list byte) (w h x y : Z) (c : color) :
  ~ (0 <= x < w /\ 0 <= y < h) -> blend px w h x y c = Ok px.
Proof. intros H. unfold blend. rewrite guard_out by exact H. reflexivity. Qed.

Lemma blend_transparent (px : list byte) (w h x y sr sg sb sa : Z) :
  sa <= 0 -> blend px w h x y (sr, sg, sb, sa) = Ok px.
Proof.
  intros H. unfold blend.
  destruct ((x <? 0) || (y <? 0) || (x >=? w) || (y >=? h)); [reflexivity |].
  replace (sa <=? 0) with true by (symmetry; apply Z.leb_le; exact H).
  reflexivity.
Qed.

(** An in-bounds pixel splits the buffer around its four bytes. *)
Lemma pixel_split (px : list byte) (w h x y : Z) :
  len px = w * h * 4 -> 0 <= x < w -> 0 <= y < h ->
  exists pre a0 a1 a2 a3 post,
    px = pre ++ a0 :: a1 :: a2 :: a3 :: post /\ len pre = pixel_index w x y.
Proof.
  intros L Hx Hy. destruct (in_bounds_index w h x y Hx Hy) as [I0 I1].
  destruct (split4 px (Z.to_nat (pixel_index w x y))) as
    [pre [a0 [a1 [a2 [a3 [post [E P]]]]]]].
  - unfold len in L. lia.
  - exists pre, a0, a1, a2, a3, post. split; [exact E | unfold len; lia].
Qed.

Lemma pixel_at_split (pre post : list byte) (a0 a1 a2 a3 : byte) :
  pixel_at (pre ++ a0 :: a1 :: a2 :: a3 :: post) (len pre)
  = (u8 a0, u8 a1, u8 a2, u8 a3).
Proof.
  unfold pixel_at.
  replace (Z.to_nat (len pre)) with (length pre) by (unfold len; lia).
  rewrite <- (Nat.add_0_r (length pre)) at 1.
  rewrite !nth_app_plus. reflexivity.
Qed.

(** An opaque source replaces the destination. *)
Lemma source_over_opaque (sr sg sb dr dg db da : Z) :
  0 <= sr <= 255 -> 0 <= sg <= 255 -> 0 <= sb <= 255 -> 0 <= da <= 255 ->
  0 <= dr <= 255 -> 0 <= dg <= 255 -> 0 <= db <= 255 ->
  source_over (sr, sg, sb, 255) (dr, dg, db, da) = (sr, sg, sb, 255).
Proof.
  intros Hr Hg Hb Ha Hdr Hdg Hdb.
  assert (E1 : (RN (of_int 255 / f255) == 1)%Q) by reflexivity.
  assert (M0 : forall u : Q, (u ⊗ (1 ⊖ RN (of_int 255 / f255)) == 0)%Q).
  { intros u. unfold fmul, fsub. rewrite E1.
    rewrite (RN_zero (1 - 1)) by reflexivity. rewrite RN_zero by ring. reflexivity. }
  assert (O1 : forall u : Q,
             (RN (of_int 255 / f255) ⊕ u ⊗ (1 ⊖ RN (of_int 255 / f255)) == 1)%Q).
  { intros u. unfold fadd. rewrite M0, E1. reflexivity. }
  assert (Ch : forall sc dc : Z, 0 <= sc <= 255 ->
             source_over_channel sc dc 255 da = sc).
  { intros sc dc Hsc. unfold source_over_channel. cbv zeta.
    rewrite <- (rne_inject_Z sc) at 2. apply rne_wd.
    rewrite O1. unfold fadd at 1. rewrite M0.
    unfold fmul. rewrite E1.
    assert (Esc := of_int_u8 sc Hsc).
    assert (F : (RN (of_int sc * 1) == inject_Z sc)%Q).
    { rewrite Qmult_1_r. unfold of_int. rewrite RN_idem. exact Esc. }
    rewrite F, Qplus_0_r. rewrite <- Esc at 1. unfold of_int at 1. rewrite RN_idem.
    fold (of_int sc). rewrite Esc.
    setoid_replace (inject_Z sc / 1)%Q with (inject_Z sc) by field.
    apply RN_inject_Z. change (2 ^ 53) with 9007199254740992. lia. }
  unfold source_over. rewrite !Ch by assumption.
  f_equal. unfold source_over_alpha. cbv zeta.
  transitivity (rne (inject_Z 255)); [| reflexivity].
  apply rne_wd. rewrite O1. reflexivity.
Qed.

Lemma nth_replace4 (pre post bs : list byte) (a0 a1 a2 a3 : byte) (k : nat) :
  length bs = 4%nat ->
  (k < length pre \/ length pre + 4 <= k)%nat ->
  nth k (pre ++ bs ++ post) x00 = nth k (pre ++ a0 :: a1 :: a2 :: a3 :: post) x00.
Proof.
  intros Lb [H | H].
  - rewrite !app_nth1 by exact H. reflexivity.
  - rewrite (app_nth2 pre (bs ++ post)) by lia.
    rewrite (app_nth2 pre (a0 :: a1 :: a2 :: a3 :: post)) by lia.
    rewrite (app_nth2 bs post) by lia. rewrite Lb.
    replace (k - length pre)%nat with (4 + (k - length pre - 4))%nat at 2 by lia.
    reflexivity.
Qed.

Lemma pixel_index_inj (w x y x' y' : Z) :
  0 <= x < w -> 0 <= x' < w ->
  (x, y) <> (x', y') ->
  pixel_index w x' y' + 4 <= pixel_index w x y
  \/ pixel_index w x y + 4 <= pixel_index w x' y'.
Proof.
  intros Hx Hx' Hne. unfold pixel_index.
  destruct (Z.lt_trichotomy y y') as [L | [E | G]].
  - right. nia.
  - subst y'. assert (x <> x') by congruence. lia.
  - left. nia.
Qed.

Lemma pixel_at_same (px px' : list byte) (i : Z) :
  0 <= i ->
  (forall k : nat, (Z.to_nat i <= k < Z.to_nat i + 4)%nat ->
                   nth k px' x00 = nth k px x00) ->
  pixel_at px' i = pixel_at px i.
Proof.
  intros Hi H. unfold pixel_at. cbv zeta.
  rewrite (H (Z.to_nat i)), (H (Z.to_nat i + 1)%nat),
    (H (Z.to_nat i + 2)%nat), (H (Z.to_nat i + 3)%nat) by lia.
  reflexivity.
Qed.

(** [blend] at an in-bounds pixel with a visible 8-bit source: the pixel
    becomes the source-over composite, every other pixel is untouched. *)
Lemma blend_in_bounds (px : list byte) (w h x y sr sg sb sa : Z) :
  len px = w * h * 4 -> 0 <= x < w -> 0 <= y < h ->
  0 <= sr <= 255 -> 0 <= sg <= 255 -> 0 <= sb <= 255 -> 1 <= sa <= 255 ->
  exists px',
    blend px w h x y (sr, sg, sb, sa) = Ok px'
    /\ pixel_at px' (pixel_index w x y)
       = source_over (sr, sg, sb, sa) (pixel_at px (pixel_index w x y))
    /\ len px' = len px
    /\ (forall x' y', 0 <= x' < w -> 0 <= y' < h -> (x', y') <> (x, y) ->
          pixel_at px' (pixel_index w x' y') = pixel_at px (pixel_index w x' y')).
Proof.
  intros L Hx Hy Hr Hg Hb Ha.
  destruct (pixel_split px w h x y L Hx Hy) as
    [pre [a0 [a1 [a2 [a3 [post [E P]]]]]]].
  destruct (blend_pixel pre post a0 a1 a2 a3 w h x y sr sg sb sa
              (eq_sym P) Hx Hy Hr Hg Hb Ha) as [b0 [b1 [b2 [b3 [B S]]]]].
  exists (pre ++ [b0; b1; b2; b3] ++ post). subst px.
  split; [exact B |]. split; [| split].
  - rewrite <- P.
    rewrite (pixel_at_split pre post a0 a1 a2 a3).
    rewrite <- S. apply (pixel_at_split pre post b0 b1 b2 b3).
  - unfold len. rewrite !length_app. cbn [length]. lia.
  - intros x' y' Hx' Hy' Hne.
    destruct (in_bounds_index w h x' y' Hx' Hy') as [I0 _].
    apply pixel_at_same; [exact I0 |].
    intros k Hk. apply nth_replace4; [reflexivity |].
    destruct (pixel_index_inj w x y x' y' Hx Hx') as [D | D];
      [congruence | |]; unfold len in P; lia.
Qed.

(** [blend] with any coordinates and any 8-bit colour returns normally;
    it keeps the buffer length and every pixel but the addressed one. *)
Lemma blend_total (px : list byte) (w h x y : Z) (c : color) :
  len px = w * h * 4 -> color8 c ->
  exists px',
    blend px w h x y c = Ok px'
    /\ len px' = len px
    /\ (forall x' y', 0 <= x' < w -> 0 <= y' < h -> (x', y') <> (x, y) ->
          pixel_at px' (pixel_index w x' y') = pixel_at px (pixel_index w x' y')).
Proof.
  intros L Hc. destruct c as [[[sr sg] sb] sa]. destruct Hc as [Hr [Hg [Hb Ha]]].
  destruct (Z.le_gt_cases sa 0) as [T | V].
  - exists px. rewrite blend_transparent by exact T. auto.
  - destruct (Z.lt_ge_cases x 0) as [O | Ix];
      [exists px; rewrite blend_outside by lia; auto |].
    destruct (Z.lt_ge_cases x w) as [Ix' | O];
      [| exists px; rewrite blend_outside by lia; auto].
    destruct (Z.lt_ge_cases y 0) as [O | Iy];
      [exists px; rewrite blend_outside by lia; auto |].
    destruct (Z.lt_ge_cases y h) as [Iy' | O];
      [| exists px; rewrite blend_outside by lia; auto].
    destruct (blend_in_bounds px w h x y sr sg sb sa L) as [px' [B [_ [L' F]]]];
      try lia.
    exists px'. auto.
Qed.

(** C2. [blend] at an in-bounds pixel with an 8-bit source colour: a source
    alpha [<= 0] leaves the buffer as it is; otherwise the call returns
    normally, the pixel becomes the Porter-Duff source-over composite
    (alpha [round((sa + da*(1-sa))*255)], channels
    [round((src*sa + dst*da*(1-sa)) / (sa + da*(1-sa)))]), and no other
    pixel changes; for source alpha 255 the pixel becomes the source
    colour. *)
Theorem blend_source_over (px : list byte) (w h x y sr sg sb sa : Z) :
  len px = w * h * 4 -> 0 <= x < w -> 0 <= y < h ->
  0 <= sr <= 255 -> 0 <= sg <= 255 -> 0 <= sb <= 255 -> sa <= 255 ->
  let i := pixel_index w x y in
  let src := (sr, sg, sb, sa) in
  (sa <= 0 -> blend px w h x y src = Ok px)
  /\ (0 < sa ->
      exists px',
        blend px w h x y src = Ok px'
        /\ pixel_at px' i = source_over src (pixel_at px i)
        /\ len px' = len px
        /\ (forall x' y', 0 <= x' < w -> 0 <= y' < h -> (x', y') <> (x, y) ->
              pixel_at px' (pixel_index w x' y')
              = pixel_at px (pixel_index w x' y')))
  /\ (sa = 255 ->
      exists px', blend px w h x y src = Ok px' /\ pixel_at px' i = src).
Proof.
  intros L Hx Hy Hr Hg Hb Ha i src. split; [| split].
  - intros T. apply blend_transparent, T.
  - intros V. apply blend_in_bounds; try assumption. lia.
  - intros E. subst sa.
    destruct (blend_in_bounds px w h x y sr sg sb 255 L) as [px' [B [S _]]];
      try assumption; try lia.
    exists px'. split; [exact B |]. fold i in S. rewrite S.
    unfold pixel_at. cbv zeta.
    apply source_over_opaque; try assumption;
      match goal with |- _ <= u8 ?b <= _ => pose proof (u8_range b); lia end.
Qed.

Lemma blend_source_over_witness :
  exists px',
    blend [x0a; x14; x1e; x28] 1 1 0 0 (200, 100, 50, 128) = Ok px'
    /\ pixel_at px' 0 = source_over (200, 100, 50, 128) (10, 20, 30, 40).
Proof.
  destruct (blend_source_over [x0a; x14; x1e; x28] 1 1 0 0 200 100 50 128)
    as [_ [H _]]; try reflexivity; try lia.
  destruct (H eq_refl) as [px' [B [S _]]].
  exists px'. split; [exact B | exact S].
Defined.

(** The composite is never fully transparent: its alpha is at least 1. *)
Lemma source_over_alpha_pos (sa da : Z) :
  1 <= sa <= 255 -> 0 <= da <= 255 -> 1 <= source_over_alpha sa da.
Proof.
  intros Hsa Hda.
  destruct (unit_of_facts sa Hsa) as [HA FA].
  pose proof (unit_of_range da Hda) as HD.
  pose proof (out_alpha_lower _ _ HA HD FA) as OL.
  unfold source_over_alpha. cbv zeta.
  fold (unit_of sa). fold (unit_of da).
  fold (out_alpha (unit_of sa) (unit_of da)).
  apply Z.le_trans with (rne (RN (1 # 255) ⊗ f255)); [vm_compute; discriminate |].
  apply rne_mono. apply RN_mono.
  apply Qmult_le_compat_r; [| discriminate].
  apply Qle_trans with (unit_of sa); [apply HA | exact OL].
Qed.

(** C9. Whenever [blend] reaches its arithmetic with an 8-bit source alpha
    [sa > 0] (the destination alpha is a byte of the buffer), the output
    alpha [out_a] is at least the float [1/255.0], hence strictly
    positive: the test [out_a <= 0] fails, so the branch that writes
    transparent black is never taken, and the division in [comp] does not
    raise.  Accordingly the pixel [blend] writes has alpha at least 1. *)
Theorem out_alpha_positive (sa : Z) (dst : byte) :
  0 < sa <= 255 ->
  (exists sa_f da_f,
    alpha_unit sa = Ok sa_f /\ alpha_unit (u8 dst) = Ok da_f
    /\ (RN (1 # 255) <= out_alpha sa_f da_f)%Q
    /\ (0 < out_alpha sa_f da_f)%Q
    /\ Qle_bool (out_alpha sa_f da_f) 0 = false
    /\ (forall sc dc : Z,
          comp sa_f da_f (out_alpha sa_f da_f) sc dc
          = Ok (rne (RN ((of_int sc ⊗ sa_f ⊕ of_int dc ⊗ da_f ⊗ (1 ⊖ sa_f))
                         / out_alpha sa_f da_f)))))
  /\ (forall (px : list byte) (w h x y sr sg sb : Z),
        len px = w * h * 4 -> 0 <= x < w -> 0 <= y < h ->
        0 <= sr <= 255 -> 0 <= sg <= 255 -> 0 <= sb <= 255 ->
        exists px' r g b a,
          blend px w h x y (sr, sg, sb, sa) = Ok px'
          /\ pixel_at px' (pixel_index w x y) = (r, g, b, a) /\ 1 <= a).
Proof.
  intros Ha. split.
  - exists (unit_of sa), (unit_of (u8 dst)).
    destruct (unit_of_facts sa ltac:(lia)) as [HA FA].
    pose proof (unit_of_range (u8 dst) ltac:(pose proof (u8_range dst); lia)) as HD.
    pose proof (out_alpha_lower _ _ HA HD FA) as OL.
    pose proof (out_alpha_pos _ _ HA HD FA) as OP.
    split; [reflexivity |]. split; [reflexivity |].
    split; [apply Qle_trans with (unit_of sa); [apply HA | exact OL] |].
    split; [exact OP |].
    split; [apply Qle_bool_false; exact OP |].
    intros sc dc. unfold comp. rewrite fdiv_ok by lra. reflexivity.
  - intros px w h x y sr sg sb L Hx Hy Hr Hg Hb.
    destruct (blend_in_bounds px w h x y sr sg sb sa L Hx Hy Hr Hg Hb ltac:(lia))
      as [px' [B [S _]]].
    unfold pixel_at in S at 2. cbv zeta in S. unfold source_over in S.
    do 5 eexists. split; [exact B |]. split; [exact S |].
    apply source_over_alpha_pos; [lia |].
    match goal with |- _ <= u8 ?b <= _ => pose proof (u8_range b); lia end.
Qed.

Lemma out_alpha_positive_witness :
  exists sa_f da_f,
    alpha_unit 1 = Ok sa_f /\ alpha_unit (u8 x00) = Ok da_f
    /\ Qle_bool (out_alpha sa_f da_f) 0 = false.
Proof.
  destruct (out_alpha_positive 1 x00) as [[a [d [H1 [H2 [_ [_ [H3 _]]]]]]] _].
  - lia.
  - exists a, d. repeat split; assumption.
Defined.

(** ** Coverage functions *)

Definition returns (m : result Q) (v : Q) : Prop :=
  exists a, m = Ok a /\ (a == v)%Q.

Lemma fmul2_pos (f : Q) : is_float f -> (0 < f -> 0 < 2 ⊗ f)%Q.
Proof.
  intros Ff Hf. apply Qlt_le_trans with f; [exact Hf |].
  apply RN_ge_float; [exact Ff | lra].
Qed.

Lemma fmul2_neg (f : Q) : is_float f -> (f < 0 -> 2 ⊗ f < 0)%Q.
Proof.
  intros Ff Hf. apply Qle_lt_trans with f; [| exact Hf].
  apply RN_le_float; [exact Ff | lra].
Qed.

Lemma fmul2_nonzero (f : Q) : is_float f -> (~ f == 0 -> ~ 2 ⊗ f == 0)%Q.
Proof.
  intros Ff Hf. destruct (Q_dec f 0) as [[N | P] | Z]; [| | contradiction].
  - pose proof (fmul2_neg f Ff N). lra.
  - pose proof (fmul2_pos f Ff P). lra.
Qed.

Lemma fsub_le_fadd (r f : Q) : (0 <= f -> r ⊖ f <= r ⊕ f)%Q.
Proof. intros H. apply RN_mono. lra. Qed.

Lemma fadd_le_fsub (r f : Q) : (f <= 0 -> r ⊕ f <= r ⊖ f)%Q.
Proof. intros H. apply RN_mono. lra. Qed.

(** Inside the fade band of the disc the feather is positive. *)
Lemma band_feather_pos (r f d : Q) :
  (r ⊖ f < d -> d <= r ⊕ f -> 0 < f)%Q.
Proof.
  intros H1 H2. destruct (Qlt_le_dec 0 f) as [P | N]; [exact P |].
  pose proof (fadd_le_fsub r f N). lra.
Qed.

Lemma soft_circle_coverage_ok (r f d : Q) :
  is_float f ->
  exists a, soft_circle_coverage r f d = Ok a /\ (0 <= a /\ a <= 1)%Q.
Proof.
  intros Ff. unfold soft_circle_coverage.
  destruct (Qle_bool d (r ⊖ f)) eqn:B1; [exists 1%Q; split; [reflexivity | lra] |].
  destruct (Qle_bool d (r ⊕ f)) eqn:B2; [| exists 0%Q; split; [reflexivity | lra]].
  apply Qle_bool_false in B1. apply Qle_bool_iff in B2.
  pose proof (band_feather_pos r f d B1 B2) as Pf.
  pose proof (fmul2_pos f Ff Pf) as P2.
  rewrite fdiv_ok by lra. cbn [bind].
  eexists. split; [reflexivity | apply clamp01].
Qed.

Lemma div_mono (x y z : Q) : (0 < z -> x <= y -> x / z <= y / z)%Q.
Proof.
  intros Hz H. apply Qmult_le_compat_r; [exact H |].
  apply Qlt_le_weak, Qinv_lt_0_compat, Hz.
Qed.

Lemma soft_circle_coverage_mono (r f d d' : Q) :
  is_float f -> (d <= d')%Q ->
  exists a a',
    soft_circle_coverage r f d = Ok a /\ soft_circle_coverage r f d' = Ok a'
    /\ (a' <= a)%Q.
Proof.
  intros Ff Hd.
  destruct (soft_circle_coverage_ok r f d Ff) as [a [Ea Ra]].
  destruct (soft_circle_coverage_ok r f d' Ff) as [a' [Ea' Ra']].
  exists a, a'. split; [exact Ea |]. split; [exact Ea' |].
  revert Ea Ea'. unfold soft_circle_coverage.
  destruct (Qle_bool d (r ⊖ f)) eqn:B1.
  { intros Ea _. injection Ea as <-. apply Ra'. }
  apply Qle_bool_false in B1.
  replace (Qle_bool d' (r ⊖ f)) with false
    by (symmetry; apply Qle_bool_false; lra).
  destruct (Qle_bool d' (r ⊕ f)) eqn:B2'.
  2: { intros _ Ea'. injection Ea' as <-. apply Ra. }
  apply Qle_bool_iff in B2'.
  replace (Qle_bool d (r ⊕ f)) with true
    by (symmetry; apply Qle_bool_iff; lra).
  pose proof (band_feather_pos r f d' ltac:(lra) B2') as Pf.
  pose proof (fmul2_pos f Ff Pf) as P2.
  rewrite !fdiv_ok by lra. cbn [bind].
  intros Ea Ea'. injection Ea as <-. injection Ea' as <-.
  apply clamp01_mono. apply RN_mono. apply div_mono; [exact P2 |].
  apply RN_mono. lra.
Qed.

Lemma clamp01_zero (q : Q) : (q == 0 -> fmax 0 (fmin 1 q) == 0)%Q.
Proof.
  intros H. destruct (fmax_spec 0 (fmin 1 q)) as [E _].
  destruct (fmin_spec 1 q) as [E' _]. rewrite E, E', H. reflexivity.
Qed.

(** C4 as stated fails for a hard-edged disc: with feather 0 the pixel at
    distance [d = r] satisfies both [d <= r-f] and [d >= r+f]; the code
    gives it coverage 1.0, not 0. *)
Lemma soft_circle_edge_counterexample :
  (10 <= 10 - 0)%Q /\ (10 + 0 <= 10)%Q
  /\ soft_circle_coverage 10 0 10 = Ok 1%Q /\ ~ (1 == 0)%Q.
Proof. repeat split; discriminate. Qed.

(** C4, amended. For binary64 [r], [f >= 0] and [d] of magnitude up to
    2^1000: the coverage of the soft disc is defined (no division by
    zero), lies in [0, 1], is non-increasing in [d], is exactly 1.0 for
    [d <= r-f], is the clamped ramp [(r+f-d)/(2f)] of the code for [d]
    between the rounded [r-f] and [r+f], and is exactly 0 for [d > r+f],
    and also at [d = r+f] when [f > 0]. *)
Theorem soft_circle_coverage_profile (r f d d' : Q) :
  within 1000 r -> within 1000 f -> within 1000 d -> (0 <= f)%Q ->
  (exists a, soft_circle_coverage r f d = Ok a /\ (0 <= a /\ a <= 1)%Q)
  /\ (within 1000 d' -> (d <= d')%Q ->
      exists a a', soft_circle_coverage r f d = Ok a
                   /\ soft_circle_coverage r f d' = Ok a' /\ (a' <= a)%Q)
  /\ ((d <= r - f)%Q -> soft_circle_coverage r f d = Ok 1%Q)
  /\ ((r ⊖ f < d)%Q -> (d <= r ⊕ f)%Q ->
      soft_circle_coverage r f d
      = Ok (fmax 0 (fmin 1 (RN ((r ⊕ f ⊖ d) / (2 ⊗ f))))))
  /\ ((r + f < d)%Q \/ ((0 < f)%Q /\ (d == r + f)%Q) ->
      returns (soft_circle_coverage r f d) 0).
Proof.
  intros [Fr _] [Ff _] [Fd _] Hf.
  split; [apply soft_circle_coverage_ok, Ff |].
  split; [intros _ Hd; apply soft_circle_coverage_mono; assumption |].
  split; [| split].
  - intros H. unfold soft_circle_coverage.
    replace (Qle_bool d (r ⊖ f)) with true; [reflexivity |].
    symmetry. apply Qle_bool_iff. apply RN_ge_float; assumption.
  - intros H1 H2. unfold soft_circle_coverage.
    replace (Qle_bool d (r ⊖ f)) with false by (symmetry; apply Qle_bool_false, H1).
    replace (Qle_bool d (r ⊕ f)) with true by (symmetry; apply Qle_bool_iff, H2).
    pose proof (fmul2_pos f Ff (band_feather_pos r f d H1 H2)) as P2.
    rewrite fdiv_ok by lra. reflexivity.
  - intros H.
    assert (Lo : (r ⊖ f <= r)%Q) by (apply RN_le_float; [exact Fr | lra]).
    assert (Hd : (r + f <= d)%Q) by (destruct H as [H | [_ H]]; lra).
    assert (Up : (r ⊕ f <= d)%Q) by (apply RN_le_float; assumption).
    unfold soft_circle_coverage.
    destruct (Qle_bool d (r ⊖ f)) eqn:B1.
    { apply Qle_bool_iff in B1. exfalso.
      destruct H as [H | [H1 H2]]; lra. }
    destruct (Qle_bool d (r ⊕ f)) eqn:B2;
      [| exists 0%Q; split; reflexivity].
    apply Qle_bool_false in B1. apply Qle_bool_iff in B2.
    pose proof (fmul2_pos f Ff (band_feather_pos r f d B1 B2)) as P2.
    rewrite fdiv_ok by lra. cbn [bind].
    eexists. split; [reflexivity |].
    apply clamp01_zero.
    assert (E : (r ⊕ f == d)%Q) by lra.
    assert (Z : (r ⊕ f ⊖ d == 0)%Q).
    { unfold fsub. rewrite E. apply Qeq_trans with (RN 0); [| reflexivity].
      apply RN_wd. ring. }
    rewrite Z. apply Qeq_trans with (RN 0); [| reflexivity].
    apply RN_wd. field. lra.
Qed.

Lemma soft_circle_coverage_profile_witness :
  soft_circle_coverage 10 (3 # 2) 8 = Ok 1%Q
  /\ returns (soft_circle_coverage 10 (3 # 2) 12) 0.
Proof.
  destruct (soft_circle_coverage_profile 10 (3 # 2) 8 12) as [_ [_ [H _]]];
    try in_range; try discriminate.
  destruct (soft_circle_coverage_profile 10 (3 # 2) 12 12) as [_ [_ [_ [_ H']]]];
    try in_range; try discriminate.
  split.
  - apply H. discriminate.
  - apply H'. left. reflexivity.
Defined.

(** C5 as stated fails where the inner edge is clamped to 0: for r = 1,
    thickness = 10, f = 2 (thickness >= 2f) the pixel at distance d = r
    has coverage 0.75. *)
Lemma ring_centerline_counterexample :
  (2 * 2 <= 10)%Q /\ returns (ring_coverage 1 10 2 1) (3 # 4) /\ ~ (3 # 4 == 1)%Q.
Proof.
  split; [discriminate |]. split; [| discriminate].
  eexists. split; [vm_compute; reflexivity | vm_compute; reflexivity].
Qed.

(** Rounding alone can also lower the centerline coverage, when the
    feather is a few units in the last place of the radius: here the
    interpreter computes 0.9915254237288136. *)
Example ring_centerline_rounding :
  let r := (4503599627370533 # 4503599627370496)%Q in
  let f := (59 # 9007199254740992)%Q in
  let t := (59 # 4503599627370496)%Q in
  is_floatb r = true /\ is_floatb f = true /\ is_floatb t = true
  /\ (2 * f <= t)%Q /\ (f <= r)%Q
  /\ returns (ring_coverage r t f r) (2232716764416729 # 2251799813685248).
Proof.
  cbv zeta.
  split; [vm_compute; reflexivity |]. split; [vm_compute; reflexivity |].
  split; [vm_compute; reflexivity |].
  split; [discriminate |]. split; [discriminate |].
  eexists. split; [vm_compute; reflexivity | vm_compute; reflexivity].
Qed.

(** C5, amended. For binary64 [r], [thickness] and [f] (magnitudes up to
    2^1000, [r] at least 2^-1000) with [0 <= f <= r], so that the clamp of
    the inner edge at 0 does not cut into the band, and with
    [thickness/2 >= f + 2^-50 * (r + thickness/2)], that is [thickness]
    above [2f] by a few units in the last place of the outer radius, the
    coverage at distance [d = r] is exactly 1.0. *)
Theorem ring_centerline_full (r t f : Q) :
  within 1000 r -> within 1000 t -> within 1000 f ->
  (2 ^ (-1000) <= r)%Q -> (0 <= f)%Q -> (f <= r)%Q ->
  (f + 2 ^ (-50) * (r + t / 2) <= t / 2)%Q ->
  ring_coverage r t f r = Ok 1%Q.
Proof.
  intros [Fr _] [Ft _] [Ff _] Hr0 Hf0 Hfr Hm. unfold ring_coverage.
  rewrite fdiv_ok by discriminate. cbn [bind].
  set (h := (t / 2)%Q) in *.
  assert (U : (2 ^ (-53) == 1 # 9007199254740992)%Q) by reflexivity.
  assert (M : (2 ^ (-50) == 1 # 1125899906842624)%Q) by reflexivity.
  rewrite M in Hm.
  assert (P0 : (0 < 2 ^ (-1000))%Q) by apply pow2_pos.
  assert (P1 : (2 ^ (-1022) <= 2 ^ (-1000))%Q) by (apply pow2_le; lia).
  assert (Hh : (0 <= h)%Q) by lra.
  destruct (RN_err_rel h (r + h) Hh ltac:(lra) ltac:(lra)) as [H1 H2].
  rewrite U in H1, H2.
  assert (HF : (f <= RN h)%Q) by (apply RN_ge_float; [exact Ff | lra]).
  assert (Lo : (fmax 0 (r ⊖ RN h) ⊕ f <= r)%Q).
  { apply RN_le_float; [exact Fr |].
    destruct (fmax_spec 0 (r ⊖ RN h)) as [_ [I | I]]; rewrite I; [lra |].
    unfold fsub. destruct (Qlt_le_dec (r - RN h) 0) as [N | P].
    - pose proof (RN_nonpos (r - RN h) ltac:(lra)). lra.
    - destruct (RN_err_rel (r - RN h) (r + h) P ltac:(lra) ltac:(lra)) as [_ E].
      rewrite U in E. lra. }
  assert (Hi : (r <= r ⊕ RN h ⊖ f)%Q).
  { apply RN_ge_float; [exact Fr |]. unfold fadd.
    destruct (RN_err_rel (r + RN h) (2 * (r + h)) ltac:(lra) ltac:(lra)
                ltac:(lra)) as [E _].
    rewrite U in E. lra. }
  replace (Qle_bool (fmax 0 (r ⊖ RN h) ⊕ f) r) with true
    by (symmetry; apply Qle_bool_iff, Lo).
  replace (Qle_bool r (r ⊕ RN h ⊖ f)) with true
    by (symmetry; apply Qle_bool_iff, Hi).
  reflexivity.
Qed.

Lemma ring_centerline_full_witness : ring_coverage 10 4 (3 # 2) 10 = Ok 1%Q.
Proof.
  apply (ring_centerline_full 10 4 (3 # 2));
    first [in_range | vm_compute; discriminate].
Defined.

(** ** Loops *)

Lemma for_each_inv {S : Type} (I : S -> Prop) (l : list Z) (s : S)
  (body : S -> Z -> result S) :
  I s ->
  (forall s i, In i l -> I s -> exists s', body s i = Ok s' /\ I s') ->
  exists s', for_each l s body = Ok s' /\ I s'.
Proof.
  revert s. induction l as [| i l IH]; intros s Hs Hb.
  - exists s. split; [reflexivity | exact Hs].
  - destruct (Hb s i (or_introl eq_refl) Hs) as [s1 [E1 I1]].
    cbn [for_each]. rewrite E1. cbn [bind].
    apply IH; [exact I1 |].
    intros s2 j Hj. apply Hb. right. exact Hj.
Qed.

Lemma in_range (lo hi i : Z) : In i (range lo hi) <-> lo <= i < hi.
Proof.
  unfold range. rewrite in_map_iff. split.
  - intros [k [E Hk]]. apply in_seq in Hk. lia.
  - intros H. exists (Z.to_nat (i - lo)). split; [lia |].
    apply in_seq. lia.
Qed.

Lemma range_empty (lo hi : Z) : hi <= lo -> range lo hi = [].
Proof.
  intros H. unfold range. replace (Z.to_nat (hi - lo)) with 0%nat by lia.
  reflexivity.
Qed.

(** A scan over a box of pixels whose body succeeds on every pixel of the
    box, keeps the buffer length and touches only the pixel it visits. *)
Definition body_ok (w h : Z) (L : Z) (x0 x1 y0 y1 : Z)
  (body : list byte -> Z -> Z -> result (list byte)) : Prop :=
  forall px x y, len px = L -> x0 <= x <= x1 -> y0 <= y <= y1 ->
  exists px',
    body px x y = Ok px' /\ len px' = L
    /\ (forall x' y', 0 <= x' < w -> 0 <= y' < h -> (x', y') <> (x, y) ->
          pixel_at px' (pixel_index w x' y') = pixel_at px (pixel_index w x' y')).

Definition scan_result (w h : Z) (x0 x1 y0 y1 : Z) (px : list byte)
  (m : result (list byte)) : Prop :=
  exists px',
    m = Ok px' /\ len px' = len px
    /\ (forall x y, 0 <= x < w -> 0 <= y < h ->
          ~ (x0 <= x <= x1 /\ y0 <= y <= y1) ->
          pixel_at px' (pixel_index w x y) = pixel_at px (pixel_index w x y)).

Lemma scan_ok (w h x0 x1 y0 y1 : Z) (px : list byte)
  (body : list byte -> Z -> Z -> result (list byte)) :
  body_ok w h (len px) x0 x1 y0 y1 body ->
  scan_result w h x0 x1 y0 y1 px (scan px (x0, x1, y0, y1) body).
Proof.
  intros Hb. unfold scan.
  set (I := fun p : list byte =>
    len p = len px
    /\ (forall x y, 0 <= x < w -> 0 <= y < h ->
          ~ (x0 <= x <= x1 /\ y0 <= y <= y1) ->
          pixel_at p (pixel_index w x y) = pixel_at px (pixel_index w x y))).
  assert (I0 : I px) by (split; [reflexivity | auto]).
  destruct (for_each_inv I (range y0 (y1 + 1)) px
              (fun px y => for_each (range x0 (x1 + 1)) px (fun px x => body px x y))
              I0) as [px' [E [L F]]].
  - intros p y Hy Ip. apply in_range in Hy.
    apply for_each_inv; [exact Ip |].
    intros q x Hx [Lq Fq]. apply in_range in Hx.
    destruct (Hb q x y Lq ltac:(lia) ltac:(lia)) as [q' [Eq [Lq' Fq']]].
    exists q'. split; [exact Eq |]. split; [exact Lq' |].
    intros x' y' Hx' Hy' Hout.
    rewrite Fq' by (try assumption; intros C; injection C as -> ->; apply Hout; lia).
    apply Fq; assumption.
  - exists px'. split; [exact E |]. split; assumption.
Qed.

(** ** Coverage values are defined and lie in the unit interval *)

Definition unit_value (m : result Q) : Prop :=
  exists a, m = Ok a /\ (0 <= a /\ a <= 1)%Q.

Lemma fmin_unit (a b : Q) :
  (0 <= a /\ a <= 1)%Q -> (0 <= b /\ b <= 1)%Q -> (0 <= fmin a b /\ fmin a b <= 1)%Q.
Proof.
  intros Ha Hb. destruct (fmin_spec a b) as [_ [E | E]]; rewrite E; assumption.
Qed.

Lemma feather_zero_edges (x f : Q) : (f == 0 -> x ⊕ f == x ⊖ f)%Q.
Proof. intros H. apply RN_wd. rewrite H. ring. Qed.

Lemma ring_coverage_ok (r t f d : Q) :
  is_float f -> unit_value (ring_coverage r t f d).
Proof.
  intros Ff. unfold ring_coverage, unit_value.
  rewrite fdiv_ok by discriminate. cbn [bind].
  set (outer := r ⊕ RN (t / 2)). set (inner := fmax 0 (r ⊖ RN (t / 2))).
  destruct (Qle_bool (inner ⊕ f) d && Qle_bool d (outer ⊖ f)) eqn:B1;
    [exists 1%Q; split; [reflexivity | lra] |].
  destruct (Qle_bool (inner ⊖ f) d && Qle_bool d (outer ⊕ f)) eqn:B2;
    [| exists 0%Q; split; [reflexivity | lra]].
  assert (Nz : ~ (f == 0)%Q).
  { intros Z. apply andb_true_iff in B2. destruct B2 as [B2a B2b].
    apply Qle_bool_iff in B2a, B2b.
    rewrite <- (feather_zero_edges inner f Z) in B2a.
    rewrite (feather_zero_edges outer f Z) in B2b.
    apply Qle_bool_iff in B2a, B2b. rewrite B2a, B2b in B1. discriminate. }
  pose proof (fmul2_nonzero f Ff Nz) as N2.
  assert (Aout : unit_value
            (if Qle_bool d (outer ⊖ f) then Ok 1%Q
             else q <- fdiv (outer ⊕ f ⊖ d) (2 ⊗ f) ;; Ok (fmax 0 (fmin 1 q)))).
  { destruct (Qle_bool d (outer ⊖ f)); [exists 1%Q; split; [reflexivity | lra] |].
    rewrite fdiv_ok by exact N2. eexists. split; [reflexivity | apply clamp01]. }
  assert (Ain : unit_value
            (if Qle_bool (inner ⊕ f) d then Ok 1%Q
             else q <- fdiv (d ⊖ (inner ⊖ f)) (2 ⊗ f) ;; Ok (fmax 0 (fmin 1 q)))).
  { destruct (Qle_bool (inner ⊕ f) d); [exists 1%Q; split; [reflexivity | lra] |].
    rewrite fdiv_ok by exact N2. eexists. split; [reflexivity | apply clamp01]. }
  destruct Aout as [ao [Eo Ro]]. destruct Ain as [ai [Ei Ri]].
  rewrite Eo. cbn [bind]. rewrite Ei. cbn [bind].
  eexists. split; [reflexivity | apply fmin_unit; assumption].
Qed.

Lemma glow_coverage_ok (width f d : Q) :
  is_float width -> (d <= width ⊕ f)%Q -> unit_value (glow_coverage width f d).
Proof.
  intros Fw Hd. unfold glow_coverage, unit_value.
  destruct (Qle_bool d width) eqn:B1; [exists 1%Q; split; [reflexivity | lra] |].
  apply Qle_bool_false in B1.
  assert (Nz : ~ (f == 0)%Q).
  { intros Z. assert (E : (width ⊕ f == width)%Q).
    { unfold fadd. rewrite Z, Qplus_0_r. exact Fw. }
    lra. }
  rewrite fdiv_ok by exact Nz. eexists. split; [reflexivity | apply clamp01].
Qed.

Lemma fmax_ge_l (a b : Q) : (a <= fmax a b)%Q.
Proof. destruct (fmax_spec a b) as [E _]. rewrite E. apply Q.le_max_l. Qed.

Lemma stroke_coverage_ok (thickness ad : Q) :
  (0 <= ad)%Q -> unit_value (stroke_coverage thickness ad).
Proof.
  intros Had. unfold stroke_coverage, unit_value.
  pose proof (fmax_ge_l 1 thickness) as M1.
  rewrite fdiv_ok by lra. cbn [bind].
  eexists. split; [reflexivity |].
  assert (Q0 : (0 <= RN (ad / fmax 1 thickness))%Q).
  { apply RN_nonneg. apply Qle_shift_div_l; lra. }
  assert (U : (1 ⊖ RN (ad / fmax 1 thickness) <= 1)%Q)
    by (apply RN_le_const; [reflexivity | lra]).
  destruct (fmax_spec 0 (1 ⊖ RN (ad / fmax 1 thickness))) as [E _].
  rewrite E. split; [apply Q.le_max_l | apply Q.max_lub; lra].
Qed.

(** [int(x)] of a nonnegative float is its floor. *)
Lemma trunc_nonneg (q : Q) : (0 <= q)%Q -> trunc q = Qfloor q.
Proof.
  intros H. destruct q as [n d]. unfold trunc, Qfloor. cbn [Qnum Qden].
  apply Z.quot_div_nonneg; [| lia].
  unfold Qle in H. cbn in H. lia.
Qed.

Lemma trunc_range (q : Q) (n : Z) :
  (0 <= q)%Q -> (q <= inject_Z n)%Q -> 0 <= trunc q <= n.
Proof.
  intros H0 Hn. rewrite trunc_nonneg by exact H0. split.
  - rewrite <- (Qfloor_Z 0). apply Qfloor_resp_le. exact H0.
  - rewrite <- (Qfloor_Z n). apply Qfloor_resp_le. exact Hn.
Qed.

(** [int(ca * a)] is a byte value for an 8-bit alpha and a coverage in
    the unit interval. *)
Lemma scale_alpha_range (ca : Z) (a : Q) :
  0 <= ca <= 255 -> (0 <= a /\ a <= 1)%Q -> 0 <= scale_alpha ca a <= 255.
Proof.
  intros Hc [A0 A1]. unfold scale_alpha.
  assert (E := of_int_u8 ca Hc).
  assert (C0 : (0 <= inject_Z ca)%Q)
    by (change 0%Q with (inject_Z 0); rewrite <- Zle_Qle; lia).
  assert (R : 0 <= trunc (of_int ca ⊗ a) <= ca).
  { apply trunc_range.
    - apply fmul_nonneg; [rewrite E |]; assumption.
    - apply RN_le_float.
      + apply is_float_inject_Z. change (2 ^ 53) with 9007199254740992. lia.
      + rewrite E. setoid_replace (inject_Z ca) with (inject_Z ca * 1)%Q at 2 by ring.
        apply Qmult_le_compat_nonneg; split; try assumption; lra. }
  lia.
Qed.

(** ** The rasterisers *)

Definition box_in_canvas (w h : Z) (b : box) : Prop :=
  let '(x0, x1, y0, y1) := b in
  0 <= x0 /\ x1 <= w - 1 /\ 0 <= y0 /\ y1 <= h - 1.

(** What a rasteriser call does to the buffer: it returns normally, keeps
    the length, and changes no pixel outside its clamped bounding box. *)
Definition draws_within (w h : Z) (b : box) (px : list byte)
  (m : result (list byte)) : Prop :=
  let '(x0, x1, y0, y1) := b in scan_result w h x0 x1 y0 y1 px m.

Lemma disc_box_in_canvas (w h : Z) (cx cy ext feather pad : Q) :
  box_in_canvas w h (disc_box w h cx cy ext feather pad).
Proof. unfold box_in_canvas, disc_box. lia. Qed.

Lemma glow_box_in_canvas (w h : Z) (x0 y0 x1 y1 width feather : Q) :
  box_in_canvas w h (glow_box w h x0 y0 x1 y1 width feather).
Proof. unfold box_in_canvas, glow_box. lia. Qed.

Lemma stroke_box_in_canvas (w h : Z) (x y rw rh thickness : Q) :
  box_in_canvas w h (stroke_box w h x y rw rh thickness).
Proof. unfold box_in_canvas, stroke_box. lia. Qed.

(** An empty box leaves the buffer as it is. *)
Lemma scan_empty (px : list byte) (x0 x1 y0 y1 : Z)
  (body : list byte -> Z -> Z -> result (list byte)) :
  x1 < x0 \/ y1 < y0 -> scan px (x0, x1, y0, y1) body = Ok px.
Proof.
  intros [H | H]; unfold scan.
  - rewrite (range_empty x0 (x1 + 1)) by lia.
    induction (range y0 (y1 + 1)) as [| y l IH]; [reflexivity | exact IH].
  - rewrite (range_empty y0 (y1 + 1)) by lia. reflexivity.
Qed.

Lemma shade_ok (px : list byte) (w h x y cr cg cb ca : Z) (a : Q) :
  len px = w * h * 4 -> color8 (cr, cg, cb, ca) -> (0 <= a /\ a <= 1)%Q ->
  exists px',
    blend px w h x y (cr, cg, cb, scale_alpha ca a) = Ok px'
    /\ len px' = w * h * 4
    /\ (forall x' y', 0 <= x' < w -> 0 <= y' < h -> (x', y') <> (x, y) ->
          pixel_at px' (pixel_index w x' y') = pixel_at px (pixel_index w x' y')).
Proof.
  intros L [Hr [Hg [Hb Ha]]] Ra.
  pose proof (scale_alpha_range ca a Ha Ra) as Hs.
  destruct (blend_total px w h x y (cr, cg, cb, scale_alpha ca a) L)
    as [px' [B [L' F]]]; [repeat split; lia |].
  exists px'. split; [exact B |]. split; [lia | exact F].
Qed.

Lemma skip_ok (px : list byte) (w h x y : Z) :
  len px = w * h * 4 ->
  exists px',
    Ok px = Ok px' /\ len px' = w * h * 4
    /\ (forall x' y', 0 <= x' < w -> 0 <= y' < h -> (x', y') <> (x, y) ->
          pixel_at px' (pixel_index w x' y') = pixel_at px (pixel_index w x' y')).
Proof. intros L. exists px. auto. Qed.

Section RasteriserProofs.

Variable hypot : Q -> Q -> Q.
Variables (px : list byte) (w h : Z) (c : color).
Hypothesis Hlen : len px = w * h * 4.
Hypothesis Hc : color8 c.

Lemma draw_soft_circle_ok (cx cy r feather : Q) :
  is_float feather ->
  draws_within w h (disc_box w h cx cy r feather 1) px
    (draw_soft_circle hypot px w h cx cy r c feather).
Proof.
  intros Ff. destruct c as [[[cr cg] cb] ca].
  unfold draw_soft_circle, draws_within, disc_box.
  apply scan_ok. rewrite Hlen. intros p x y L _ _. cbv zeta.
  destruct (soft_circle_coverage_ok r feather
              (hypot (of_int x ⊕ f0_5 ⊖ cx) (of_int y ⊕ f0_5 ⊖ cy)) Ff)
    as [a [E R]].
  rewrite E. cbn [bind].
  destruct (Qltb 0 a); [apply shade_ok; assumption | apply skip_ok, L].
Qed.

Lemma draw_ring_ok (cx cy r thickness feather : Q) :
  is_float feather ->
  draws_within w h (disc_box w h cx cy (r ⊕ RN (thickness / 2)) feather 1) px
    (draw_ring hypot px w h cx cy r thickness c feather).
Proof.
  intros Ff. destruct c as [[[cr cg] cb] ca].
  unfold draw_ring. rewrite fdiv_ok by discriminate. cbn [bind].
  unfold draws_within, disc_box.
  apply scan_ok. rewrite Hlen. intros p x y L _ _. cbv zeta.
  destruct (ring_coverage_ok r thickness feather
              (hypot (of_int x ⊕ f0_5 ⊖ cx) (of_int y ⊕ f0_5 ⊖ cy)) Ff)
    as [a [E R]].
  rewrite E. cbn [bind].
  destruct (Qltb 0 a); [apply shade_ok; assumption | apply skip_ok, L].
Qed.

Lemma vlen2_pos (vx vy : Q) : (0 < vx ⊗ vx ⊕ vy ⊗ vy ⊕ f1e_6)%Q.
Proof.
  assert (S : forall v : Q, (0 <= v ⊗ v)%Q).
  { intros v. apply RN_nonneg.
    destruct (Qlt_le_dec v 0) as [N | P].
    - setoid_replace (v * v)%Q with ((- v) * (- v))%Q by ring.
      apply Qmult_le_0_compat; lra.
    - apply Qmult_le_0_compat; assumption. }
  assert (C : (0 < f1e_6)%Q) by reflexivity.
  apply Qlt_le_trans with f1e_6; [exact C |].
  apply RN_ge_const; [vm_compute; reflexivity |].
  pose proof (fadd_nonneg _ _ (S vx) (S vy)). lra.
Qed.

Lemma draw_diag_glow_ok (x0 y0 x1 y1 width feather : Q) :
  is_float width ->
  draws_within w h (glow_box w h x0 y0 x1 y1 width feather) px
    (draw_diag_glow hypot px w h x0 y0 x1 y1 width c feather).
Proof.
  intros Fw. destruct c as [[[cr cg] cb] ca].
  unfold draw_diag_glow, draws_within, glow_box. cbv zeta.
  apply scan_ok. rewrite Hlen. intros p x y L _ _.
  pose proof (vlen2_pos (x1 ⊖ x0) (y1 ⊖ y0)) as V.
  rewrite fdiv_ok by lra. cbn [bind].
  match goal with
  | |- context [Qle_bool ?d (width ⊕ feather)] =>
      destruct (Qle_bool d (width ⊕ feather)) eqn:B;
      [apply Qle_bool_iff in B;
       destruct (glow_coverage_ok width feather d Fw B) as [a [E R]]
      | apply skip_ok, L]
  end.
  rewrite E. cbn [bind]. apply shade_ok; assumption.
Qed.

Lemma draw_rounded_rect_stroke_ok (x y rw rh radius thickness : Q) :
  draws_within w h (stroke_box w h x y rw rh thickness) px
    (draw_rounded_rect_stroke hypot px w h x y rw rh radius thickness c).
Proof.
  destruct c as [[[cr cg] cb] ca].
  unfold draw_rounded_rect_stroke.
  rewrite !fdiv_ok by discriminate. cbn [bind].
  unfold draws_within, stroke_box. cbv zeta.
  apply scan_ok. rewrite Hlen. intros p pxl py L _ _.
  match goal with
  | |- context [Qle_bool (Qabs ?dist) thickness] =>
      destruct (Qle_bool (Qabs dist) thickness);
      [destruct (stroke_coverage_ok thickness (Qabs dist) (Qabs_nonneg dist))
         as [a [E R]]
      | apply skip_ok, L]
  end.
  rewrite E. cbn [bind]. apply shade_ok; assumption.
Qed.

End RasteriserProofs.

Definition box_empty (b : box) : Prop :=
  let '(x0, x1, y0, y1) := b in x1 < x0 \/ y1 < y0.

Section EmptyBoxes.

Variable hypot : Q -> Q -> Q.
Variables (px : list byte) (w h : Z) (c : color).

Lemma draw_soft_circle_empty (cx cy r feather : Q) :
  box_empty (disc_box w h cx cy r feather 1) ->
  draw_soft_circle hypot px w h cx cy r c feather = Ok px.
Proof.
  intros E. destruct c as [[[cr cg] cb] ca].
  unfold draw_soft_circle, disc_box in *. apply scan_empty, E.
Qed.

Lemma draw_ring_empty (cx cy r thickness feather : Q) :
  box_empty (disc_box w h cx cy (r ⊕ RN (thickness / 2)) feather 1) ->
  draw_ring hypot px w h cx cy r thickness c feather = Ok px.
Proof.
  intros E. destruct c as [[[cr cg] cb] ca].
  unfold draw_ring. rewrite fdiv_ok by discriminate. cbn [bind].
  unfold disc_box in *. apply scan_empty, E.
Qed.

Lemma draw_diag_glow_empty (x0 y0 x1 y1 width feather : Q) :
  box_empty (glow_box w h x0 y0 x1 y1 width feather) ->
  draw_diag_glow hypot px w h x0 y0 x1 y1 width c feather = Ok px.
Proof.
  intros E. destruct c as [[[cr cg] cb] ca].
  unfold draw_diag_glow, glow_box in *. apply scan_empty, E.
Qed.

Lemma draw_rounded_rect_stroke_empty (x y rw rh radius thickness : Q) :
  box_empty (stroke_box w h x y rw rh thickness) ->
  draw_rounded_rect_stroke hypot px w h x y rw rh radius thickness c = Ok px.
Proof.
  intros E. destruct c as [[[cr cg] cb] ca].
  unfold draw_rounded_rect_stroke. rewrite !fdiv_ok by discriminate. cbn [bind].
  unfold stroke_box in *. apply scan_empty, E.
Qed.

End EmptyBoxes.

(** C3. A [blend] call at coordinates outside [0,w) x [0,h) returns
    normally with the buffer unchanged.  Every rasteriser, for an 8-bit
    colour and binary64 geometry of magnitude up to 2^256 (a shape may lie
    partly or wholly outside the canvas), returns normally, keeps the
    buffer length, and changes no pixel outside its bounding box clamped
    to the canvas; when that box is empty (the shape lies outside the
    canvas) the buffer is returned as it is. *)
Theorem out_of_bounds_untouched (hypot : Q -> Q -> Q) (px : list byte)
  (w h : Z) (c : color) :
  len px = w * h * 4 -> color8 c ->
  (forall (q : list byte) (x y : Z) (src : color),
      ~ (0 <= x < w /\ 0 <= y < h) -> blend q w h x y src = Ok q)
  /\ (forall cx cy r feather : Q,
        coord cx -> coord cy -> coord r -> coord feather ->
        let b := disc_box w h cx cy r feather 1 in
        let m := draw_soft_circle hypot px w h cx cy r c feather in
        box_in_canvas w h b /\ draws_within w h b px m
        /\ (box_empty b -> m = Ok px))
  /\ (forall cx cy r thickness feather : Q,
        coord cx -> coord cy -> coord r -> coord thickness -> coord feather ->
        let b := disc_box w h cx cy (r ⊕ RN (thickness / 2)) feather 1 in
        let m := draw_ring hypot px w h cx cy r thickness c feather in
        box_in_canvas w h b /\ draws_within w h b px m
        /\ (box_empty b -> m = Ok px))
  /\ (forall x0 y0 x1 y1 width feather : Q,
        coord x0 -> coord y0 -> coord x1 -> coord y1 ->
        coord width -> coord feather ->
        let b := glow_box w h x0 y0 x1 y1 width feather in
        let m := draw_diag_glow hypot px w h x0 y0 x1 y1 width c feather in
        box_in_canvas w h b /\ draws_within w h b px m
        /\ (box_empty b -> m = Ok px))
  /\ (forall x y rw rh radius thickness : Q,
        coord x -> coord y -> coord rw -> coord rh ->
        coord radius -> coord thickness ->
        let b := stroke_box w h x y rw rh thickness in
        let m := draw_rounded_rect_stroke hypot px w h x y rw rh radius
                   thickness c in
        box_in_canvas w h b /\ draws_within w h b px m
        /\ (box_empty b -> m = Ok px)).
Proof.
  intros L Hc. split; [intros q x y src H; apply blend_outside, H |].
  split; [| split; [| split]].
  - intros cx cy r feather _ _ _ [Ff _] b m.
    split; [apply disc_box_in_canvas |].
    split; [apply draw_soft_circle_ok; assumption | apply draw_soft_circle_empty].
  - intros cx cy r thickness feather _ _ _ _ [Ff _] b m.
    split; [apply disc_box_in_canvas |].
    split; [apply draw_ring_ok; assumption | apply draw_ring_empty].
  - intros x0 y0 x1 y1 width feather _ _ _ _ [Fw _] _ b m.
    split; [apply glow_box_in_canvas |].
    split; [apply draw_diag_glow_ok; assumption | apply draw_diag_glow_empty].
  - intros x y rw rh radius thickness _ _ _ _ _ _ b m.
    split; [apply stroke_box_in_canvas |].
    split; [apply draw_rounded_rect_stroke_ok; assumption
           | apply draw_rounded_rect_stroke_empty].
Qed.

(** [math.hypot] stands for any function here; the witness takes the
    taxicab distance. *)
Definition taxicab (a b : Q) : Q := Qabs a + Qabs b.

Lemma out_of_bounds_untouched_witness :
  blend [x0a; x14; x1e; xff] 1 1 1 0 (255, 0, 0, 255) = Ok [x0a; x14; x1e; xff]
  /\ draw_soft_circle taxicab [x0a; x14; x1e; xff] 1 1 (-20) (-20) 3
       (255, 0, 0, 255) (3 # 2) = Ok [x0a; x14; x1e; xff].
Proof.
  destruct (out_of_bounds_untouched taxicab [x0a; x14; x1e; xff] 1 1
              (255, 0, 0, 255)) as [B [S _]].
  - reflexivity.
  - unfold color8. lia.
  - split.
    + apply B. lia.
    + apply (S (-20) (-20) 3 (3 # 2))%Q; try in_range.
      vm_compute. left. reflexivity.
Defined.

(** ** Canvas construction *)

Lemma set4 (pre post : list byte) (a0 a1 a2 a3 b0 b1 b2 b3 : byte)
  (i v0 v1 v2 v3 : Z) :
  i = len pre ->
  to_byte v0 = Ok b0 -> to_byte v1 = Ok b1 ->
  to_byte v2 = Ok b2 -> to_byte v3 = Ok b3 ->
  (p <- setitem (pre ++ a0 :: a1 :: a2 :: a3 :: post) i v0 ;;
   p <- setitem p (i + 1) v1 ;;
   p <- setitem p (i + 2) v2 ;;
   setitem p (i + 3) v3)
  = Ok (pre ++ [b0; b1; b2; b3] ++ post).
Proof.
  intros -> T0 T1 T2 T3.
  set (px := pre ++ a0 :: a1 :: a2 :: a3 :: post).
  assert (Hlen : len px = len pre + 4 + len post).
  { unfold px, len. rewrite length_app. cbn [length]. lia. }
  pose proof (len_nonneg pre) as Lp. pose proof (len_nonneg post) as Lq.
  unfold setitem.
  rewrite norm_index_ok by lia. cbn [bind]. rewrite T0. cbn [bind].
  rewrite norm_index_ok by (rewrite len_update; lia). cbn [bind].
  rewrite T1. cbn [bind].
  rewrite norm_index_ok by (rewrite !len_update; lia). cbn [bind].
  rewrite T2. cbn [bind].
  rewrite norm_index_ok by (rewrite !len_update; lia). cbn [bind].
  rewrite T3. cbn [bind]. f_equal.
  replace (Z.to_nat (len pre)) with (length pre) by (unfold len; lia).
  replace (Z.to_nat (len pre + 1)) with (length pre + 1)%nat by (unfold len; lia).
  replace (Z.to_nat (len pre + 2)) with (length pre + 2)%nat by (unfold len; lia).
  replace (Z.to_nat (len pre + 3)) with (length pre + 3)%nat by (unfold len; lia).
  apply update4.
Qed.

Lemma fill_loop (b0 b1 b2 b3 : byte) (r g b a : Z) (n : nat) :
  to_byte r = Ok b0 -> to_byte g = Ok b1 ->
  to_byte b = Ok b2 -> to_byte a = Ok b3 ->
  forall (pre : list byte) (base : Z), base = len pre ->
  for_each (map (fun k => base + 4 * Z.of_nat k) (seq 0 n))
    (pre ++ repeat x00 (4 * n))
    (fun px i =>
       px <- setitem px i r ;;
       px <- setitem px (i + 1) g ;;
       px <- setitem px (i + 2) b ;;
       setitem px (i + 3) a)
  = Ok (pre ++ concat (repeat [b0; b1; b2; b3] n)).
Proof.
  intros T0 T1 T2 T3. induction n as [| n IH]; intros pre base Hb.
  - reflexivity.
  - replace (4 * S n)%nat with (4 + 4 * n)%nat by lia.
    cbn [seq map for_each repeat Nat.add concat].
    rewrite (set4 pre (repeat x00 (4 * n)) x00 x00 x00 x00 b0 b1 b2 b3)
      by (assumption || lia).
    cbn [bind].
    rewrite <- seq_shift, map_map.
    replace (pre ++ [b0; b1; b2; b3] ++ repeat x00 (4 * n))
      with ((pre ++ [b0; b1; b2; b3]) ++ repeat x00 (4 * n))
      by (rewrite <- app_assoc; reflexivity).
    rewrite (map_ext (fun k => base + 4 * Z.of_nat (S k))
                     (fun k => (base + 4) + 4 * Z.of_nat k))
      by (intros k; lia).
    rewrite (IH (pre ++ [b0; b1; b2; b3]) (base + 4))
      by (rewrite len_app; unfold len at 2; cbn [length]; lia).
    rewrite <- app_assoc. reflexivity.
Qed.

Lemma bytes4_ok (c : color) :
  color8 c ->
  exists b0 b1 b2 b3,
    bytes4 c = Ok [b0; b1; b2; b3]
    /\ (u8 b0, u8 b1, u8 b2, u8 b3) = c
    /\ to_byte (fst (fst (fst c))) = Ok b0 /\ to_byte (snd (fst (fst c))) = Ok b1
    /\ to_byte (snd (fst c)) = Ok b2 /\ to_byte (snd c) = Ok b3.
Proof.
  destruct c as [[[r g] b] a]. intros [Hr [Hg [Hb Ha]]].
  destruct (to_byte_ok r ltac:(lia)) as [b0 [T0 U0]].
  destruct (to_byte_ok g ltac:(lia)) as [b1 [T1 U1]].
  destruct (to_byte_ok b ltac:(lia)) as [b2 [T2 U2]].
  destruct (to_byte_ok a ltac:(lia)) as [b3 [T3 U3]].
  exists b0, b1, b2, b3. cbn [fst snd]. unfold bytes4.
  rewrite T0, T1, T2, T3. cbn [bind]. rewrite U0, U1, U2, U3. auto 10.
Qed.

Lemma length_concat_repeat4 (bs : list byte) (n : nat) :
  length bs = 4%nat -> length (concat (repeat bs n)) = (4 * n)%nat.
Proof.
  intros H. induction n as [| n IH]; cbn [repeat concat]; [reflexivity |].
  rewrite length_app, IH, H. lia.
Qed.

Lemma bytearray_ok (pf : platform) (n : Z) :
  0 <= n -> n <= maxsize pf -> n <= capacity pf ->
  bytearray pf n = Ok (repeat x00 (Z.to_nat n)).
Proof.
  intros H0 Hm Hc. unfold bytearray.
  replace (n <? - maxsize pf - 1) with false by (symmetry; apply Z.ltb_ge; lia).
  replace (maxsize pf <? n) with false by (symmetry; apply Z.ltb_ge; lia).
  replace (n <? 0) with false by (symmetry; apply Z.ltb_ge; lia).
  replace (capacity pf <? n) with false by (symmetry; apply Z.ltb_ge; lia).
  reflexivity.
Qed.

(** [make_canvas] fills [w*h] pixels with the background colour. *)
Lemma make_canvas_ok (pf : platform) (w h : Z) (bg : color) (bs : list byte) :
  0 <= w * h -> w * h * 4 <= maxsize pf -> w * h * 4 <= capacity pf ->
  bytes4 bg = Ok bs -> color8 bg ->
  make_canvas pf w h bg = Ok (concat (repeat bs (Z.to_nat (w * h)))).
Proof.
  intros Hn Hm Hcap Hbs Hc.
  destruct (bytes4_ok bg Hc) as [b0 [b1 [b2 [b3 [E [_ T]]]]]].
  rewrite E in Hbs. injection Hbs as <-.
  destruct bg as [[[r g] b] a]. cbn [fst snd] in T.
  destruct T as [T0 [T1 [T2 T3]]].
  unfold make_canvas. rewrite bytearray_ok by lia.
  cbn [bind]. unfold range_step.
  set (n := Z.to_nat (w * h)).
  assert (L : len (repeat x00 (Z.to_nat (w * h * 4))) = 4 * Z.of_nat n)
    by (unfold len; rewrite repeat_length; lia).
  rewrite L.
  replace (Z.to_nat ((4 * Z.of_nat n - 0 + 4 - 1) / 4)) with n.
  2: { replace (4 * Z.of_nat n - 0 + 4 - 1) with (3 + Z.of_nat n * 4) by lia.
       rewrite Z.div_add by lia. change (3 / 4) with 0. lia. }
  replace (Z.to_nat (w * h * 4)) with (4 * n)%nat by lia.
  apply (fill_loop b0 b1 b2 b3 r g b a n T0 T1 T2 T3 [] 0). reflexivity.
Qed.

Lemma make_canvas_overflow (pf : platform) (w h : Z) (bg : color) :
  w * h * 4 < - maxsize pf - 1 \/ maxsize pf < w * h * 4 ->
  make_canvas pf w h bg = Raise OverflowError.
Proof.
  intros H. destruct bg as [[[r g] b] a]. unfold make_canvas, bytearray.
  replace ((w * h * 4 <? - maxsize pf - 1) || (maxsize pf <? w * h * 4))
    with true; [reflexivity |].
  symmetry. apply orb_true_iff. destruct H as [H | H];
    [left | right]; apply Z.ltb_lt; exact H.
Qed.

Lemma make_canvas_negative (pf : platform) (w h : Z) (bg : color) :
  - maxsize pf - 1 <= w * h * 4 < 0 ->
  0 <= maxsize pf ->
  make_canvas pf w h bg = Raise ValueError.
Proof.
  intros H Hm. destruct bg as [[[r g] b] a]. unfold make_canvas, bytearray.
  replace (w * h * 4 <? - maxsize pf - 1) with false
    by (symmetry; apply Z.ltb_ge; lia).
  replace (maxsize pf <? w * h * 4) with false
    by (symmetry; apply Z.ltb_ge; lia).
  replace (w * h * 4 <? 0) with true by (symmetry; apply Z.ltb_lt; lia).
  reflexivity.
Qed.

Lemma make_canvas_memory (pf : platform) (w h : Z) (bg : color) :
  0 <= capacity pf -> capacity pf < w * h * 4 <= maxsize pf ->
  make_canvas pf w h bg = Raise MemoryError.
Proof.
  intros Hc H. destruct bg as [[[r g] b] a]. unfold make_canvas, bytearray.
  replace (w * h * 4 <? - maxsize pf - 1) with false
    by (symmetry; apply Z.ltb_ge; lia).
  replace (maxsize pf <? w * h * 4) with false
    by (symmetry; apply Z.ltb_ge; lia).
  replace (w * h * 4 <? 0) with false by (symmetry; apply Z.ltb_ge; lia).
  replace (capacity pf <? w * h * 4) with true by (symmetry; apply Z.ltb_lt; lia).
  reflexivity.
Qed.

Lemma make_canvas_empty (pf : platform) (w h : Z) (bg : color) :
  0 <= capacity pf <= maxsize pf -> w * h * 4 = 0 ->
  make_canvas pf w h bg = Ok [].
Proof.
  intros Hp Z. destruct bg as [[[r g] b] a]. unfold make_canvas.
  rewrite bytearray_ok by lia. rewrite Z. reflexivity.
Qed.

Lemma make_canvas_len (pf : platform) (w h : Z) (bg : color) :
  0 <= w * h * 4 -> w * h * 4 <= maxsize pf -> w * h * 4 <= capacity pf ->
  color8 bg ->
  exists px, make_canvas pf w h bg = Ok px /\ len px = w * h * 4.
Proof.
  intros Hn Hm Hcap Hc. destruct (bytes4_ok bg Hc) as [b0 [b1 [b2 [b3 [E _]]]]].
  eexists. split; [apply (make_canvas_ok pf w h bg _ ltac:(lia) Hm Hcap E Hc) |].
  unfold len. rewrite length_concat_repeat4 by reflexivity. lia.
Qed.

(** Storing a value that is not a byte raises [ValueError]. *)
Lemma setitem_bad (px : list byte) (i v : Z) :
  0 <= i < len px -> ~ 0 <= v <= 255 -> setitem px i v = Raise ValueError.
Proof.
  intros Hi Hv. unfold setitem. rewrite norm_index_ok by exact Hi.
  cbn [bind]. unfold to_byte.
  replace ((0 <=? v) && (v <? 256)) with false; [reflexivity |].
  symmetry. apply andb_false_iff.
  destruct (Z.leb_spec 0 v); [right; apply Z.ltb_ge; lia | left; reflexivity].
Qed.

Lemma write4_bad (px : list byte) (i r g b a : Z) :
  0 <= i -> i + 4 <= len px -> ~ color8 (r, g, b, a) ->
  (p <- setitem px i r ;;
   p <- setitem p (i + 1) g ;;
   p <- setitem p (i + 2) b ;;
   setitem p (i + 3) a) = Raise ValueError.
Proof.
  intros Hi Hl Hc.
  destruct (Z_le_dec 0 r) as [R0 |]; [| rewrite setitem_bad by lia; reflexivity].
  destruct (Z_le_dec r 255) as [R1 |]; [| rewrite setitem_bad by lia; reflexivity].
  destruct (setitem_ok px i r ltac:(lia) ltac:(lia)) as [b0 [S0 _]].
  rewrite S0. cbn [bind].
  set (p1 := update px (Z.to_nat i) b0).
  assert (L1 : len p1 = len px) by apply len_update.
  destruct (Z_le_dec 0 g) as [G0 |]; [| rewrite setitem_bad by lia; reflexivity].
  destruct (Z_le_dec g 255) as [G1 |]; [| rewrite setitem_bad by lia; reflexivity].
  destruct (setitem_ok p1 (i + 1) g ltac:(lia) ltac:(lia)) as [b1 [S1 _]].
  rewrite S1. cbn [bind].
  set (p2 := update p1 (Z.to_nat (i + 1)) b1).
  assert (L2 : len p2 = len px) by (unfold p2; rewrite len_update; exact L1).
  destruct (Z_le_dec 0 b) as [B0 |]; [| rewrite setitem_bad by lia; reflexivity].
  destruct (Z_le_dec b 255) as [B1 |]; [| rewrite setitem_bad by lia; reflexivity].
  destruct (setitem_ok p2 (i + 2) b ltac:(lia) ltac:(lia)) as [b2 [S2 _]].
  rewrite S2. cbn [bind].
  set (p3 := update p2 (Z.to_nat (i + 2)) b2).
  assert (L3 : len p3 = len px) by (unfold p3; rewrite len_update; exact L2).
  apply setitem_bad; [lia |]. intros A. apply Hc. unfold color8. lia.
Qed.

(** On a canvas of at least one pixel a colour component outside 0..255
    stops the fill at the first pixel. *)
Lemma make_canvas_bad_colour (pf : platform) (w h : Z) (bg : color) :
  0 < w * h * 4 -> w * h * 4 <= maxsize pf -> w * h * 4 <= capacity pf ->
  ~ color8 bg -> make_canvas pf w h bg = Raise ValueError.
Proof.
  intros Hn Hm Hcap Hc. destruct bg as [[[r g] b] a]. unfold make_canvas.
  rewrite bytearray_ok by lia. cbn [bind]. unfold range_step.
  assert (L : len (repeat x00 (Z.to_nat (w * h * 4))) = w * h * 4)
    by (unfold len; rewrite repeat_length; lia).
  rewrite L.
  destruct (Z.to_nat ((w * h * 4 - 0 + 4 - 1) / 4)) as [| m] eqn:E.
  { exfalso.
    assert (1 <= (w * h * 4 - 0 + 4 - 1) / 4)
      by (apply Z.div_le_lower_bound; lia).
    lia. }
  cbn [seq map for_each].
  rewrite (write4_bad _ (0 + 4 * Z.of_nat 0) r g b a) by (try rewrite L; lia || exact Hc).
  reflexivity.
Qed.

(** A 64-bit host whose allocator grants 4 GiB. *)
Definition host : platform := {| maxsize := 2 ^ 63 - 1; capacity := 2 ^ 32 |}.

(** C6 as stated fails: the code has no validation of its own.  A zero
    dimension gives an empty buffer, two negative dimensions give a
    non-empty one, and a 2-byte tag gives a 10-byte chunk. *)
Lemma construction_unchecked_counterexample :
  make_canvas host 0 5 (0, 0, 0, 255) = Ok []
  /\ make_canvas host (-1) (-1) (0, 0, 0, 255) = Ok [x00; x00; x00; xff]
  /\ chunk [x41; x42] []
     = Ok ([x00; x00; x00; x00] ++ [x41; x42] ++ be32 (crc32 [x41; x42])).
Proof. repeat split; vm_compute; reflexivity. Qed.

(** C6, amended. Neither constructor validates its input; what they raise
    comes from the operations they are made of.  With [n = w*h*4] the byte
    count, [make_canvas] raises the allocation's [OverflowError] when [n]
    is no index-sized integer, its [ValueError] when [n] is negative, its
    [MemoryError] when the host does not grant [n] bytes, and the
    [ValueError] of a byte store when the canvas has a pixel and a
    component of the colour is outside 0..255; in every other case it
    returns a buffer of [n] bytes, the empty one when a dimension is zero.
    [chunk] accepts a tag of any length: for a payload below 2^32 bytes it
    returns [4 + len tag + len payload + 4] bytes, for a longer one
    [struct.pack] raises [struct.error]. *)
Theorem construction_unvalidated (pf : platform) (w h : Z) (bg : color)
  (tag data : list byte) :
  0 <= capacity pf <= maxsize pf ->
  (w * h * 4 < - maxsize pf - 1 \/ maxsize pf < w * h * 4 ->
     make_canvas pf w h bg = Raise OverflowError)
  /\ (- maxsize pf - 1 <= w * h * 4 < 0 ->
        make_canvas pf w h bg = Raise ValueError)
  /\ (capacity pf < w * h * 4 <= maxsize pf ->
        make_canvas pf w h bg = Raise MemoryError)
  /\ (w * h * 4 = 0 -> make_canvas pf w h bg = Ok [])
  /\ (0 < w * h * 4 <= capacity pf -> ~ color8 bg ->
        make_canvas pf w h bg = Raise ValueError)
  /\ (0 <= w * h * 4 <= capacity pf -> color8 bg ->
        exists px, make_canvas pf w h bg = Ok px /\ len px = w * h * 4)
  /\ (len data < 2 ^ 32 ->
        exists bs, chunk tag data = Ok bs /\ len bs = 4 + len tag + len data + 4)
  /\ (2 ^ 32 <= len data -> chunk tag data = Raise StructError).
Proof.
  intros Hp.
  split; [apply make_canvas_overflow |].
  split; [intros H; apply make_canvas_negative; lia |].
  split; [intros H; apply make_canvas_memory; lia |].
  split; [intros H; apply make_canvas_empty; assumption |].
  split; [intros H Hc; apply make_canvas_bad_colour; (lia || exact Hc) |].
  split; [intros H Hc; apply make_canvas_len; (lia || exact Hc) |].
  split.
  - intros H. eexists. split; [apply chunk_ok, H |].
    rewrite !len_app. change (len (be32 (len data))) with 4.
    change (len (be32 (crc32 (tag ++ data)))) with 4. lia.
  - intros H. unfold chunk, pack_I at 1.
    replace (len data <? 2 ^ 32) with false by (symmetry; apply Z.ltb_ge, H).
    rewrite andb_false_r. reflexivity.
Qed.

(** Closed comparisons of integers. *)
Ltac zdecide := vm_compute; repeat split; first [reflexivity | discriminate].

Lemma construction_unvalidated_witness :
  make_canvas host (2 ^ 31) (2 ^ 31) (0, 0, 0, 255) = Raise OverflowError
  /\ make_canvas host (-1) 1 (0, 0, 0, 255) = Raise ValueError
  /\ make_canvas host (2 ^ 20) (2 ^ 20) (0, 0, 0, 255) = Raise MemoryError
  /\ make_canvas host 1 1 (0, 0, 0, 256) = Raise ValueError
  /\ (exists px, make_canvas host 2 3 (0, 0, 0, 255) = Ok px /\ len px = 2 * 3 * 4)
  /\ (exists bs, chunk [x41; x42] [] = Ok bs /\ len bs = 4 + 2 + 0 + 4).
Proof.
  assert (Hp : 0 <= capacity host <= maxsize host) by zdecide.
  split; [| split; [| split; [| split; [| split]]]].
  - destruct (construction_unvalidated host (2 ^ 31) (2 ^ 31) (0, 0, 0, 255) [] [] Hp)
      as [O _].
    apply O. right. zdecide.
  - destruct (construction_unvalidated host (-1) 1 (0, 0, 0, 255) [] [] Hp)
      as [_ [V _]].
    apply V. zdecide.
  - destruct (construction_unvalidated host (2 ^ 20) (2 ^ 20) (0, 0, 0, 255) [] [] Hp)
      as [_ [_ [M _]]].
    apply M. zdecide.
  - destruct (construction_unvalidated host 1 1 (0, 0, 0, 256) [] [] Hp)
      as [_ [_ [_ [_ [B _]]]]].
    apply B; [zdecide |].
    unfold color8. lia.
  - destruct (construction_unvalidated host 2 3 (0, 0, 0, 255) [] [] Hp)
      as [_ [_ [_ [_ [_ [M _]]]]]].
    apply M; [zdecide | unfold color8; lia].
  - destruct (construction_unvalidated host 1 1 (0, 0, 0, 255) [x41; x42] [] Hp)
      as [_ [_ [_ [_ [_ [_ [C _]]]]]]].
    apply C. reflexivity.
Defined.

(** ** Gradient fill *)

Lemma lerp_at_zero (a b : Z) (t : Q) :
  (t == 0)%Q -> 0 <= a <= 255 -> rne (lerp a b t) = a.
Proof.
  intros Ht Ha. rewrite <- (rne_inject_Z a) at 2. apply rne_wd.
  unfold lerp, fadd, fmul. rewrite Ht, Qmult_0_r.
  rewrite (RN_zero 0) by reflexivity. rewrite Qplus_0_r.
  unfold of_int. rewrite RN_idem. apply (of_int_u8 a Ha).
Qed.

Lemma lerp_range (a b : Z) (t : Q) :
  0 <= a <= 255 -> 0 <= b <= 255 -> (0 <= t /\ t <= 1)%Q ->
  0 <= rne (lerp a b t) <= 255.
Proof.
  intros Ha Hb [T0 T1].
  assert (Fz : forall z : Z, -255 <= z <= 255 -> is_float (inject_Z z))
    by (intros z Hz; apply is_float_inject_Z;
        change (2 ^ 53) with 9007199254740992; lia).
  assert (Ea := of_int_u8 a Ha).
  assert (Ed : (of_int (b - a) == inject_Z b - inject_Z a)%Q).
  { transitivity (inject_Z (b - a)); [exact (Fz (b - a) ltac:(lia)) |].
    unfold Zminus. rewrite inject_Z_plus, inject_Z_opp. ring. }
  assert (Qa : (0 <= inject_Z a /\ inject_Z a <= 255)%Q)
    by (split; [change 0%Q with (inject_Z 0) | change 255%Q with (inject_Z 255)];
        rewrite <- Zle_Qle; lia).
  assert (Qb : (0 <= inject_Z b /\ inject_Z b <= 255)%Q)
    by (split; [change 0%Q with (inject_Z 0) | change 255%Q with (inject_Z 255)];
        rewrite <- Zle_Qle; lia).
  set (lo := Z.min a b). set (hi := Z.max a b).
  assert (Qlo : (inject_Z lo <= inject_Z a /\ inject_Z lo <= inject_Z b)%Q)
    by (split; rewrite <- Zle_Qle; unfold lo; lia).
  assert (Qhi : (inject_Z a <= inject_Z hi /\ inject_Z b <= inject_Z hi)%Q)
    by (split; rewrite <- Zle_Qle; unfold hi; lia).
  assert (P : ((inject_Z b - inject_Z a) * t
               == (inject_Z b - inject_Z a) * t)%Q) by reflexivity.
  assert (Step : (inject_Z lo - inject_Z a <= of_int (b - a) ⊗ t
                  /\ of_int (b - a) ⊗ t <= inject_Z hi - inject_Z a)%Q).
  { assert (Flo : is_float (inject_Z lo - inject_Z a)).
    { apply (is_float_wd (inject_Z (lo - a))); [| apply Fz; unfold lo; lia].
      unfold Zminus. rewrite inject_Z_plus, inject_Z_opp. ring. }
    assert (Fhi : is_float (inject_Z hi - inject_Z a)).
    { apply (is_float_wd (inject_Z (hi - a))); [| apply Fz; unfold hi; lia].
      unfold Zminus. rewrite inject_Z_plus, inject_Z_opp. ring. }
    unfold fmul. rewrite Ed.
    destruct (Z.le_ge_cases a b) as [C | C].
    - assert (D : (0 <= inject_Z b - inject_Z a)%Q)
        by (assert (inject_Z a <= inject_Z b)%Q by (rewrite <- Zle_Qle; lia); lra).
      assert (M : (0 <= (inject_Z b - inject_Z a) * t
                   /\ (inject_Z b - inject_Z a) * t <= (inject_Z b - inject_Z a) * 1)%Q).
      { split; [apply Qmult_le_0_compat; assumption |].
        apply Qmult_le_compat_nonneg; split; lra. }
      split.
      + apply RN_ge_float; [exact Flo | lra].
      + apply RN_le_float; [exact Fhi | lra].
    - assert (D : (0 <= inject_Z a - inject_Z b)%Q)
        by (assert (inject_Z b <= inject_Z a)%Q by (rewrite <- Zle_Qle; lia); lra).
      assert (M : (0 <= (inject_Z a - inject_Z b) * t
                   /\ (inject_Z a - inject_Z b) * t <= (inject_Z a - inject_Z b) * 1)%Q).
      { split; [apply Qmult_le_0_compat; assumption |].
        apply Qmult_le_compat_nonneg; split; lra. }
      assert (N : ((inject_Z b - inject_Z a) * t
                   == - ((inject_Z a - inject_Z b) * t))%Q) by ring.
      split.
      + apply RN_ge_float; [exact Flo | lra].
      + apply RN_le_float; [exact Fhi | lra]. }
  assert (R : (inject_Z lo <= lerp a b t /\ lerp a b t <= inject_Z hi)%Q).
  { unfold lerp, fadd. rewrite Ea. split.
    - apply RN_ge_float; [apply Fz; unfold lo; lia | lra].
    - apply RN_le_float; [apply Fz; unfold hi; lia | lra]. }
  split.
  - apply Z.le_trans with lo; [unfold lo; lia |].
    rewrite <- (rne_inject_Z lo). apply rne_mono, R.
  - apply Z.le_trans with hi; [| unfold hi; lia].
    rewrite <- (rne_inject_Z hi). apply rne_mono, R.
Qed.

Lemma int_truediv_ok (a b : Z) :
  b <> 0 -> int_truediv a b = Ok (RN (inject_Z a / inject_Z b)).
Proof.
  intros H. unfold int_truediv.
  replace (b =? 0) with false by (symmetry; apply Z.eqb_neq, H). reflexivity.
Qed.

Lemma mix_at_zero (c1 c2 : color) (t : Q) :
  (t == 0)%Q -> color8 c1 -> mix c1 c2 t = c1.
Proof.
  destruct c1 as [[[r1 g1] b1] a1]. destruct c2 as [[[r2 g2] b2] a2].
  intros Ht [Hr [Hg [Hb Ha]]]. unfold mix.
  rewrite !lerp_at_zero by assumption. reflexivity.
Qed.

Lemma mix_color8 (c1 c2 : color) (t : Q) :
  color8 c1 -> color8 c2 -> (0 <= t /\ t <= 1)%Q -> color8 (mix c1 c2 t).
Proof.
  destruct c1 as [[[r1 g1] b1] a1]. destruct c2 as [[[r2 g2] b2] a2].
  intros [Hr1 [Hg1 [Hb1 Ha1]]] [Hr2 [Hg2 [Hb2 Ha2]]] Ht.
  unfold mix, color8. repeat split; apply lerp_range; assumption.
Qed.

(** Overwriting an in-bounds pixel keeps the buffer length. *)
Lemma setslice_len (px bs : list byte) (w h x y : Z) :
  len px = w * h * 4 -> 0 <= x < w -> 0 <= y < h -> length bs = 4%nat ->
  len (setslice px (pixel_index w x y) (pixel_index w x y + 4) bs) = w * h * 4.
Proof.
  intros L Hx Hy Lb.
  destruct (pixel_split px w h x y L Hx Hy) as
    [pre [a0 [a1 [a2 [a3 [post [E P]]]]]]].
  subst px. rewrite <- P, setslice_pixel. rewrite <- L.
  unfold len. rewrite !length_app, Lb. cbn [length]. lia.
Qed.



(** C8. On a 1x1 canvas [fill_linear_gradient] returns normally (no
    division by zero: both divisors are [max(1, 0) = 1]) and the buffer
    becomes exactly the four bytes of the top-left colour, whatever it
    held before: the fill overwrites, it does not blend. *)
Theorem gradient_single_pixel (px : list byte) (c_tl c_br : color) :
  len px = 4 -> color8 c_tl -> color8 c_br ->
  exists bs,
    bytes4 c_tl = Ok bs
    /\ fill_linear_gradient px 1 1 c_tl c_br = Ok bs
    /\ pixel_at bs 0 = c_tl.
Proof.
  intros L H1 H2.
  destruct (bytes4_ok c_tl H1) as [b0 [b1 [b2 [b3 [E [U _]]]]]].
  exists [b0; b1; b2; b3]. split; [exact E |]. split; [| exact U].
  destruct px as [| a0 [| a1 [| a2 [| a3 [| a4 rest]]]]];
    try (unfold len in L; cbn [length] in L; lia).
  unfold fill_linear_gradient. change (range 0 1) with [0].
  cbn [for_each]. rewrite !int_truediv_ok by (cbn; lia). cbn [bind].
  rewrite fdiv_ok by discriminate. cbn [bind]. cbv zeta.
  match goal with
  | |- context [mix c_tl c_br ?t] =>
      assert (T : (t == 0)%Q) by (vm_compute; reflexivity);
      rewrite (mix_at_zero c_tl c_br t T H1)
  end.
  rewrite E. reflexivity.
Qed.

Lemma gradient_single_pixel_witness :
  fill_linear_gradient [x01; x02; x03; x04] 1 1 (8, 14, 37, 255)
    (34, 107, 255, 255) = Ok [x08; x0e; x25; xff].
Proof.
  destruct (gradient_single_pixel [x01; x02; x03; x04] (8, 14, 37, 255)
              (34, 107, 255, 255)) as [bs [E [G _]]].
  - reflexivity.
  - unfold color8. lia.
  - unfold color8. lia.
  - injection E as <-. exact G.
Defined.


(** ** Scanline framing *)

Lemma getslice_row (rgba : list byte) (w h y : Z) :
  len rgba = w * h * 4 -> 0 <= w -> 0 <= y < h ->
  len (getslice rgba (y * (w * 4)) ((y + 1) * (w * 4))) = w * 4.
Proof.
  intros L Hw Hy. unfold getslice.
  rewrite !clamp_index_ok by nia.
  unfold len in *. rewrite length_firstn, length_skipn. nia.
Qed.

Lemma fold_rows_len (rgba : list byte) (w h : Z) (rows : list Z) (acc : list byte) :
  len rgba = w * h * 4 -> 0 <= w ->
  (forall y, In y rows -> 0 <= y < h) ->
  len (fold_left
         (fun raw y => raw ++ [x00] ++ getslice rgba (y * (w * 4)) ((y + 1) * (w * 4)))
         rows acc)
  = len acc + len rows * (1 + w * 4).
Proof.
  intros L Hw. revert acc. induction rows as [| y rows IH]; intros acc Hin.
  - cbn [fold_left]. change (len (@nil Z)) with 0. lia.
  - cbn [fold_left]. rewrite IH by (intros z Hz; apply Hin; right; exact Hz).
    rewrite !len_app, (getslice_row rgba w h y L Hw)
      by (apply Hin; left; reflexivity).
    change (len [x00]) with 1. change (len (y :: rows)) with (Z.of_nat (S (length rows))).
    unfold len. lia.
Qed.

(** [filter_scanlines] frames a [w] x [h] canvas in [h * (1 + w*4)] bytes. *)
Lemma filter_scanlines_len (rgba : list byte) (w h : Z) :
  len rgba = w * h * 4 -> 0 <= w -> 0 <= h ->
  len (filter_scanlines w h rgba) = h * (1 + w * 4).
Proof.
  intros L Hw Hh. unfold filter_scanlines.
  rewrite (fold_rows_len rgba w h (range 0 h) [] L Hw)
    by (intros y Hy; apply in_range in Hy; lia).
  change (len (@nil byte)) with 0. unfold len, range.
  rewrite length_map, length_seq. lia.
Qed.


(** ** The container read back *)

Lemma save_png_dims_raise (compress : list byte -> list byte) (w h : Z)
  (rgba : list byte) :
  ~ (0 <= w < 2 ^ 32) \/ ~ (0 <= h < 2 ^ 32) ->
  save_png compress w h rgba = Raise StructError.
Proof.
  intros H. unfold save_png, pack_IHDR, pack_I.
  destruct ((0 <=? w) && (w <? 2 ^ 32)) eqn:Bw; [| reflexivity].
  destruct ((0 <=? h) && (h <? 2 ^ 32)) eqn:Bh; [| reflexivity].
  apply andb_true_iff in Bw, Bh. exfalso.
  destruct Bw as [W1 W2]. destruct Bh as [H1 H2].
  apply Z.leb_le in W1, H1. apply Z.ltb_lt in W2, H2.
  destruct H as [H | H]; apply H; lia.
Qed.

Lemma chunk_too_long (tag data : list byte) :
  2 ^ 32 <= len data -> chunk tag data = Raise StructError.
Proof.
  intros H. unfold chunk, pack_I at 1.
  replace (len data <? 2 ^ 32) with false by (symmetry; apply Z.ltb_ge, H).
  rewrite andb_false_r. reflexivity.
Qed.

Lemma save_png_ok (compress : list byte -> list byte) (w h : Z)
  (rgba : list byte) :
  0 <= w < 2 ^ 32 -> 0 <= h < 2 ^ 32 ->
  len (compress (filter_scanlines w h rgba)) < 2 ^ 32 ->
  save_png compress w h rgba
  = Ok (png_signature
        ++ (be32 13 ++ IHDR ++ (be32 w ++ be32 h ++ [x08; x06; x00; x00; x00])
            ++ be32 (crc32 (IHDR ++ be32 w ++ be32 h ++ [x08; x06; x00; x00; x00])))
        ++ (be32 (len (compress (filter_scanlines w h rgba))) ++ IDAT
            ++ compress (filter_scanlines w h rgba)
            ++ be32 (crc32 (IDAT ++ compress (filter_scanlines w h rgba))))
        ++ (be32 0 ++ IEND ++ [] ++ be32 (crc32 (IEND ++ [])))).
Proof.
  intros Hw Hh Hc. unfold save_png, pack_IHDR.
  rewrite (pack_I_ok w Hw), (pack_I_ok h Hh). cbn [bind].
  rewrite chunk_ok by (rewrite !len_app; reflexivity). cbn [bind].
  rewrite chunk_ok by exact Hc. cbn [bind].
  rewrite chunk_ok by reflexivity. cbn [bind].
  rewrite <- !app_assoc. reflexivity.
Qed.

Lemma save_png_payload_raise (compress : list byte -> list byte) (w h : Z)
  (rgba : list byte) :
  0 <= w < 2 ^ 32 -> 0 <= h < 2 ^ 32 ->
  2 ^ 32 <= len (compress (filter_scanlines w h rgba)) ->
  save_png compress w h rgba = Raise StructError.
Proof.
  intros Hw Hh Hc. unfold save_png, pack_IHDR.
  rewrite (pack_I_ok w Hw), (pack_I_ok h Hh). cbn [bind].
  rewrite chunk_ok by (rewrite !len_app; reflexivity). cbn [bind].
  rewrite (chunk_too_long IDAT _ Hc). reflexivity.
Qed.

Lemma save_png_inv (compress : list byte -> list byte) (w h : Z)
  (rgba png : list byte) :
  save_png compress w h rgba = Ok png ->
  0 <= w < 2 ^ 32 /\ 0 <= h < 2 ^ 32
  /\ len (compress (filter_scanlines w h rgba)) < 2 ^ 32.
Proof.
  intros H.
  destruct (Z_le_dec 0 w) as [W1 |];
    [| rewrite save_png_dims_raise in H by lia; discriminate H].
  destruct (Z_lt_dec w (2 ^ 32)) as [W2 |];
    [| rewrite save_png_dims_raise in H by lia; discriminate H].
  destruct (Z_le_dec 0 h) as [H1 |];
    [| rewrite save_png_dims_raise in H by lia; discriminate H].
  destruct (Z_lt_dec h (2 ^ 32)) as [H2 |];
    [| rewrite save_png_dims_raise in H by lia; discriminate H].
  destruct (Z_lt_dec (len (compress (filter_scanlines w h rgba))) (2 ^ 32))
    as [C |]; [lia |].
  rewrite save_png_payload_raise in H by lia. discriminate H.
Qed.

Lemma Ok_inj {A : Type} (a b : A) : Ok a = Ok b -> a = b.
Proof. intros H. injection H as H. exact H. Qed.

(** A decoder's view of the filtered stream: [rows] rows, each one filter
    byte followed by [stride] bytes of pixels. *)
Fixpoint row_filters (stride rows : nat) (bs : list byte) : list byte :=
  match rows with
  | O => []
  | S n => firstn 1 bs ++ row_filters stride n (skipn (1 + stride) bs)
  end.

Fixpoint unfilter (stride rows : nat) (bs : list byte) : list byte :=
  match rows with
  | O => []
  | S n => firstn stride (skipn 1 bs) ++ unfilter stride n (skipn (1 + stride) bs)
  end.

Lemma fold_left_app_acc {A : Type} (f : A -> list byte) (l : list A) (acc : list byte) :
  fold_left (fun raw y => raw ++ f y) l acc = acc ++ concat (map f l).
Proof.
  revert acc. induction l as [| y l IH]; intros acc; cbn [fold_left map concat].
  - rewrite app_nil_r. reflexivity.
  - rewrite IH, app_assoc. reflexivity.
Qed.

Lemma getslice_row_eq (rgba : list byte) (w h : Z) (k : nat) :
  len rgba = w * h * 4 -> 0 <= w -> (Z.of_nat k < h) ->
  getslice rgba (Z.of_nat k * (w * 4)) ((Z.of_nat k + 1) * (w * 4))
  = firstn (Z.to_nat (w * 4)) (skipn (k * Z.to_nat (w * 4)) rgba).
Proof.
  intros L Hw Hk. unfold getslice.
  rewrite !clamp_index_ok by nia. f_equal; [nia | f_equal; nia].
Qed.

Lemma filter_scanlines_rows (rgba : list byte) (w h : Z) :
  len rgba = w * h * 4 -> 0 <= w -> 0 <= h ->
  filter_scanlines w h rgba
  = concat (map (fun k => x00 :: firstn (Z.to_nat (w * 4))
                                   (skipn (k * Z.to_nat (w * 4)) rgba))
                (seq 0 (Z.to_nat h))).
Proof.
  intros L Hw Hh. unfold filter_scanlines. cbv zeta.
  rewrite (fold_left_app_acc
             (fun y => [x00] ++ getslice rgba (y * (w * 4)) ((y + 1) * (w * 4)))).
  cbn [app]. unfold range. rewrite Z.sub_0_r, map_map. f_equal.
  apply map_ext_in. intros k Hk. apply in_seq in Hk.
  cbn [app]. f_equal.
  rewrite Z.add_0_l. apply (getslice_row_eq rgba w h k L Hw). lia.
Qed.

Lemma unfilter_rows (s : nat) (rgba : list byte) (n j : nat) :
  ((j + n) * s <= length rgba)%nat ->
  unfilter s n
    (concat (map (fun k => x00 :: firstn s (skipn (k * s) rgba)) (seq j n)))
  = firstn (n * s) (skipn (j * s) rgba)
  /\ row_filters s n
       (concat (map (fun k => x00 :: firstn s (skipn (k * s) rgba)) (seq j n)))
     = repeat x00 n.
Proof.
  revert j. induction n as [| n IH]; intros j H.
  - split; reflexivity.
  - cbn [seq map concat unfilter row_filters].
    assert (Lr : length (firstn s (skipn (j * s) rgba)) = s).
    { rewrite length_firstn, length_skipn. nia. }
    assert (Sk : forall rest : list byte,
               skipn (1 + s) ((x00 :: firstn s (skipn (j * s) rgba)) ++ rest) = rest).
    { intros rest. cbn [app Nat.add skipn].
      rewrite skipn_app, Lr, Nat.sub_diag, skipn_all2 by lia. reflexivity. }
    rewrite !Sk. destruct (IH (S j) ltac:(nia)) as [IH1 IH2].
    rewrite IH1, IH2. split; [| reflexivity].
    cbn [app skipn]. rewrite firstn_app, Lr, Nat.sub_diag.
    rewrite (firstn_all2 (firstn s (skipn (j * s) rgba))) by lia.
    cbn [firstn]. rewrite app_nil_r.
    replace (S n * s)%nat with (s + n * s)%nat by lia.
    rewrite <- (firstn_skipn s (firstn (s + n * s) (skipn (j * s) rgba))).
    rewrite firstn_firstn, Nat.min_l by lia. f_equal.
    rewrite skipn_firstn_comm, skipn_skipn.
    replace (s + n * s - s)%nat with (n * s)%nat by lia.
    replace (s + j * s)%nat with (S j * s)%nat by lia. reflexivity.
Qed.

Lemma filter_scanlines_round_trip_parts (rgba : list byte) (w h : Z) :
  len rgba = w * h * 4 -> 0 <= w -> 0 <= h ->
  unfilter (Z.to_nat (w * 4)) (Z.to_nat h) (filter_scanlines w h rgba) = rgba
  /\ row_filters (Z.to_nat (w * 4)) (Z.to_nat h) (filter_scanlines w h rgba)
     = repeat x00 (Z.to_nat h).
Proof.
  intros L Hw Hh. rewrite (filter_scanlines_rows rgba w h L Hw Hh).
  assert (Hlen : ((0 + Z.to_nat h) * Z.to_nat (w * 4) <= length rgba)%nat)
    by (unfold len in L; nia).
  destruct (unfilter_rows (Z.to_nat (w * 4)) rgba (Z.to_nat h) 0 Hlen) as [U F].
  split; [| exact F].
  rewrite U. cbn [Nat.mul skipn]. apply firstn_all2. unfold len in L. nia.
Qed.

(** The checksum fits the four bytes it is written in. *)
Lemma lxor_range (n a b : Z) :
  0 <= n -> 0 <= a < 2 ^ n -> 0 <= b < 2 ^ n -> 0 <= Z.lxor a b < 2 ^ n.
Proof.
  intros Hn Ha Hb.
  assert (N : 0 <= Z.lxor a b) by (apply Z.lxor_nonneg; lia).
  split; [exact N |].
  destruct (Z.eq_dec (Z.lxor a b) 0) as [E | NE]; [rewrite E; lia |].
  assert (P : 0 < n).
  { destruct (Z.eq_dec n 0) as [-> | ?]; [| lia].
    exfalso. apply NE. replace a with 0 by lia. replace b with 0 by lia.
    reflexivity. }
  apply Z.log2_lt_pow2; [lia |].
  pose proof (Z.log2_lxor a b ltac:(lia) ltac:(lia)) as L.
  assert (La : Z.log2 a < n).
  { destruct (Z.eq_dec a 0) as [-> | ?]; [cbn; lia | apply Z.log2_lt_pow2; lia]. }
  assert (Lb : Z.log2 b < n).
  { destruct (Z.eq_dec b 0) as [-> | ?]; [cbn; lia | apply Z.log2_lt_pow2; lia]. }
  lia.
Qed.

Lemma crc_step_range (c : Z) : 0 <= c < 2 ^ 32 -> 0 <= crc_step c < 2 ^ 32.
Proof.
  intros H. unfold crc_step.
  assert (S : 0 <= Z.shiftr c 1 < 2 ^ 32).
  { rewrite Z.shiftr_div_pow2 by lia. change (2 ^ 1) with 2.
    split; [apply Z.div_pos; lia | apply Z.div_lt_upper_bound; lia]. }
  destruct (Z.testbit c 0); [| exact S].
  apply lxor_range; [lia | exact S | lia].
Qed.

Lemma crc_byte_range (c : Z) (b : byte) :
  0 <= c < 2 ^ 32 -> 0 <= crc_byte c b < 2 ^ 32.
Proof.
  intros H. unfold crc_byte. cbv zeta.
  do 8 apply crc_step_range.
  apply lxor_range; [lia | exact H | pose proof (u8_range b); lia].
Qed.

Lemma crc32_range (data : list byte) : 0 <= crc32 data < 2 ^ 32.
Proof.
  unfold crc32. apply lxor_range; [lia | | lia].
  assert (G : forall c, 0 <= c < 2 ^ 32 ->
                        0 <= fold_left crc_byte data c < 2 ^ 32).
  { induction data as [| b data IH]; intros c Hc; cbn [fold_left];
      [exact Hc | apply IH, crc_byte_range, Hc]. }
  apply G. lia.
Qed.

Fixpoint bytes_eqb (a b : list byte) : bool :=
  match a, b with
  | [], [] => true
  | x :: a', y :: b' => Byte.eqb x y && bytes_eqb a' b'
  | _, _ => false
  end.

Lemma bytes_eqb_refl (a : list byte) : bytes_eqb a a = true.
Proof.
  induction a as [| x a IH]; cbn [bytes_eqb]; [reflexivity |].
  rewrite IH, (Byte.byte_dec_lb (eq_refl x)). reflexivity.
Qed.

(** A reader of one chunk: the length field, the tag, that many payload
    bytes and a checksum, which must be the CRC-32 of tag and payload. *)
Definition read_chunk (bs : list byte)
  : option (list byte * list byte * list byte) :=
  let n := Z.to_nat (read_be32 bs) in
  let tag := firstn 4 (skipn 4 bs) in
  let data := firstn n (skipn 8 bs) in
  let crc := read_be32 (skipn (8 + n) bs) in
  if (12 + n <=? length bs)%nat && (crc =? crc32 (tag ++ data)) then
    Some (tag, data, skipn (12 + n) bs)
  else None.

Fixpoint read_chunks (fuel : nat) (bs : list byte)
  : option (list (list byte * list byte)) :=
  match bs with
  | [] => Some []
  | _ :: _ =>
      match fuel with
      | O => None
      | S fuel' =>
          match read_chunk bs with
          | Some (tag, data, rest) =>
              option_map (cons (tag, data)) (read_chunks fuel' rest)
          | None => None
          end
      end
  end.

(** A reader of the whole file, for the one layout [save_png] writes:
    signature, header, one data chunk, end marker.  It checks every
    checksum, the header's fixed fields and every row's filter byte. *)
Definition decode_png (decompress : list byte -> list byte) (png : list byte)
  : option (Z * Z * list byte) :=
  if bytes_eqb (firstn 8 png) png_signature then
    match read_chunks (length png) (skipn 8 png) with
    | Some [(t1, hdr); (t2, dat); (t3, e)] =>
        let w := read_be32 hdr in
        let h := read_be32 (skipn 4 hdr) in
        let raw := decompress dat in
        let stride := Z.to_nat (w * 4) in
        if bytes_eqb t1 IHDR && bytes_eqb t2 IDAT && bytes_eqb t3 IEND
           && bytes_eqb (skipn 8 hdr) [x08; x06; x00; x00; x00]
           && bytes_eqb e []
           && (len raw =? h * (1 + w * 4))
           && bytes_eqb (row_filters stride (Z.to_nat h) raw)
                        (repeat x00 (Z.to_nat h))
        then Some (w, h, unfilter stride (Z.to_nat h) raw)
        else None
    | _ => None
    end
  else None.

Lemma read_chunk_chunk (tag data rest : list byte) :
  length tag = 4%nat -> len data < 2 ^ 32 ->
  read_chunk (be32 (len data) ++ tag ++ data ++ be32 (crc32 (tag ++ data)) ++ rest)
  = Some (tag, data, rest).
Proof.
  intros Ht Hd. unfold read_chunk. cbv zeta.
  rewrite read_be32_be32 by (pose proof (len_nonneg data); lia).
  assert (N : Z.to_nat (len data) = length data)
    by (unfold len; apply Nat2Z.id).
  rewrite !N.
  assert (E4 : forall l : list byte, skipn 4 (be32 (len data) ++ l) = l)
    by (intros l; reflexivity).
  assert (E8 : forall l : list byte, skipn 8 (be32 (len data) ++ tag ++ l) = l).
  { intros l. change 8%nat with (4 + 4)%nat.
    rewrite <- skipn_skipn, E4, skipn_app, Ht, Nat.sub_diag, skipn_all2 by lia.
    reflexivity. }
  assert (En : forall l : list byte,
             skipn (8 + length data) (be32 (len data) ++ tag ++ data ++ l) = l).
  { intros l. rewrite Nat.add_comm, <- skipn_skipn, E8.
    rewrite skipn_app, Nat.sub_diag, skipn_all2 by lia. reflexivity. }
  rewrite E4, E8, En.
  rewrite firstn_app, Ht, Nat.sub_diag, firstn_all2 by lia.
  cbn [firstn]. rewrite app_nil_r.
  rewrite firstn_app, Nat.sub_diag, firstn_all2 by lia.
  cbn [firstn]. rewrite app_nil_r.
  rewrite read_be32_be32 by apply crc32_range.
  rewrite Z.eqb_refl, andb_true_r.
  replace (12 + length data <=?
           length (be32 (len data) ++ tag ++ data
                   ++ be32 (crc32 (tag ++ data)) ++ rest))%nat with true
    by (symmetry; apply Nat.leb_le; rewrite !length_app, Ht, !length_be32; lia).
  f_equal. f_equal.
  replace (12 + length data)%nat with (4 + (8 + length data))%nat by lia.
  rewrite <- skipn_skipn, En. reflexivity.
Qed.

Lemma read_chunks_cons (fuel : nat) (tag data rest : list byte) :
  length tag = 4%nat -> len data < 2 ^ 32 ->
  read_chunks (S fuel)
    (be32 (len data) ++ tag ++ data ++ be32 (crc32 (tag ++ data)) ++ rest)
  = option_map (cons (tag, data)) (read_chunks fuel rest).
Proof.
  intros Ht Hd.
  destruct (be32 (len data) ++ tag ++ data ++ be32 (crc32 (tag ++ data)) ++ rest)
    as [| b l] eqn:E; [discriminate E |].
  cbn [read_chunks]. rewrite <- E, read_chunk_chunk by assumption.
  reflexivity.
Qed.

Lemma read_three_chunks (f : nat) (header payload : list byte) :
  len header < 2 ^ 32 -> len payload < 2 ^ 32 ->
  read_chunks (S (S (S f)))
    (be32 (len header) ++ IHDR ++ header ++ be32 (crc32 (IHDR ++ header))
     ++ be32 (len payload) ++ IDAT ++ payload ++ be32 (crc32 (IDAT ++ payload))
     ++ be32 (len (@nil byte)) ++ IEND ++ [] ++ be32 (crc32 (IEND ++ [])) ++ [])
  = Some [(IHDR, header); (IDAT, payload); (IEND, [])].
Proof.
  intros Hh Hp.
  rewrite read_chunks_cons by (reflexivity || exact Hh).
  rewrite read_chunks_cons by (reflexivity || exact Hp).
  rewrite read_chunks_cons by reflexivity.
  destruct f; reflexivity.
Qed.

(** C1. For a width and a height that fit the header's 32-bit fields (and
    a compressed pixel stream that fits a chunk's length field),
    [save_png] writes the 8-byte signature 89 50 4E 47 0D 0A 1A 0A
    followed by exactly three chunks: IHDR with payload be32(w), be32(h),
    8, 6, 0, 0, 0; IDAT with payload compress(filter_scanlines(pixels));
    IEND with empty payload.  A reader that walks the chunks by their
    length fields and verifies every checksum finds these three and
    nothing else, and the header chunk parses back to the same width and
    height.  For a canvas, a buffer of [w*h*4] bytes, the scanline stream
    that is compressed has [h] rows of [1 + 4w] bytes, each the filter
    byte 0 followed by the row's pixels: dropping the filter bytes gives
    the pixel buffer again. *)
Theorem save_png_layout (compress : list byte -> list byte) (w h : Z)
  (rgba : list byte) :
  0 <= w < 2 ^ 32 -> 0 <= h < 2 ^ 32 ->
  len (compress (filter_scanlines w h rgba)) < 2 ^ 32 ->
  let raw := filter_scanlines w h rgba in
  let header := be32 w ++ be32 h ++ [x08; x06; x00; x00; x00] in
  let payload := compress raw in
  let png :=
    [x89; x50; x4e; x47; x0d; x0a; x1a; x0a]
    ++ (be32 13 ++ IHDR ++ header ++ be32 (crc32 (IHDR ++ header)))
    ++ (be32 (len payload) ++ IDAT ++ payload ++ be32 (crc32 (IDAT ++ payload)))
    ++ (be32 0 ++ IEND ++ [] ++ be32 (crc32 (IEND ++ []))) in
  save_png compress w h rgba = Ok png
  /\ firstn 8 png = [x89; x50; x4e; x47; x0d; x0a; x1a; x0a]
  /\ read_chunks (length png) (skipn 8 png)
     = Some [(IHDR, header); (IDAT, payload); (IEND, [])]
  /\ parse_header png = (w, h)
  /\ (len rgba = w * h * 4 ->
      len raw = h * (1 + w * 4)
      /\ row_filters (Z.to_nat (w * 4)) (Z.to_nat h) raw = repeat x00 (Z.to_nat h)
      /\ unfilter (Z.to_nat (w * 4)) (Z.to_nat h) raw = rgba).
Proof.
  intros Hw Hh Hc raw header payload png.
  split; [apply (save_png_ok compress w h rgba Hw Hh Hc) |].
  split; [reflexivity |].
  split; [| split].
  - assert (F : exists f, length png = S (S (S f)))
      by (eexists; unfold png; rewrite length_app; reflexivity).
    destruct F as [f F]. rewrite F.
    change (skipn 8 png) with
      ((be32 13 ++ IHDR ++ header ++ be32 (crc32 (IHDR ++ header)))
       ++ (be32 (len payload) ++ IDAT ++ payload
           ++ be32 (crc32 (IDAT ++ payload)))
       ++ (be32 0 ++ IEND ++ [] ++ be32 (crc32 (IEND ++ [])))).
    rewrite <- !app_assoc.
    rewrite <- (app_nil_r (be32 (crc32 (IEND ++ [])))).
    apply (read_three_chunks f header payload); [reflexivity | exact Hc].
  - unfold parse_header. f_equal.
    + change (skipn 16 png) with (header ++ be32 (crc32 (IHDR ++ header)) ++
        (be32 (len payload) ++ IDAT ++ payload ++ be32 (crc32 (IDAT ++ payload)))
        ++ (be32 0 ++ IEND ++ [] ++ be32 (crc32 (IEND ++ [])))).
      subst header. rewrite <- !app_assoc. apply read_be32_be32, Hw.
    + change (skipn 20 png) with (be32 h ++ [x08; x06; x00; x00; x00]
        ++ be32 (crc32 (IHDR ++ header)) ++
        (be32 (len payload) ++ IDAT ++ payload ++ be32 (crc32 (IDAT ++ payload)))
        ++ (be32 0 ++ IEND ++ [] ++ be32 (crc32 (IEND ++ [])))).
      apply read_be32_be32, Hh.
  - intros L.
    destruct (filter_scanlines_round_trip_parts rgba w h L ltac:(lia) ltac:(lia))
      as [U Fz].
    split; [apply filter_scanlines_len; lia |]. split; assumption.
Qed.

Lemma save_png_layout_witness :
  save_png (fun raw => raw) 2 1 [x01; x02; x03; x04; x05; x06; x07; x08]
  = Ok ([x89; x50; x4e; x47; x0d; x0a; x1a; x0a]
        ++ (be32 13 ++ IHDR ++ (be32 2 ++ be32 1 ++ [x08; x06; x00; x00; x00])
            ++ be32 (crc32 (IHDR ++ be32 2 ++ be32 1 ++ [x08; x06; x00; x00; x00])))
        ++ (be32 9 ++ IDAT ++ [x00; x01; x02; x03; x04; x05; x06; x07; x08]
            ++ be32 (crc32 (IDAT ++ [x00; x01; x02; x03; x04; x05; x06; x07; x08])))
        ++ (be32 0 ++ IEND ++ [] ++ be32 (crc32 (IEND ++ [])))).
Proof.
  apply (save_png_layout (fun raw => raw) 2 1
           [x01; x02; x03; x04; x05; x06; x07; x08]).
  - split; [discriminate | reflexivity].
  - split; [discriminate | reflexivity].
  - reflexivity.
Defined.

(** ** Sample values

    Values the interpreter computes, reproduced by the model. *)

Example literal_0_6 : (f0_6 == 5404319552844595 # 9007199254740992)%Q.
Proof. vm_compute. reflexivity. Qed.

Example literal_0_9 : (f0_9 == 8106479329266893 # 9007199254740992)%Q.
Proof. vm_compute. reflexivity. Qed.

Example third : (RN (1 # 3) == 6004799503160661 # 18014398509481984)%Q.
Proof. vm_compute. reflexivity. Qed.

(** (200, 100, 50, 128) over (10, 20, 30, 40) gives (174, 89, 47, 148). *)
Example blend_sample :
  blend [x0a; x14; x1e; x28] 1 1 0 0 (200, 100, 50, 128)
  = Ok [xae; x59; x2f; x94].
Proof. vm_compute. reflexivity. Qed.

(** The test [out_a <= 0] guards inputs outside the 8-bit range: for a
    source alpha of 255 * 2^54 over an opaque pixel, [1 - sa_f] rounds to
    [-sa_f] and [out_a] is 0. *)
Example blend_guard :
  blend [x0a; x14; x1e; xff] 1 1 0 0 (1, 2, 3, 255 * 2 ^ 54)
  = Ok [x00; x00; x00; x00].
Proof. vm_compute. reflexivity. Qed.

(** ** The canvas invariant *)





Lemma source_over_range (sc dc sa da : Z) :
  0 <= sc <= 255 -> 0 <= dc <= 255 -> 1 <= sa <= 255 -> 0 <= da <= 255 ->
  0 <= source_over_channel sc dc sa da <= 255
  /\ 0 <= source_over_alpha sa da <= 255.
Proof.
  intros Hsc Hdc Hsa Hda.
  destruct (unit_of_facts sa Hsa) as [HA FA].
  pose proof (unit_of_range da Hda) as HD.
  split.
  - destruct (comp_ok (unit_of sa) (unit_of da) sc dc HA HD FA Hsc Hdc)
      as [v [_ [V R]]].
    unfold source_over_channel. cbv zeta.
    fold (unit_of sa). fold (unit_of da).
    fold (out_alpha (unit_of sa) (unit_of da)). rewrite <- V. exact R.
  - unfold source_over_alpha. cbv zeta.
    fold (unit_of sa). fold (unit_of da).
    fold (out_alpha (unit_of sa) (unit_of da)).
    apply out_alpha_byte; assumption.
Qed.



(** * Further properties of the encoder *)



(** X2. A chunk reads back: a reader that takes the length field, the tag,
    the payload and verifies the checksum recovers the tag and the payload
    of [chunk tag data] and stops exactly at the end of the chunk. *)
Theorem chunk_round_trip (tag data rest bs : list byte) :
  length tag = 4%nat -> chunk tag data = Ok bs ->
  read_chunk (bs ++ rest) = Some (tag, data, rest).
Proof.
  intros Ht H.
  assert (B : len data < 2 ^ 32).
  { unfold chunk, pack_I in H.
    destruct ((0 <=? len data) && (len data <? 2 ^ 32)) eqn:B; [| discriminate].
    apply andb_true_iff in B. lia. }
  rewrite (chunk_ok tag data B) in H.
  replace bs
    with (be32 (len data) ++ tag ++ data ++ be32 (crc32 (tag ++ data)))
    by congruence.
  rewrite <- !app_assoc. apply read_chunk_chunk; assumption.
Qed.

Lemma chunk_round_trip_witness :
  read_chunk ((be32 0 ++ IEND ++ [] ++ be32 (crc32 (IEND ++ []))) ++ [x01])
  = Some (IEND, [], [x01]).
Proof.
  apply (chunk_round_trip IEND [] [x01]); [reflexivity | vm_compute; reflexivity].
Defined.

(** X3. A file written by [save_png] decodes to what was encoded: for a
    buffer of [w * h * 4] bytes and any decompressor that inverts the
    compressor, checking the signature, walking the chunks with their
    checksums, and dropping the filter bytes gives back the width, the
    height and the pixel buffer. *)
Theorem save_png_round_trip (compress decompress : list byte -> list byte)
  (w h : Z) (rgba png : list byte) :
  (forall raw, decompress (compress raw) = raw) ->
  len rgba = w * h * 4 ->
  save_png compress w h rgba = Ok png ->
  decode_png decompress png = Some (w, h, rgba).
Proof.
  intros Inv L H.
  destruct (save_png_inv compress w h rgba png H) as (Hw & Hh & Hc).
  rewrite (save_png_ok compress w h rgba Hw Hh Hc) in H. apply Ok_inj in H.
  set (payload := compress (filter_scanlines w h rgba)) in *.
  set (header := be32 w ++ be32 h ++ [x08; x06; x00; x00; x00]) in *.
  assert (E : png = png_signature
    ++ be32 (len header) ++ IHDR ++ header ++ be32 (crc32 (IHDR ++ header))
    ++ be32 (len payload) ++ IDAT ++ payload ++ be32 (crc32 (IDAT ++ payload))
    ++ be32 (len (@nil byte)) ++ IEND ++ [] ++ be32 (crc32 (IEND ++ [])) ++ []).
  { rewrite <- H, <- !app_assoc, app_nil_r. reflexivity. }
  clear H.
  unfold decode_png. rewrite E.
  change (firstn 8 (png_signature ++ ?l)) with png_signature.
  rewrite bytes_eqb_refl.
  change (skipn 8 (png_signature ++ ?l)) with l.
  set (c3 := be32 (len (@nil byte)) ++ IEND ++ [] ++ be32 (crc32 (IEND ++ [])) ++ []).
  set (c2 := be32 (len payload) ++ IDAT ++ payload
             ++ be32 (crc32 (IDAT ++ payload)) ++ c3).
  assert (R1 : forall f,
             read_chunks (S (S (S f)))
               (be32 (len header) ++ IHDR ++ header
                ++ be32 (crc32 (IHDR ++ header)) ++ c2)
             = Some [(IHDR, header); (IDAT, payload); (IEND, [])]).
  { intros f. rewrite read_chunks_cons by reflexivity.
    unfold c2. rewrite read_chunks_cons by (reflexivity || exact Hc).
    unfold c3. rewrite read_chunks_cons by reflexivity.
    destruct f; reflexivity. }
  assert (F : exists f, length (png_signature ++ be32 (len header) ++ IHDR
                ++ header ++ be32 (crc32 (IHDR ++ header)) ++ c2)
              = S (S (S f))).
  { eexists. rewrite length_app. reflexivity. }
  destruct F as [f F]. rewrite F, R1.
  rewrite (bytes_eqb_refl IHDR), (bytes_eqb_refl IDAT), (bytes_eqb_refl IEND).
  change (skipn 8 header) with [x08; x06; x00; x00; x00].
  rewrite (bytes_eqb_refl [x08; x06; x00; x00; x00]).
  change (bytes_eqb [] []) with true. cbn [andb].
  replace (read_be32 header) with w
    by (symmetry; apply read_be32_be32, Hw).
  change (skipn 4 header) with (be32 h ++ [x08; x06; x00; x00; x00]).
  rewrite (read_be32_be32 h _ Hh).
  unfold payload. rewrite Inv.
  rewrite (filter_scanlines_len rgba w h) by lia.
  destruct (filter_scanlines_round_trip_parts rgba w h L ltac:(lia) ltac:(lia))
    as [U Fz].
  rewrite Z.eqb_refl, Fz, bytes_eqb_refl, U. reflexivity.
Qed.

Lemma save_png_round_trip_witness :
  decode_png (fun raw => raw)
    (png_signature
     ++ (be32 13 ++ IHDR ++ (be32 1 ++ be32 1 ++ [x08; x06; x00; x00; x00])
         ++ be32 (crc32 (IHDR ++ be32 1 ++ be32 1 ++ [x08; x06; x00; x00; x00])))
     ++ (be32 5 ++ IDAT ++ [x00; x0a; x14; x1e; xff]
         ++ be32 (crc32 (IDAT ++ [x00; x0a; x14; x1e; xff])))
     ++ (be32 0 ++ IEND ++ [] ++ be32 (crc32 (IEND ++ []))))
  = Some (1, 1, [x0a; x14; x1e; xff]).
Proof.
  apply (save_png_round_trip (fun raw => raw) (fun raw => raw) 1 1
           [x0a; x14; x1e; xff]);
    [reflexivity | reflexivity | vm_compute; reflexivity].
Defined.

(** * Further properties of the canvas *)

Lemma nth_concat_repeat4 (b0 b1 b2 b3 : byte) (n k j : nat) :
  (k < n)%nat -> (j < 4)%nat ->
  nth (4 * k + j) (concat (repeat [b0; b1; b2; b3] n)) x00
  = nth j [b0; b1; b2; b3] x00.
Proof.
  revert k. induction n as [| n IH]; intros k Hk Hj; [lia |].
  cbn [repeat concat]. destruct k as [| k].
  - replace (4 * 0 + j)%nat with j by lia.
    apply app_nth1. cbn [length]. lia.
  - replace (4 * S k + j)%nat
      with (length [b0; b1; b2; b3] + (4 * k + j))%nat by (cbn [length]; lia).
    rewrite app_nth2_plus. apply IH; lia.
Qed.

Lemma make_canvas_pixels (pf : platform) (w h : Z) (bg : color) :
  0 <= w -> 0 <= h -> w * h * 4 <= capacity pf <= maxsize pf -> color8 bg ->
  exists px,
    make_canvas pf w h bg = Ok px /\ len px = w * h * 4
    /\ (forall x y, 0 <= x < w -> 0 <= y < h ->
          pixel_at px (pixel_index w x y) = bg).
Proof.
  intros Hw Hh Hp Hc.
  destruct (bytes4_ok bg Hc) as [b0 [b1 [b2 [b3 [E [U _]]]]]].
  exists (concat (repeat [b0; b1; b2; b3] (Z.to_nat (w * h)))).
  split; [apply make_canvas_ok; (nia || lia || assumption) |].
  split; [unfold len; rewrite length_concat_repeat4 by reflexivity; nia |].
  intros x y Hx Hy. rewrite <- U. unfold pixel_at, pixel_index. cbv zeta.
  set (k := Z.to_nat (y * w + x)).
  assert (Hk : (k < Z.to_nat (w * h))%nat) by (unfold k; nia).
  replace (Z.to_nat ((y * w + x) * 4)) with (4 * k + 0)%nat by (unfold k; nia).
  replace (4 * k + 0 + 1)%nat with (4 * k + 1)%nat by lia.
  replace (4 * k + 0 + 2)%nat with (4 * k + 2)%nat by lia.
  replace (4 * k + 0 + 3)%nat with (4 * k + 3)%nat by lia.
  rewrite !nth_concat_repeat4 by lia. reflexivity.
Qed.

(** X4. On a host that can allocate it, [make_canvas] with an 8-bit colour
    returns a buffer of [w*h*4] bytes in which every pixel of the canvas
    holds the background colour. *)
Theorem make_canvas_filled (pf : platform) (w h : Z) (bg : color) :
  0 <= w -> 0 <= h -> w * h * 4 <= capacity pf <= maxsize pf -> color8 bg ->
  exists px,
    make_canvas pf w h bg = Ok px /\ len px = w * h * 4
    /\ (forall x y, 0 <= x < w -> 0 <= y < h ->
          pixel_at px (pixel_index w x y) = bg).
Proof. exact (make_canvas_pixels pf w h bg). Qed.

Lemma make_canvas_filled_witness :
  exists px,
    make_canvas host 2 1 (8, 14, 37, 255) = Ok px
    /\ pixel_at px (pixel_index 2 1 0) = (8, 14, 37, 255).
Proof.
  destruct (make_canvas_filled host 2 1 (8, 14, 37, 255)) as [px [E [_ F]]];
    try lia; try zdecide; try (unfold color8; lia).
  exists px. split; [exact E | apply F; lia].
Defined.

(** * Further properties of the gradient *)

Lemma lerp_between (a b : Z) (t : Q) :
  0 <= a <= 255 -> 0 <= b <= 255 -> (0 <= t /\ t <= 1)%Q ->
  Z.min a b <= rne (lerp a b t) <= Z.max a b.
Proof.
  intros Ha Hb [T0 T1].
  assert (Fz : forall z : Z, -255 <= z <= 255 -> is_float (inject_Z z))
    by (intros z Hz; apply is_float_inject_Z;
        change (2 ^ 53) with 9007199254740992; lia).
  assert (Ea := of_int_u8 a Ha).
  assert (Ed : (of_int (b - a) == inject_Z b - inject_Z a)%Q).
  { transitivity (inject_Z (b - a)); [exact (Fz (b - a) ltac:(lia)) |].
    unfold Zminus. rewrite inject_Z_plus, inject_Z_opp. ring. }
  assert (Qa : (0 <= inject_Z a /\ inject_Z a <= 255)%Q)
    by (split; [change 0%Q with (inject_Z 0) | change 255%Q with (inject_Z 255)];
        rewrite <- Zle_Qle; lia).
  assert (Qb : (0 <= inject_Z b /\ inject_Z b <= 255)%Q)
    by (split; [change 0%Q with (inject_Z 0) | change 255%Q with (inject_Z 255)];
        rewrite <- Zle_Qle; lia).
  set (lo := Z.min a b). set (hi := Z.max a b).
  assert (Qlo : (inject_Z lo <= inject_Z a /\ inject_Z lo <= inject_Z b)%Q)
    by (split; rewrite <- Zle_Qle; unfold lo; lia).
  assert (Qhi : (inject_Z a <= inject_Z hi /\ inject_Z b <= inject_Z hi)%Q)
    by (split; rewrite <- Zle_Qle; unfold hi; lia).
  assert (P : ((inject_Z b - inject_Z a) * t
               == (inject_Z b - inject_Z a) * t)%Q) by reflexivity.
  assert (Step : (inject_Z lo - inject_Z a <= of_int (b - a) ⊗ t
                  /\ of_int (b - a) ⊗ t <= inject_Z hi - inject_Z a)%Q).
  { assert (Flo : is_float (inject_Z lo - inject_Z a)).
    { apply (is_float_wd (inject_Z (lo - a))); [| apply Fz; unfold lo; lia].
      unfold Zminus. rewrite inject_Z_plus, inject_Z_opp. ring. }
    assert (Fhi : is_float (inject_Z hi - inject_Z a)).
    { apply (is_float_wd (inject_Z (hi - a))); [| apply Fz; unfold hi; lia].
      unfold Zminus. rewrite inject_Z_plus, inject_Z_opp. ring. }
    unfold fmul. rewrite Ed.
    destruct (Z.le_ge_cases a b) as [C | C].
    - assert (D : (0 <= inject_Z b - inject_Z a)%Q)
        by (assert (inject_Z a <= inject_Z b)%Q by (rewrite <- Zle_Qle; lia); lra).
      assert (M : (0 <= (inject_Z b - inject_Z a) * t
                   /\ (inject_Z b - inject_Z a) * t <= (inject_Z b - inject_Z a) * 1)%Q).
      { split; [apply Qmult_le_0_compat; assumption |].
        apply Qmult_le_compat_nonneg; split; lra. }
      split.
      + apply RN_ge_float; [exact Flo | lra].
      + apply RN_le_float; [exact Fhi | lra].
    - assert (D : (0 <= inject_Z a - inject_Z b)%Q)
        by (assert (inject_Z b <= inject_Z a)%Q by (rewrite <- Zle_Qle; lia); lra).
      assert (M : (0 <= (inject_Z a - inject_Z b) * t
                   /\ (inject_Z a - inject_Z b) * t <= (inject_Z a - inject_Z b) * 1)%Q).
      { split; [apply Qmult_le_0_compat; assumption |].
        apply Qmult_le_compat_nonneg; split; lra. }
      assert (N : ((inject_Z b - inject_Z a) * t
                   == - ((inject_Z a - inject_Z b) * t))%Q) by ring.
      split.
      + apply RN_ge_float; [exact Flo | lra].
      + apply RN_le_float; [exact Fhi | lra]. }
  assert (R : (inject_Z lo <= lerp a b t /\ lerp a b t <= inject_Z hi)%Q).
  { unfold lerp, fadd. rewrite Ea. split.
    - apply RN_ge_float; [apply Fz; unfold lo; lia | lra].
    - apply RN_le_float; [apply Fz; unfold hi; lia | lra]. }
  split.
  - rewrite <- (rne_inject_Z lo). apply rne_mono, R.
  - rewrite <- (rne_inject_Z hi). apply rne_mono, R.
Qed.

Lemma lerp_at_one (a b : Z) :
  0 <= a <= 255 -> 0 <= b <= 255 -> rne (lerp a b 1) = b.
Proof.
  intros Ha Hb. rewrite <- (rne_inject_Z b) at 2. apply rne_wd.
  assert (Ea := of_int_u8 a Ha).
  assert (Ed : (of_int (b - a) == inject_Z (b - a))%Q)
    by (apply of_int_exact; change (2 ^ 53) with 9007199254740992; lia).
  unfold lerp, fadd, fmul. rewrite Ed, Qmult_1_r, Ea.
  rewrite (RN_inject_Z (b - a))
    by (change (2 ^ 53) with 9007199254740992; lia).
  rewrite <- inject_Z_plus. replace (a + (b - a)) with b by lia.
  apply RN_inject_Z. change (2 ^ 53) with 9007199254740992. lia.
Qed.

Definition between (a b v : Z) : Prop := Z.min a b <= v <= Z.max a b.

Definition color_between (c1 c2 c : color) : Prop :=
  let '(r1, g1, b1, a1) := c1 in
  let '(r2, g2, b2, a2) := c2 in
  let '(r, g, b, a) := c in
  between r1 r2 r /\ between g1 g2 g /\ between b1 b2 b /\ between a1 a2 a.

Lemma mix_at_one (c1 c2 : color) : color8 c1 -> color8 c2 -> mix c1 c2 1 = c2.
Proof.
  destruct c1 as [[[r1 g1] b1] a1]. destruct c2 as [[[r2 g2] b2] a2].
  intros [Hr1 [Hg1 [Hb1 Ha1]]] [Hr2 [Hg2 [Hb2 Ha2]]]. unfold mix.
  rewrite !lerp_at_one by assumption. reflexivity.
Qed.

Lemma mix_between (c1 c2 : color) (t : Q) :
  color8 c1 -> color8 c2 -> (0 <= t /\ t <= 1)%Q ->
  color_between c1 c2 (mix c1 c2 t).
Proof.
  destruct c1 as [[[r1 g1] b1] a1]. destruct c2 as [[[r2 g2] b2] a2].
  intros [Hr1 [Hg1 [Hb1 Ha1]]] [Hr2 [Hg2 [Hb2 Ha2]]] Ht.
  unfold mix, color_between, between.
  repeat split; apply lerp_between; assumption.
Qed.

(** X5. [mix] interpolates between its two 8-bit colours: at [t = 0] it is
    the first colour, at [t = 1] the second, and for every [t] in [0, 1]
    each component lies between the two components it mixes, so that the
    result is again an 8-bit colour. *)
Theorem mix_interpolates (c1 c2 : color) (t : Q) :
  color8 c1 -> color8 c2 ->
  mix c1 c2 0 = c1 /\ mix c1 c2 1 = c2
  /\ ((0 <= t /\ t <= 1)%Q ->
      color_between c1 c2 (mix c1 c2 t) /\ color8 (mix c1 c2 t)).
Proof.
  intros H1 H2.
  split; [apply mix_at_zero; [reflexivity | exact H1] |].
  split; [apply mix_at_one; assumption |].
  intros Ht. split; [apply mix_between | apply mix_color8]; assumption.
Qed.

Lemma mix_interpolates_witness :
  mix (8, 14, 37, 255) (34, 107, 255, 255) 0 = (8, 14, 37, 255)
  /\ mix (8, 14, 37, 255) (34, 107, 255, 255) 1 = (34, 107, 255, 255).
Proof.
  destruct (mix_interpolates (8, 14, 37, 255) (34, 107, 255, 255) 0)
    as [A [B _]]; try (unfold color8; lia).
  split; assumption.
Defined.

(** * Pixel scans *)

Lemma range_cons (lo hi : Z) : lo < hi -> range lo hi = lo :: range (lo + 1) hi.
Proof.
  intros H. unfold range.
  replace (Z.to_nat (hi - lo)) with (S (Z.to_nat (hi - (lo + 1)))) by lia.
  cbn [seq map]. f_equal; [lia |].
  rewrite <- seq_shift, map_map. apply map_ext. intros k. lia.
Qed.

(** The loop rule of [for i in range(lo, hi)]: an invariant indexed by the
    next value of [i]. *)
Lemma for_range {S : Type} (I : Z -> S -> Prop) (lo0 hi : Z)
  (body : S -> Z -> result S) :
  (forall i s, lo0 <= i < hi -> I i s ->
     exists s', body s i = Ok s' /\ I (i + 1) s') ->
  forall (n : nat) (lo : Z) (s : S),
    lo0 <= lo -> Z.of_nat n = Z.max lo hi - lo -> I lo s ->
    exists s', for_each (range lo hi) s body = Ok s' /\ I (Z.max lo hi) s'.
Proof.
  intros Step. induction n as [| n IH]; intros lo s Hlo Hn Hs.
  - rewrite range_empty by lia. exists s. split; [reflexivity |].
    replace (Z.max lo hi) with lo by lia. exact Hs.
  - rewrite range_cons by lia. cbn [for_each].
    destruct (Step lo s ltac:(lia) Hs) as [s1 [E1 I1]].
    rewrite E1. cbn [bind].
    destruct (IH (lo + 1) s1 ltac:(lia) ltac:(lia) I1) as [s' [E' I']].
    exists s'. split; [exact E' |].
    replace (Z.max lo hi) with (Z.max (lo + 1) hi) by lia. exact I'.
Qed.

Lemma for_each_ext {S : Type} (l : list Z) (s : S)
  (f g : S -> Z -> result S) :
  (forall s i, In i l -> f s i = g s i) -> for_each l s f = for_each l s g.
Proof.
  revert s. induction l as [| i l IH]; intros s H; [reflexivity |].
  cbn [for_each]. rewrite (H s i (or_introl eq_refl)).
  destruct (g s i) as [s' | e]; [| reflexivity]. cbn [bind].
  apply IH. intros s2 j Hj. apply H. right. exact Hj.
Qed.

(** A body that paints: at a pixel of the canvas it returns normally,
    keeps the buffer length, replaces the pixel it visits by [g x y] of
    the pixel's value, and leaves every other pixel as it is. *)
Definition paints (w h : Z) (L : Z)
  (body : list byte -> Z -> Z -> result (list byte))
  (g : Z -> Z -> color -> color) : Prop :=
  forall p x y, len p = L -> 0 <= x < w -> 0 <= y < h ->
  exists p',
    body p x y = Ok p' /\ len p' = L
    /\ pixel_at p' (pixel_index w x y) = g x y (pixel_at p (pixel_index w x y))
    /\ (forall x' y', 0 <= x' < w -> 0 <= y' < h -> (x', y') <> (x, y) ->
          pixel_at p' (pixel_index w x' y') = pixel_at p (pixel_index w x' y')).

(** What a scan with a painting body leaves: every pixel of the box is
    painted once, from the value it had before the scan, and no other
    pixel changes. *)
Definition painted (w h : Z) (b : box) (g : Z -> Z -> color -> color)
  (px : list byte) (m : result (list byte)) : Prop :=
  let '(x0, x1, y0, y1) := b in
  exists p',
    m = Ok p' /\ len p' = len px
    /\ (forall x y, 0 <= x < w -> 0 <= y < h ->
          x0 <= x <= x1 -> y0 <= y <= y1 ->
          pixel_at p' (pixel_index w x y) = g x y (pixel_at px (pixel_index w x y)))
    /\ (forall x y, 0 <= x < w -> 0 <= y < h ->
          ~ (x0 <= x <= x1 /\ y0 <= y <= y1) ->
          pixel_at p' (pixel_index w x y) = pixel_at px (pixel_index w x y)).

Lemma scan_paints (w h : Z) (b : box) (px : list byte)
  (body : list byte -> Z -> Z -> result (list byte))
  (g : Z -> Z -> color -> color) :
  box_in_canvas w h b -> paints w h (len px) body g ->
  painted w h b g px (scan px b body).
Proof.
  destruct b as [[[x0 x1] y0] y1]. intros [Bx0 [Bx1 [By0 By1]]] Hb.
  unfold painted, scan.
  (* rows below [yc] are done *)
  set (Iy := fun (yc : Z) (p : list byte) =>
    len p = len px
    /\ (forall x y, 0 <= x < w -> 0 <= y < h ->
          x0 <= x <= x1 -> y0 <= y < yc ->
          pixel_at p (pixel_index w x y) = g x y (pixel_at px (pixel_index w x y)))
    /\ (forall x y, 0 <= x < w -> 0 <= y < h ->
          ~ (x0 <= x <= x1 /\ y0 <= y < yc) ->
          pixel_at p (pixel_index w x y) = pixel_at px (pixel_index w x y))).
  assert (Step : forall yc p, y0 <= yc < y1 + 1 -> Iy yc p ->
            exists p', for_each (range x0 (x1 + 1)) p
                         (fun q x => body q x yc) = Ok p' /\ Iy (yc + 1) p').
  { intros yc p Hyc [Lp [Dp Up]].
    set (Jx := fun (xc : Z) (q : list byte) =>
      len q = len px
      /\ (forall x y, 0 <= x < w -> 0 <= y < h ->
            (x0 <= x <= x1 /\ y0 <= y < yc) \/ (y = yc /\ x0 <= x < xc) ->
            pixel_at q (pixel_index w x y) = g x y (pixel_at px (pixel_index w x y)))
      /\ (forall x y, 0 <= x < w -> 0 <= y < h ->
            ~ ((x0 <= x <= x1 /\ y0 <= y < yc) \/ (y = yc /\ x0 <= x < xc)) ->
            pixel_at q (pixel_index w x y) = pixel_at px (pixel_index w x y))).
    assert (J0 : Jx x0 p).
    { split; [exact Lp |]. split.
      - intros x y Hx Hy [[A B] | [A B]]; [apply Dp; assumption | lia].
      - intros x y Hx Hy N. apply Up; try assumption. intros [A B]. apply N.
        left. split; assumption. }
    destruct (for_range Jx x0 (x1 + 1) (fun q x => body q x yc)) with
      (n := Z.to_nat (Z.max x0 (x1 + 1) - x0)) (lo := x0) (s := p)
      as [p' [E [Lp' [Dp' Up']]]]; [| lia | lia | exact J0 |].
    - intros xc q Hxc [Lq [Dq Uq]].
      destruct (Hb q xc yc Lq ltac:(lia) ltac:(lia)) as [q' [Eq [Lq' [Gq Fq]]]].
      exists q'. split; [exact Eq |]. split; [exact Lq' |]. split.
      + intros x y Hx Hy Hd.
        destruct (Z.eq_dec x xc) as [-> | Nx];
          [destruct (Z.eq_dec y yc) as [-> | Ny] |].
        * rewrite Gq. f_equal. apply Uq; try lia.
        * rewrite Fq by (try assumption; congruence). apply Dq; try assumption. lia.
        * rewrite Fq by (try assumption; congruence). apply Dq; try assumption. lia.
      + intros x y Hx Hy Hn.
        rewrite Fq by (try assumption; intros C; injection C as -> ->; apply Hn; lia).
        apply Uq; try assumption. lia.
    - exists p'. split; [exact E |]. split; [exact Lp' |]. split.
      + intros x y Hx Hy Hbx Hby. apply Dp'; try assumption. lia.
      + intros x y Hx Hy Hn. apply Up'; try assumption. lia. }
  assert (I0 : Iy y0 px).
  { split; [reflexivity |]. split; [intros; lia | reflexivity]. }
  destruct (for_range Iy y0 (y1 + 1)
              (fun p y => for_each (range x0 (x1 + 1)) p (fun q x => body q x y))
              Step (Z.to_nat (Z.max y0 (y1 + 1) - y0)) y0 px)
    as [p' [E [Lp' [Dp' Up']]]]; [lia | lia | exact I0 |].
  exists p'. split; [exact E |]. split; [exact Lp' |]. split.
  - intros x y Hx Hy Hbx Hby. apply Dp'; try assumption. lia.
  - intros x y Hx Hy Hn. apply Up'; try assumption. lia.
Qed.

(** ** The gradient, pixel by pixel *)

(** Overwriting the four bytes of an in-bounds pixel. *)
Lemma setslice_pixel_effect (p : list byte) (w h x y : Z) (b0 b1 b2 b3 : byte) :
  len p = w * h * 4 -> 0 <= x < w -> 0 <= y < h ->
  let p' := setslice p (pixel_index w x y) (pixel_index w x y + 4)
              [b0; b1; b2; b3] in
  len p' = w * h * 4
  /\ pixel_at p' (pixel_index w x y) = (u8 b0, u8 b1, u8 b2, u8 b3)
  /\ (forall x' y', 0 <= x' < w -> 0 <= y' < h -> (x', y') <> (x, y) ->
        pixel_at p' (pixel_index w x' y') = pixel_at p (pixel_index w x' y')).
Proof.
  intros L Hx Hy p'.
  split; [apply (setslice_len p [b0; b1; b2; b3] w h x y); auto |].
  destruct (pixel_split p w h x y L Hx Hy) as
    [pre [a0 [a1 [a2 [a3 [post [E P]]]]]]].
  subst p p'. rewrite <- P, setslice_pixel. split.
  - apply (pixel_at_split pre post b0 b1 b2 b3).
  - intros x' y' Hx' Hy' Hne.
    destruct (in_bounds_index w h x' y' Hx' Hy') as [I0 _].
    apply pixel_at_same; [exact I0 |].
    intros k Hk. apply nth_replace4; [reflexivity |].
    destruct (pixel_index_inj w x y x' y' Hx Hx') as [D | D];
      [congruence | |]; unfold len in P; lia.
Qed.

(** The gradient parameter of pixel [(x, y)], as [fill_linear_gradient]
    computes it. *)
Definition gradient_t (w h x y : Z) : Q :=
  let tx := RN (inject_Z x / inject_Z (Z.max 1 (w - 1))) in
  let ty := RN (inject_Z y / inject_Z (Z.max 1 (h - 1))) in
  fmax 0 (fmin 1 (RN ((tx ⊗ f0_6 ⊕ ty ⊗ f0_9) / f1_5))).

Lemma clamp01_wd (u v : Q) : (u == v -> fmax 0 (fmin 1 u) == fmax 0 (fmin 1 v))%Q.
Proof.
  intros E. apply Qle_antisym; apply clamp01_mono; rewrite E; apply Qle_refl.
Qed.

Lemma lerp_wd (a b : Z) (t t' : Q) : (t == t' -> lerp a b t == lerp a b t')%Q.
Proof. intros E. unfold lerp. rewrite E. reflexivity. Qed.

Lemma mix_wd (c1 c2 : color) (t t' : Q) : (t == t')%Q -> mix c1 c2 t = mix c1 c2 t'.
Proof.
  intros E. destruct c1 as [[[r1 g1] b1] a1]. destruct c2 as [[[r2 g2] b2] a2].
  unfold mix.
  rewrite (rne_wd _ _ (lerp_wd r1 r2 t t' E)), (rne_wd _ _ (lerp_wd g1 g2 t t' E)),
    (rne_wd _ _ (lerp_wd b1 b2 t t' E)), (rne_wd _ _ (lerp_wd a1 a2 t t' E)).
  reflexivity.
Qed.

Lemma ratio_nonneg (x m : Z) : 0 <= x -> 1 <= m -> (0 <= inject_Z x / inject_Z m)%Q.
Proof.
  intros Hx Hm.
  assert (Qx : (0 <= inject_Z x)%Q)
    by (change 0%Q with (inject_Z 0); rewrite <- Zle_Qle; exact Hx).
  assert (Qm : (0 < inject_Z m)%Q)
    by (change 0%Q with (inject_Z 0); rewrite <- Zlt_Qlt; lia).
  apply Qle_shift_div_l; [exact Qm |]. lra.
Qed.

Lemma ratio_mono (x x' m : Z) :
  x <= x' -> 1 <= m -> (inject_Z x / inject_Z m <= inject_Z x' / inject_Z m)%Q.
Proof.
  intros Hx Hm. apply div_mono.
  - change 0%Q with (inject_Z 0). rewrite <- Zlt_Qlt. lia.
  - rewrite <- Zle_Qle. exact Hx.
Qed.

Lemma gradient_t_mono (w h x x' y y' : Z) :
  0 <= x <= x' -> 0 <= y <= y' ->
  (gradient_t w h x y <= gradient_t w h x' y')%Q.
Proof.
  intros Hx Hy. unfold gradient_t. cbv zeta.
  assert (C6 : (0 <= f0_6)%Q) by (vm_compute; discriminate).
  assert (C9 : (0 <= f0_9)%Q) by (vm_compute; discriminate).
  apply clamp01_mono, RN_mono, div_mono; [reflexivity |].
  apply fadd_mono; apply fmul_mono; try apply Qle_refl; try assumption.
  - apply RN_nonneg, ratio_nonneg; lia.
  - apply RN_mono, ratio_mono; lia.
  - apply RN_nonneg, ratio_nonneg; lia.
  - apply RN_mono, ratio_mono; lia.
Qed.

Lemma gradient_t_origin (w h : Z) : (gradient_t w h 0 0 == 0)%Q.
Proof.
  unfold gradient_t. cbv zeta. apply clamp01_zero.
  assert (Z0 : forall m : Z, (RN (inject_Z 0 / inject_Z m) == 0)%Q).
  { intros m. rewrite RN_zero; [reflexivity |].
    unfold Qdiv. change (inject_Z 0) with 0%Q. ring. }
  rewrite (Z0 (Z.max 1 (w - 1))), (Z0 (Z.max 1 (h - 1))).
  vm_compute. reflexivity.
Qed.

Lemma gradient_t_corner (w h : Z) :
  2 <= w -> 2 <= h -> (gradient_t w h (w - 1) (h - 1) == 1)%Q.
Proof.
  intros Hw Hh. unfold gradient_t. cbv zeta.
  assert (O : forall m : Z, 1 <= m -> (RN (inject_Z m / inject_Z m) == 1)%Q).
  { intros m Hm. apply Qeq_trans with (RN 1); [| reflexivity].
    apply RN_wd. field.
    intros C. apply (Qlt_irrefl 0). rewrite <- C at 2.
    change 0%Q with (inject_Z 0). rewrite <- Zlt_Qlt. lia. }
  replace (Z.max 1 (w - 1)) with (w - 1) by lia.
  replace (Z.max 1 (h - 1)) with (h - 1) by lia.
  pose proof (O (w - 1) ltac:(lia)) as Ow.
  pose proof (O (h - 1) ltac:(lia)) as Oh.
  apply Qeq_trans with (fmax 0 (fmin 1 1)); [| reflexivity].
  apply clamp01_wd. rewrite Ow, Oh. vm_compute. reflexivity.
Qed.

Lemma gradient_body_paints (w h : Z) (c_tl c_br : color) :
  color8 c_tl -> color8 c_br ->
  paints w h (w * h * 4)
    (fun p x y =>
       tx <- int_truediv x (Z.max 1 (w - 1)) ;;
       v <- fdiv (tx ⊗ f0_6
                  ⊕ RN (inject_Z y / inject_Z (Z.max 1 (h - 1))) ⊗ f0_9) f1_5 ;;
       let t := fmax 0 (fmin 1 v) in
       let c := mix c_tl c_br t in
       let i := (y * w + x) * 4 in
       bs <- bytes4 c ;;
       Ok (setslice p i (i + 4) bs))
    (fun x y _ => mix c_tl c_br (gradient_t w h x y)).
Proof.
  intros H1 H2 p x y L Hx Hy.
  rewrite int_truediv_ok by lia. cbn [bind].
  rewrite fdiv_ok by discriminate. cbn [bind]. cbv zeta.
  fold (gradient_t w h x y).
  destruct (bytes4_ok (mix c_tl c_br (gradient_t w h x y))
              (mix_color8 c_tl c_br _ H1 H2 (clamp01 _)))
    as [b0 [b1 [b2 [b3 [E [U _]]]]]].
  rewrite E. cbn [bind]. fold (pixel_index w x y).
  destruct (setslice_pixel_effect p w h x y b0 b1 b2 b3 L Hx Hy)
    as [L' [G F]].
  eexists. split; [reflexivity |]. split; [exact L' |].
  split; [rewrite G; exact U | exact F].
Qed.

Lemma fill_linear_gradient_scan (px : list byte) (w h : Z) (c_tl c_br : color) :
  fill_linear_gradient px w h c_tl c_br
  = scan px (0, w - 1, 0, h - 1)
      (fun p x y =>
         tx <- int_truediv x (Z.max 1 (w - 1)) ;;
         v <- fdiv (tx ⊗ f0_6
                    ⊕ RN (inject_Z y / inject_Z (Z.max 1 (h - 1))) ⊗ f0_9) f1_5 ;;
         let t := fmax 0 (fmin 1 v) in
         let c := mix c_tl c_br t in
         let i := (y * w + x) * 4 in
         bs <- bytes4 c ;;
         Ok (setslice p i (i + 4) bs)).
Proof.
  unfold fill_linear_gradient, scan.
  replace (h - 1 + 1) with h by lia. replace (w - 1 + 1) with w by lia.
  apply for_each_ext. intros p y _.
  rewrite int_truediv_ok by lia. reflexivity.
Qed.

Lemma gradient_painted (px : list byte) (w h : Z) (c_tl c_br : color) :
  len px = w * h * 4 -> color8 c_tl -> color8 c_br ->
  exists px',
    fill_linear_gradient px w h c_tl c_br = Ok px' /\ len px' = w * h * 4
    /\ (forall x y, 0 <= x < w -> 0 <= y < h ->
          pixel_at px' (pixel_index w x y) = mix c_tl c_br (gradient_t w h x y)).
Proof.
  intros L H1 H2. rewrite fill_linear_gradient_scan.
  pose proof (gradient_body_paints w h c_tl c_br H1 H2) as Hb.
  rewrite <- L in Hb.
  destruct (scan_paints w h (0, w - 1, 0, h - 1) px _ _
              ltac:(unfold box_in_canvas; lia) Hb) as [p' [E [Lp [D _]]]].
  exists p'. split; [exact E |]. split; [lia |].
  intros x y Hx Hy. apply D; lia.
Qed.

(** X6. [fill_linear_gradient] on a [w] x [h] canvas with 8-bit colours
    returns normally and sets every pixel [(x, y)] to
    [mix(c_tl, c_br, t)] for the pixel's own parameter
    [t = clamp((x/max(1,w-1)*0.6 + y/max(1,h-1)*0.9)/1.5)], whatever the
    buffer held before.  The parameter never decreases to the right or
    downwards; the top-left pixel becomes [c_tl] and, on a canvas of at
    least 2 x 2 pixels, the bottom-right pixel becomes [c_br]. *)
Theorem gradient_pixels (px : list byte) (w h : Z) (c_tl c_br : color) :
  len px = w * h * 4 -> color8 c_tl -> color8 c_br ->
  (exists px',
     fill_linear_gradient px w h c_tl c_br = Ok px' /\ len px' = w * h * 4
     /\ (forall x y, 0 <= x < w -> 0 <= y < h ->
           pixel_at px' (pixel_index w x y)
           = mix c_tl c_br (gradient_t w h x y))
     /\ (1 <= w -> 1 <= h -> pixel_at px' (pixel_index w 0 0) = c_tl)
     /\ (2 <= w -> 2 <= h ->
         pixel_at px' (pixel_index w (w - 1) (h - 1)) = c_br))
  /\ (forall x x' y y', 0 <= x <= x' -> 0 <= y <= y' ->
        (gradient_t w h x y <= gradient_t w h x' y')%Q).
Proof.
  intros L H1 H2. split; [| intros x x' y y'; apply gradient_t_mono].
  destruct (gradient_painted px w h c_tl c_br L H1 H2) as [p' [E [Lp D]]].
  exists p'. split; [exact E |]. split; [exact Lp |]. split; [exact D |].
  split.
  - intros Hw Hh. rewrite D by lia.
    apply mix_at_zero; [apply gradient_t_origin | exact H1].
  - intros Hw Hh. rewrite D by lia.
    rewrite (mix_wd c_tl c_br _ 1 (gradient_t_corner w h Hw Hh)).
    apply mix_at_one; assumption.
Qed.

Lemma gradient_pixels_witness :
  exists px',
    fill_linear_gradient (repeat x00 16) 2 2 (8, 14, 37, 255) (34, 107, 255, 255)
    = Ok px'
    /\ pixel_at px' (pixel_index 2 0 0) = (8, 14, 37, 255)
    /\ pixel_at px' (pixel_index 2 1 1) = (34, 107, 255, 255).
Proof.
  destruct (gradient_pixels (repeat x00 16) 2 2 (8, 14, 37, 255)
              (34, 107, 255, 255)) as [[px' [E [_ [_ [A B]]]]] _];
    try reflexivity; try (unfold color8; lia).
  exists px'. split; [exact E |]. split; [apply A; lia | apply B; lia].
Defined.

(** * Further properties of the compositor *)

Lemma rne_ge (x : Q) (z : Z) : (inject_Z z - (1 # 4) <= x)%Q -> z <= rne x.
Proof.
  intros H. destruct (rne_err x) as [_ E].
  assert (L : (inject_Z (z - 1) < inject_Z (rne x))%Q).
  { unfold Zminus. rewrite inject_Z_plus. change (inject_Z (- (1))) with (- (1))%Q.
    lra. }
  rewrite <- Zlt_Qlt in L. lia.
Qed.

Lemma rne_le (x : Q) (z : Z) : (x <= inject_Z z + (1 # 4))%Q -> rne x <= z.
Proof.
  intros H. destruct (rne_err x) as [E _].
  assert (L : (inject_Z (rne x) < inject_Z (z + 1))%Q).
  { rewrite inject_Z_plus. change (inject_Z 1) with 1%Q. lra. }
  rewrite <- Zlt_Qlt in L. lia.
Qed.

Lemma rne_near (x : Q) (z : Z) :
  (inject_Z z - (1 # 4) <= x)%Q -> (x <= inject_Z z + (1 # 4))%Q -> rne x = z.
Proof.
  intros H1 H2. pose proof (rne_ge x z H1). pose proof (rne_le x z H2). lia.
Qed.

(** [round(a / 255.0 * 255)] is [a] for every byte value [a]. *)
Lemma unit_round_trip (a : Z) : 0 <= a <= 255 -> rne (unit_of a ⊗ f255) = a.
Proof.
  intros H.
  assert (T : forallb (fun a => rne (unit_of a ⊗ f255) =? a) (range 0 256) = true)
    by (vm_compute; reflexivity).
  rewrite forallb_forall in T. apply Z.eqb_eq, T, in_range. lia.
Qed.

Lemma source_over_alpha_eq (sa da : Z) :
  source_over_alpha sa da = rne (out_alpha (unit_of sa) (unit_of da) ⊗ f255).
Proof. reflexivity. Qed.

Lemma source_over_channel_eq (sc dc sa da : Z) :
  source_over_channel sc dc sa da
  = rne (RN ((of_int sc ⊗ unit_of sa ⊕ of_int dc ⊗ unit_of da ⊗ (1 ⊖ unit_of sa))
             / out_alpha (unit_of sa) (unit_of da))).
Proof. reflexivity. Qed.

Lemma source_over_alpha_ge_src (sa da : Z) :
  1 <= sa <= 255 -> 0 <= da <= 255 -> sa <= source_over_alpha sa da.
Proof.
  intros Hsa Hda. rewrite source_over_alpha_eq.
  destruct (unit_of_facts sa Hsa) as [HA FA].
  pose proof (unit_of_range da Hda) as HD.
  pose proof (out_alpha_lower _ _ HA HD FA) as L.
  rewrite <- (unit_round_trip sa ltac:(lia)) at 1.
  apply rne_mono, RN_mono.
  apply Qmult_le_compat_r; [exact L | discriminate].
Qed.

Lemma unit_of_lower (a : Z) :
  0 <= a <= 255 -> (inject_Z a * (1 # 255) - eps <= unit_of a)%Q.
Proof.
  intros H. unfold unit_of. assert (E := of_int_u8 a H).
  assert (L : (0 <= inject_Z a)%Q)
    by (change 0%Q with (inject_Z 0); rewrite <- Zle_Qle; lia).
  assert (U : (inject_Z a <= 255)%Q)
    by (change 255%Q with (inject_Z 255); rewrite <- Zle_Qle; lia).
  destruct (RN_err9 (of_int a / f255)) as [R _].
  - rewrite div255, E. lra.
  - rewrite div255, E. lra.
  - rewrite div255, E in R. rewrite div255, E. exact R.
Qed.

Lemma source_over_alpha_ge_dst (sa da : Z) :
  1 <= sa <= 255 -> 0 <= da <= 255 -> da <= source_over_alpha sa da.
Proof.
  intros Hsa Hda. rewrite source_over_alpha_eq.
  destruct (unit_of_facts sa Hsa) as [HA FA].
  pose proof (unit_of_range da Hda) as HD.
  pose proof (out_alpha_approx _ _ HA HD) as Ap.
  pose proof (out_alpha_upper _ _ HA HD) as Up.
  pose proof (out_alpha_lower _ _ HA HD FA) as Lo.
  pose proof (unit_of_lower da Hda) as Dl.
  pose proof (A_lower _ HA) as AL.
  set (A := unit_of sa) in *. set (D := unit_of da) in *.
  set (O := out_alpha A D) in *.
  destruct (RN_err9 (1 - A) ltac:(lra) ltac:(lra)) as [Ml _].
  fold (fsub 1 A) in Ml. set (M := 1 ⊖ A) in *.
  assert (OD : (D - 3 * eps <= O)%Q).
  { unfold eps in *. nra. }
  apply rne_ge. unfold fmul.
  destruct (RN_err9 (O * f255)) as [R _].
  - unfold f255. unfold eps in *. lra.
  - unfold f255. lra.
  - unfold f255, eps in *. lra.
Qed.

(** Over a fully transparent destination the composite is the source
    colour itself. *)
Lemma source_over_transparent (sr sg sb sa dr dg db : Z) :
  0 <= sr <= 255 -> 0 <= sg <= 255 -> 0 <= sb <= 255 -> 1 <= sa <= 255 ->
  0 <= dr <= 255 -> 0 <= dg <= 255 -> 0 <= db <= 255 ->
  source_over (sr, sg, sb, sa) (dr, dg, db, 0) = (sr, sg, sb, sa).
Proof.
  intros Hr Hg Hb Ha Hdr Hdg Hdb.
  destruct (unit_of_facts sa Ha) as [HA FA].
  pose proof (A_lower _ HA) as AL.
  set (A := unit_of sa) in *.
  assert (D0 : (unit_of 0 == 0)%Q) by reflexivity.
  assert (P0 : forall u v : Q, (u ⊗ unit_of 0 ⊗ v == 0)%Q).
  { intros u v. unfold fmul. rewrite D0, Qmult_0_r.
    rewrite (RN_zero 0) by reflexivity. rewrite Qmult_0_l.
    rewrite (RN_zero 0) by reflexivity. reflexivity. }
  assert (O0 : (out_alpha A (unit_of 0) == A)%Q).
  { unfold out_alpha, fadd, fmul. rewrite D0, Qmult_0_l.
    rewrite (RN_zero 0) by reflexivity. rewrite Qplus_0_r. exact FA. }
  assert (Ch : forall sc dc : Z, 0 <= sc <= 255 -> 0 <= dc <= 255 ->
             source_over_channel sc dc sa 0 = sc).
  { intros sc dc Hsc Hdc. rewrite source_over_channel_eq. fold A.
    assert (Esc := of_int_u8 sc Hsc).
    assert (S0 : (0 <= inject_Z sc)%Q)
      by (change 0%Q with (inject_Z 0); rewrite <- Zle_Qle; lia).
    assert (S1 : (inject_Z sc <= 255)%Q)
      by (change 255%Q with (inject_Z 255); rewrite <- Zle_Qle; lia).
    assert (N : (of_int sc ⊗ A ⊕ of_int dc ⊗ unit_of 0 ⊗ (1 ⊖ A)
                 == RN (inject_Z sc * A))%Q).
    { unfold fadd. rewrite P0, Qplus_0_r. unfold fmul. rewrite Esc.
      apply RN_idem. }
    apply rne_near.
    - rewrite N, O0.
      destruct (RN_err9 (inject_Z sc * A) ltac:(nra) ltac:(nra)) as [E1 _].
      assert (Q1 : (inject_Z sc - 256 * eps <= RN (inject_Z sc * A) / A)%Q).
      { apply Qle_shift_div_l; [lra |]. unfold eps in *. nra. }
      destruct (RN_err9 (RN (inject_Z sc * A) / A)) as [E3 _].
      + apply Qle_shift_div_l; [lra |].
        pose proof (RN_nonneg (inject_Z sc * A) ltac:(nra)). lra.
      + apply Qlt_shift_div_r; [lra |].
        destruct (RN_err9 (inject_Z sc * A) ltac:(nra) ltac:(nra)) as [_ E2].
        unfold eps in *. nra.
      + unfold eps in *. lra.
    - rewrite N, O0.
      destruct (RN_err9 (inject_Z sc * A) ltac:(nra) ltac:(nra)) as [_ E2].
      assert (Q2 : (RN (inject_Z sc * A) / A <= inject_Z sc + 256 * eps)%Q).
      { apply Qle_shift_div_r; [lra |]. unfold eps in *. nra. }
      destruct (RN_err9 (RN (inject_Z sc * A) / A)) as [_ E4].
      + apply Qle_shift_div_l; [lra |].
        pose proof (RN_nonneg (inject_Z sc * A) ltac:(nra)). lra.
      + unfold eps in *. lra.
      + unfold eps in *. lra. }
  unfold source_over. rewrite !Ch by assumption. f_equal.
  rewrite source_over_alpha_eq. fold A.
  transitivity (rne (A ⊗ f255)); [| apply unit_round_trip; lia].
  apply rne_wd. unfold fmul. rewrite O0. reflexivity.
Qed.

Definition alpha_of (c : color) : Z := snd c.

Lemma pixel_at_color8 (px : list byte) (i : Z) : color8 (pixel_at px i).
Proof.
  unfold pixel_at, color8. cbv zeta.
  repeat split;
    match goal with |- context [u8 ?b] => pose proof (u8_range b); lia end.
Qed.

Lemma blend_alpha (px : list byte) (w h x y : Z) (c : color) :
  len px = w * h * 4 -> 0 <= x < w -> 0 <= y < h -> color8 c ->
  exists px',
    blend px w h x y c = Ok px'
    /\ Z.max (alpha_of c) (alpha_of (pixel_at px (pixel_index w x y)))
       <= alpha_of (pixel_at px' (pixel_index w x y)) <= 255.
Proof.
  intros L Hx Hy Hc. destruct c as [[[sr sg] sb] sa].
  destruct Hc as [Hr [Hg [Hb Ha]]].
  pose proof (pixel_at_color8 px (pixel_index w x y)) as Hd.
  destruct (pixel_at px (pixel_index w x y)) as [[[dr dg] db] da] eqn:Ed.
  destruct Hd as [Hdr [_ [_ Hda]]]. unfold alpha_of. cbn [snd].
  destruct (Z.eq_dec sa 0) as [-> | Nz].
  - exists px. split; [apply blend_transparent; lia |].
    rewrite Ed. cbn [snd]. lia.
  - destruct (blend_in_bounds px w h x y sr sg sb sa L Hx Hy Hr Hg Hb ltac:(lia))
      as [px' [B [S _]]].
    exists px'. split; [exact B |]. rewrite S, Ed. unfold source_over. cbn [snd].
    pose proof (source_over_alpha_ge_src sa da ltac:(lia) Hda).
    pose proof (source_over_alpha_ge_dst sa da ltac:(lia) Hda).
    destruct (source_over_range sr dr sa da Hr Hdr ltac:(lia) Hda) as [_ R].
    lia.
Qed.

(** X7. [blend] never lowers the alpha of a pixel: at an in-bounds pixel
    and for an 8-bit source colour, the alpha stored after the call is at
    least the source alpha and at least the alpha stored before, and at
    most 255.  An opaque pixel stays opaque, and an opaque source makes the
    pixel opaque. *)
Theorem blend_alpha_monotone (px : list byte) (w h x y : Z) (c : color) :
  len px = w * h * 4 -> 0 <= x < w -> 0 <= y < h -> color8 c ->
  exists px',
    blend px w h x y c = Ok px'
    /\ Z.max (alpha_of c) (alpha_of (pixel_at px (pixel_index w x y)))
       <= alpha_of (pixel_at px' (pixel_index w x y)) <= 255.
Proof. exact (blend_alpha px w h x y c). Qed.

Lemma blend_alpha_monotone_witness :
  exists px',
    blend [x0a; x14; x1e; x28] 1 1 0 0 (200, 100, 50, 128) = Ok px'
    /\ 128 <= alpha_of (pixel_at px' (pixel_index 1 0 0)) <= 255.
Proof.
  destruct (blend_alpha_monotone [x0a; x14; x1e; x28] 1 1 0 0 (200, 100, 50, 128))
    as [px' [E R]]; try reflexivity; try lia; try (unfold color8; lia).
  exists px'. split; [exact E |].
  change (alpha_of (200, 100, 50, 128)) with 128 in R. lia.
Defined.

(** X8. Over a fully transparent pixel [blend] stores the source colour
    itself: for an in-bounds pixel whose alpha is 0 and an 8-bit source
    colour of alpha at least 1, the pixel becomes exactly the source
    colour, whatever its colour channels held. *)
Theorem blend_on_transparent (px : list byte) (w h x y sr sg sb sa : Z) :
  len px = w * h * 4 -> 0 <= x < w -> 0 <= y < h ->
  0 <= sr <= 255 -> 0 <= sg <= 255 -> 0 <= sb <= 255 -> 1 <= sa <= 255 ->
  alpha_of (pixel_at px (pixel_index w x y)) = 0 ->
  exists px',
    blend px w h x y (sr, sg, sb, sa) = Ok px'
    /\ pixel_at px' (pixel_index w x y) = (sr, sg, sb, sa).
Proof.
  intros L Hx Hy Hr Hg Hb Ha Ht.
  destruct (blend_in_bounds px w h x y sr sg sb sa L Hx Hy Hr Hg Hb Ha)
    as [px' [B [S _]]].
  exists px'. split; [exact B |]. rewrite S.
  pose proof (pixel_at_color8 px (pixel_index w x y)) as Hd.
  destruct (pixel_at px (pixel_index w x y)) as [[[dr dg] db] da].
  unfold alpha_of in Ht. cbn [snd] in Ht. subst da.
  destruct Hd as [Hdr [Hdg [Hdb _]]].
  apply source_over_transparent; assumption.
Qed.

Lemma blend_on_transparent_witness :
  exists px',
    blend [x0a; x14; x1e; x00] 1 1 0 0 (200, 100, 50, 7) = Ok px'
    /\ pixel_at px' (pixel_index 1 0 0) = (200, 100, 50, 7).
Proof.
  apply (blend_on_transparent [x0a; x14; x1e; x00] 1 1 0 0 200 100 50 7);
    try reflexivity; lia.
Defined.

(** * Further properties of the rasterisers *)

(** What one [blend] call makes of a pixel. *)
Definition composite (src dst : color) : color :=
  if alpha_of src <=? 0 then dst else source_over src dst.

Lemma blend_paints (p : list byte) (w h x y : Z) (c : color) :
  len p = w * h * 4 -> 0 <= x < w -> 0 <= y < h -> color8 c ->
  exists p',
    blend p w h x y c = Ok p' /\ len p' = w * h * 4
    /\ pixel_at p' (pixel_index w x y) = composite c (pixel_at p (pixel_index w x y))
    /\ (forall x' y', 0 <= x' < w -> 0 <= y' < h -> (x', y') <> (x, y) ->
          pixel_at p' (pixel_index w x' y') = pixel_at p (pixel_index w x' y')).
Proof.
  intros L Hx Hy Hc. destruct c as [[[sr sg] sb] sa].
  destruct Hc as [Hr [Hg [Hb Ha]]]. unfold composite, alpha_of. cbn [snd].
  destruct (Z.leb_spec sa 0) as [T | V].
  - exists p. rewrite blend_transparent by exact T. auto.
  - destruct (blend_in_bounds p w h x y sr sg sb sa L Hx Hy Hr Hg Hb ltac:(lia))
      as [p' [B [S [Lp F]]]].
    exists p'. split; [exact B |]. split; [lia |]. split; assumption.
Qed.

Lemma trunc_zero (q : Q) : (q == 0)%Q -> trunc q = 0.
Proof.
  intros H. assert (R : 0 <= trunc q <= 0); [| lia].
  apply trunc_range; rewrite H; [apply Qle_refl | discriminate].
Qed.

Lemma scale_alpha_zero (ca : Z) (a : Q) : (a == 0)%Q -> scale_alpha ca a = 0.
Proof.
  intros H. unfold scale_alpha. apply trunc_zero.
  unfold fmul. rewrite H, Qmult_0_r. reflexivity.
Qed.

(** The alpha a rasteriser hands to [blend] never exceeds the colour's. *)
Lemma scale_alpha_le (ca : Z) (a : Q) :
  0 <= ca <= 255 -> (0 <= a /\ a <= 1)%Q -> 0 <= scale_alpha ca a <= ca.
Proof.
  intros Hc [A0 A1]. unfold scale_alpha.
  assert (E := of_int_u8 ca Hc).
  assert (C0 : (0 <= inject_Z ca)%Q)
    by (change 0%Q with (inject_Z 0); rewrite <- Zle_Qle; lia).
  apply trunc_range.
  - apply fmul_nonneg; [rewrite E |]; assumption.
  - apply RN_le_float.
    + apply is_float_inject_Z. change (2 ^ 53) with 9007199254740992. lia.
    + rewrite E. setoid_replace (inject_Z ca) with (inject_Z ca * 1)%Q at 2 by ring.
      apply Qmult_le_compat_nonneg; split; try assumption; lra.
Qed.

(** The value of a coverage computation, 0 where it is not reached. *)
Definition value_or_zero (m : result Q) : Q :=
  match m with
  | Ok a => a
  | Raise _ => 0%Q
  end.

(** The shape colour over a pixel, at the alpha [int(ca * a)]. *)
Definition shade (c : color) (a : Q) (dst : color) : color :=
  let '(cr, cg, cb, ca) := c in composite (cr, cg, cb, scale_alpha ca a) dst.

Lemma shade_paints (p : list byte) (w h x y cr cg cb ca : Z) (a : Q) :
  len p = w * h * 4 -> 0 <= x < w -> 0 <= y < h ->
  color8 (cr, cg, cb, ca) -> (0 <= a /\ a <= 1)%Q ->
  exists p',
    blend p w h x y (cr, cg, cb, scale_alpha ca a) = Ok p' /\ len p' = w * h * 4
    /\ pixel_at p' (pixel_index w x y)
       = shade (cr, cg, cb, ca) a (pixel_at p (pixel_index w x y))
    /\ (forall x' y', 0 <= x' < w -> 0 <= y' < h -> (x', y') <> (x, y) ->
          pixel_at p' (pixel_index w x' y') = pixel_at p (pixel_index w x' y')).
Proof.
  intros L Hx Hy [Hr [Hg [Hb Ha]]] Ra.
  pose proof (scale_alpha_range ca a Ha Ra) as Hs.
  apply blend_paints; try assumption. repeat split; lia.
Qed.

Lemma skip_paints (p : list byte) (w h x y cr cg cb ca : Z) (a : Q) :
  len p = w * h * 4 -> (a == 0)%Q ->
  exists p',
    Ok p = Ok p' /\ len p' = w * h * 4
    /\ pixel_at p' (pixel_index w x y)
       = shade (cr, cg, cb, ca) a (pixel_at p (pixel_index w x y))
    /\ (forall x' y', 0 <= x' < w -> 0 <= y' < h -> (x', y') <> (x, y) ->
          pixel_at p' (pixel_index w x' y') = pixel_at p (pixel_index w x' y')).
Proof.
  intros L Ha. exists p. split; [reflexivity |]. split; [exact L |].
  split; [| reflexivity].
  unfold shade, composite, alpha_of. cbn [snd].
  rewrite (scale_alpha_zero ca a Ha). reflexivity.
Qed.

Section PixelCoverage.

Variable hypot : Q -> Q -> Q.

(** The coverage each rasteriser computes at pixel [(x, y)]; it depends on
    the shape and the pixel's position, not on the buffer. *)
Definition disc_cov (cx cy r feather : Q) (x y : Z) : Q :=
  value_or_zero
    (soft_circle_coverage r feather
       (hypot (of_int x ⊕ f0_5 ⊖ cx) (of_int y ⊕ f0_5 ⊖ cy))).

Definition ring_cov (cx cy r thickness feather : Q) (x y : Z) : Q :=
  value_or_zero
    (ring_coverage r thickness feather
       (hypot (of_int x ⊕ f0_5 ⊖ cx) (of_int y ⊕ f0_5 ⊖ cy))).

Definition glow_cov (x0 y0 x1 y1 width feather : Q) (x y : Z) : Q :=
  let vx := x1 ⊖ x0 in
  let vy := y1 ⊖ y0 in
  let vlen2 := vx ⊗ vx ⊕ vy ⊗ vy ⊕ f1e_6 in
  let px0 := of_int x ⊕ f0_5 ⊖ x0 in
  let py0 := of_int y ⊕ f0_5 ⊖ y0 in
  let t := fmax 0 (fmin 1 (RN ((px0 ⊗ vx ⊕ py0 ⊗ vy) / vlen2))) in
  let qx := x0 ⊕ vx ⊗ t in
  let qy := y0 ⊕ vy ⊗ t in
  let d := hypot (of_int x ⊕ f0_5 ⊖ qx) (of_int y ⊕ f0_5 ⊖ qy) in
  if Qle_bool d (width ⊕ feather)
  then value_or_zero (glow_coverage width feather d) else 0%Q.

Definition stroke_cov (x y rw rh radius thickness : Q) (pxl py : Z) : Q :=
  let cx := x ⊕ RN (rw / 2) in
  let cy := y ⊕ RN (rh / 2) in
  let hx := RN (rw / 2) ⊖ radius in
  let hy := RN (rh / 2) ⊖ radius in
  let qx := Qabs (of_int pxl ⊕ f0_5 ⊖ cx) ⊖ hx in
  let qy := Qabs (of_int py ⊕ f0_5 ⊖ cy) ⊖ hy in
  let qx2 := fmax qx 0 in
  let qy2 := fmax qy 0 in
  let dist := hypot qx2 qy2 ⊕ fmin (fmax qx qy) 0 ⊖ radius in
  let ad := Qabs dist in
  if Qle_bool ad thickness
  then value_or_zero (stroke_coverage thickness ad) else 0%Q.

Variables (px : list byte) (w h : Z) (c : color).
Hypothesis Hlen : len px = w * h * 4.
Hypothesis Hc : color8 c.

Lemma draw_soft_circle_painted (cx cy r feather : Q) :
  is_float feather ->
  painted w h (disc_box w h cx cy r feather 1)
    (fun x y => shade c (disc_cov cx cy r feather x y)) px
    (draw_soft_circle hypot px w h cx cy r c feather).
Proof.
  intros Ff. destruct c as [[[cr cg] cb] ca].
  unfold draw_soft_circle.
  apply scan_paints; [apply disc_box_in_canvas |].
  rewrite Hlen. intros p x y L Hx Hy. cbv zeta. unfold disc_cov.
  destruct (soft_circle_coverage_ok r feather
              (hypot (of_int x ⊕ f0_5 ⊖ cx) (of_int y ⊕ f0_5 ⊖ cy)) Ff)
    as [a [E R]].
  rewrite E. cbn [bind value_or_zero].
  destruct (Qltb 0 a) eqn:B.
  - apply shade_paints; assumption.
  - apply Qltb_false in B. apply skip_paints; [exact L | lra].
Qed.

Lemma draw_ring_painted (cx cy r thickness feather : Q) :
  is_float feather ->
  painted w h (disc_box w h cx cy (r ⊕ RN (thickness / 2)) feather 1)
    (fun x y => shade c (ring_cov cx cy r thickness feather x y)) px
    (draw_ring hypot px w h cx cy r thickness c feather).
Proof.
  intros Ff. destruct c as [[[cr cg] cb] ca].
  unfold draw_ring. rewrite fdiv_ok by discriminate. cbn [bind].
  apply scan_paints; [apply disc_box_in_canvas |].
  rewrite Hlen. intros p x y L Hx Hy. cbv zeta. unfold ring_cov.
  destruct (ring_coverage_ok r thickness feather
              (hypot (of_int x ⊕ f0_5 ⊖ cx) (of_int y ⊕ f0_5 ⊖ cy)) Ff)
    as [a [E R]].
  rewrite E. cbn [bind value_or_zero].
  destruct (Qltb 0 a) eqn:B.
  - apply shade_paints; assumption.
  - apply Qltb_false in B. apply skip_paints; [exact L | lra].
Qed.

Lemma draw_diag_glow_painted (x0 y0 x1 y1 width feather : Q) :
  is_float width ->
  painted w h (glow_box w h x0 y0 x1 y1 width feather)
    (fun x y => shade c (glow_cov x0 y0 x1 y1 width feather x y)) px
    (draw_diag_glow hypot px w h x0 y0 x1 y1 width c feather).
Proof.
  intros Fw. destruct c as [[[cr cg] cb] ca].
  unfold draw_diag_glow. cbv zeta.
  apply scan_paints; [apply glow_box_in_canvas |].
  rewrite Hlen. intros p x y L Hx Hy. unfold glow_cov. cbv zeta.
  pose proof (vlen2_pos (x1 ⊖ x0) (y1 ⊖ y0)) as V.
  rewrite fdiv_ok by lra. cbn [bind].
  match goal with
  | |- context [Qle_bool ?d (width ⊕ feather)] =>
      destruct (Qle_bool d (width ⊕ feather)) eqn:B;
      [apply Qle_bool_iff in B;
       destruct (glow_coverage_ok width feather d Fw B) as [a [E R]]
      | apply skip_paints; [exact L | reflexivity]]
  end.
  rewrite E. cbn [bind value_or_zero]. apply shade_paints; assumption.
Qed.

Lemma draw_rounded_rect_stroke_painted (x y rw rh radius thickness : Q) :
  painted w h (stroke_box w h x y rw rh thickness)
    (fun pxl py => shade c (stroke_cov x y rw rh radius thickness pxl py)) px
    (draw_rounded_rect_stroke hypot px w h x y rw rh radius thickness c).
Proof.
  destruct c as [[[cr cg] cb] ca].
  unfold draw_rounded_rect_stroke.
  rewrite !fdiv_ok by discriminate. cbn [bind]. cbv zeta.
  apply scan_paints; [apply stroke_box_in_canvas |].
  rewrite Hlen. intros p pxl py L Hx Hy. unfold stroke_cov. cbv zeta.
  match goal with
  | |- context [Qle_bool (Qabs ?dist) thickness] =>
      destruct (Qle_bool (Qabs dist) thickness);
      [destruct (stroke_coverage_ok thickness (Qabs dist) (Qabs_nonneg dist))
         as [a [E R]]
      | apply skip_paints; [exact L | reflexivity]]
  end.
  rewrite E. cbn [bind value_or_zero]. apply shade_paints; assumption.
Qed.

End PixelCoverage.

(** X9. Each rasteriser, for an 8-bit colour and binary64 geometry of
    magnitude up to 2^256, returns normally and composites every pixel of
    its clamped bounding box exactly once: the pixel becomes the
    source-over composite of the shape colour, at alpha
    [int(ca * coverage)], over the value the pixel had before the call
    (unchanged where that alpha is 0), and every other pixel keeps its
    value.  The coverage depends on the shape and the pixel's position
    only, so no pixel's result depends on another pixel or on the order of
    the scan. *)
Theorem rasterisers_composite (hypot : Q -> Q -> Q) (px : list byte)
  (w h : Z) (c : color) :
  len px = w * h * 4 -> color8 c ->
  (forall cx cy r feather : Q,
      coord cx -> coord cy -> coord r -> coord feather ->
      painted w h (disc_box w h cx cy r feather 1)
        (fun x y => shade c (disc_cov hypot cx cy r feather x y)) px
        (draw_soft_circle hypot px w h cx cy r c feather))
  /\ (forall cx cy r thickness feather : Q,
        coord cx -> coord cy -> coord r -> coord thickness -> coord feather ->
        painted w h (disc_box w h cx cy (r ⊕ RN (thickness / 2)) feather 1)
          (fun x y => shade c (ring_cov hypot cx cy r thickness feather x y)) px
          (draw_ring hypot px w h cx cy r thickness c feather))
  /\ (forall x0 y0 x1 y1 width feather : Q,
        coord x0 -> coord y0 -> coord x1 -> coord y1 ->
        coord width -> coord feather ->
        painted w h (glow_box w h x0 y0 x1 y1 width feather)
          (fun x y => shade c (glow_cov hypot x0 y0 x1 y1 width feather x y)) px
          (draw_diag_glow hypot px w h x0 y0 x1 y1 width c feather))
  /\ (forall x y rw rh radius thickness : Q,
        coord x -> coord y -> coord rw -> coord rh ->
        coord radius -> coord thickness ->
        painted w h (stroke_box w h x y rw rh thickness)
          (fun pxl py =>
             shade c (stroke_cov hypot x y rw rh radius thickness pxl py)) px
          (draw_rounded_rect_stroke hypot px w h x y rw rh radius thickness c)).
Proof.
  intros L Hc. split; [| split; [| split]].
  - intros cx cy r feather _ _ _ [Ff _].
    apply draw_soft_circle_painted; assumption.
  - intros cx cy r thickness feather _ _ _ _ [Ff _].
    apply draw_ring_painted; assumption.
  - intros x0 y0 x1 y1 width feather _ _ _ _ [Fw _] _.
    apply draw_diag_glow_painted; assumption.
  - intros x y rw rh radius thickness _ _ _ _ _ _.
    apply draw_rounded_rect_stroke_painted; assumption.
Qed.

Lemma rasterisers_composite_witness :
  painted 1 1 (disc_box 1 1 (1 # 2) (1 # 2) 3 0 1)
    (fun x y => shade (255, 0, 0, 255) (disc_cov taxicab (1 # 2) (1 # 2) 3 0 x y))
    [x0a; x14; x1e; xff]
    (draw_soft_circle taxicab [x0a; x14; x1e; xff] 1 1 (1 # 2) (1 # 2) 3
       (255, 0, 0, 255) 0).
Proof.
  destruct (rasterisers_composite taxicab [x0a; x14; x1e; xff] 1 1
              (255, 0, 0, 255)) as [S _];
    [reflexivity | unfold color8; lia |].
  apply S; in_range.
Defined.

(** * The icon *)

(** A float literal of the source: the decimal rounded to binary64. *)
Definition lit (q : Q) : Q := RN q.

(** A [for] loop over a list of values. *)
Fixpoint for_in {A S : Type} (l : list A) (s : S) (body : S -> A -> result S)
  : result S :=
  match l with
  | [] => Ok s
  | a :: l' => s' <- body s a ;; for_in l' s' body
  end.

Section Icon.

(** [math.hypot], [math.radians], [math.cos] and [math.sin], external
    library functions. *)
Variable hypot : Q -> Q -> Q.
Variables radians cos sin : Q -> Q.

Definition draw_personalens_icon (px : list byte) (w h : Z)
  (transparent_bg : bool) : result (list byte) :=
  let W := of_int w in
  let H := of_int h in
  px <- (if negb transparent_bg then
           px <- fill_linear_gradient px w h (8, 14, 37, 255) (34, 107, 255, 255) ;;
           px <- draw_soft_circle hypot px w h
                   (W ⊗ lit (22 # 100)) (H ⊗ lit (18 # 100)) (W ⊗ lit (22 # 100))
                   (0, 255, 245, 45) (W ⊗ lit (6 # 100)) ;;
           px <- draw_soft_circle hypot px w h
                   (W ⊗ lit (78 # 100)) (H ⊗ lit (22 # 100)) (W ⊗ lit (28 # 100))
                   (255, 46, 145, 55) (W ⊗ lit (8 # 100)) ;;
           px <- draw_soft_circle hypot px w h
                   (W ⊗ lit (65 # 100)) (H ⊗ lit (78 # 100)) (W ⊗ lit (32 # 100))
                   (110, 80, 255, 48) (W ⊗ lit (1 # 10)) ;;
           px <- draw_diag_glow hypot px w h
                   (W ⊗ lit (12 # 100)) (H ⊗ lit (82 # 100))
                   (W ⊗ lit (84 # 100)) (H ⊗ lit (18 # 100))
                   (W ⊗ lit (18 # 1000)) (255, 255, 255, 35) (W ⊗ lit (3 # 100)) ;;
           draw_rounded_rect_stroke hypot px w h
             (W ⊗ lit (8 # 100)) (H ⊗ lit (8 # 100))
             (W ⊗ lit (84 # 100)) (H ⊗ lit (84 # 100))
             (W ⊗ lit (12 # 100)) (W ⊗ lit (10 # 1000)) (255, 255, 255, 70)
         else Ok px) ;;
  let cx := W ⊗ lit (5 # 10) in
  let cy := H ⊗ lit (5 # 10) in
  let base_r := W ⊗ (if transparent_bg then lit (25 # 100) else lit (24 # 100)) in
  (* glow stack *)
  px <- draw_soft_circle hypot px w h cx cy (base_r ⊗ lit (118 # 100))
          (0, 220, 255, if transparent_bg then 42 else 60)
          (base_r ⊗ lit (18 # 100)) ;;
  px <- draw_soft_circle hypot px w h cx cy (base_r ⊗ lit (98 # 100))
          (255, 57, 168, if transparent_bg then 25 else 36)
          (base_r ⊗ lit (14 # 100)) ;;
  (* lens body *)
  px <- draw_ring hypot px w h cx cy (base_r ⊗ lit (95 # 100))
          (base_r ⊗ lit (22 # 100))
          (255, 255, 255, if transparent_bg then 235 else 220) (lit (22 # 10)) ;;
  px <- draw_ring hypot px w h cx cy (base_r ⊗ lit (70 # 100))
          (base_r ⊗ lit (10 # 100)) (130, 240, 255, 220) (lit 2) ;;
  px <- draw_ring hypot px w h cx cy (base_r ⊗ lit (52 # 100))
          (base_r ⊗ lit (6 # 100)) (255, 120, 220, 190) (lit (16 # 10)) ;;
  px <- draw_soft_circle hypot px w h cx cy (base_r ⊗ lit (43 # 100))
          (16, 22, 42, 235) (lit 2) ;;
  px <- draw_soft_circle hypot px w h cx cy (base_r ⊗ lit (28 # 100))
          (40, 205, 255, 70) (base_r ⊗ lit (10 # 100)) ;;
  px <- draw_soft_circle hypot px w h
          (cx ⊕ base_r ⊗ lit (17 # 100)) (cy ⊖ base_r ⊗ lit (17 # 100))
          (base_r ⊗ lit (12 # 100)) (255, 255, 255, 185)
          (base_r ⊗ lit (4 # 100)) ;;
  px <- draw_soft_circle hypot px w h
          (cx ⊖ base_r ⊗ lit (22 # 100)) (cy ⊕ base_r ⊗ lit (18 # 100))
          (base_r ⊗ lit (6 # 100)) (255, 64, 153, 130)
          (base_r ⊗ lit (3 # 100)) ;;
  (* orbit accents *)
  px <- for_in
          [(-35, base_r ⊗ lit (118 # 100), base_r ⊗ lit (55 # 1000),
            (0, 245, 255, 210));
           (18, base_r ⊗ lit (127 # 100), base_r ⊗ lit (4 # 100),
            (255, 255, 255, 180));
           (142, base_r ⊗ lit (110 # 100), base_r ⊗ lit (45 # 1000),
            (255, 70, 170, 180))]
          px
          (fun px '(ang, rr, size, col) =>
             let rad := radians (of_int ang) in
             draw_soft_circle hypot px w h
               (cx ⊕ cos rad ⊗ rr) (cy ⊕ sin rad ⊗ rr) size col
               (size ⊗ lit (4 # 10))) ;;
  (* 'P' cue arc / stem *)
  px <- draw_diag_glow hypot px w h
          (cx ⊖ base_r ⊗ lit (8 # 100)) (cy ⊕ base_r ⊗ lit (26 # 100))
          (cx ⊖ base_r ⊗ lit (8 # 100)) (cy ⊖ base_r ⊗ lit (20 # 100))
          (base_r ⊗ lit (25 # 1000)) (255, 255, 255, 180)
          (base_r ⊗ lit (3 # 100)) ;;
  draw_ring hypot px w h
    (cx ⊕ base_r ⊗ lit (2 # 100)) (cy ⊖ base_r ⊗ lit (6 # 100))
    (base_r ⊗ lit (20 # 100)) (base_r ⊗ lit (5 # 100))
    (255, 255, 255, 170) (lit (14 # 10)).

Definition generate (pf : platform) (size : Z) (transparent : bool)
  : result (list byte) :=
  px <- make_canvas pf size size
          (if transparent then (0, 0, 0, 0) else (0, 0, 0, 255)) ;;
  draw_personalens_icon px size size transparent.

End Icon.

(** ** Opaque canvases stay opaque *)

Definition opaque (w h : Z) (p : list byte) : Prop :=
  forall x y, 0 <= x < w -> 0 <= y < h ->
    alpha_of (pixel_at p (pixel_index w x y)) = 255.

(** What every drawing step keeps: the buffer length and, on a canvas that
    is [solid], the opacity of every pixel. *)
Definition kept (w h : Z) (solid : bool) (p : list byte) : Prop :=
  len p = w * h * 4 /\ (solid = true -> opaque w h p).

Definition keeps (w h : Z) (solid : bool) (m : result (list byte)) : Prop :=
  exists p', m = Ok p' /\ kept w h solid p'.

Lemma keeps_bind (w h : Z) (s s' : bool) (m : result (list byte))
  (f : list byte -> result (list byte)) :
  keeps w h s m -> (forall p, kept w h s p -> keeps w h s' (f p)) ->
  keeps w h s' (bind m f).
Proof.
  intros [p [E K]] Hf. rewrite E. cbn [bind]. apply Hf, K.
Qed.

Lemma keeps_Ok (w h : Z) (s : bool) (p : list byte) :
  kept w h s p -> keeps w h s (Ok p).
Proof. intros K. exists p. split; [reflexivity | exact K]. Qed.

Lemma blend_keeps (w h : Z) (solid : bool) (p : list byte) (x y : Z) (c : color) :
  color8 c -> kept w h solid p -> keeps w h solid (blend p w h x y c).
Proof.
  intros Hc [L O].
  destruct (blend_total p w h x y c L Hc) as [p' [E [Lp F]]].
  exists p'. split; [exact E |]. split; [lia |].
  intros S x' y' Hx' Hy'. specialize (O S).
  destruct (Z.eq_dec x' x) as [-> | Nx].
  - destruct (Z.eq_dec y' y) as [-> | Ny].
    + destruct (blend_alpha p w h x y c L Hx' Hy' Hc) as [p'' [E' B]].
      rewrite E in E'. apply Ok_inj in E'. subst p''.
      rewrite (O x y Hx' Hy') in B. lia.
    + rewrite F by (try assumption; congruence). apply O; assumption.
  - rewrite F by (try assumption; congruence). apply O; assumption.
Qed.

Lemma shade_keeps (w h : Z) (solid : bool) (p : list byte) (x y cr cg cb ca : Z)
  (a : Q) :
  color8 (cr, cg, cb, ca) -> (0 <= a /\ a <= 1)%Q -> kept w h solid p ->
  keeps w h solid (blend p w h x y (cr, cg, cb, scale_alpha ca a)).
Proof.
  intros [Hr [Hg [Hb Ha]]] Ra K.
  pose proof (scale_alpha_range ca a Ha Ra) as Hs.
  apply blend_keeps; [| exact K]. repeat split; lia.
Qed.

Lemma scan_keeps (w h : Z) (solid : bool) (b : box) (px : list byte)
  (body : list byte -> Z -> Z -> result (list byte)) :
  (forall p x y, kept w h solid p -> keeps w h solid (body p x y)) ->
  kept w h solid px -> keeps w h solid (scan px b body).
Proof.
  intros Hb K. destruct b as [[[x0 x1] y0] y1]. unfold scan, keeps.
  apply (for_each_inv (kept w h solid)); [exact K |].
  intros p y _ Kp. apply (for_each_inv (kept w h solid)); [exact Kp |].
  intros q x _ Kq. apply Hb, Kq.
Qed.

Section RasterisersKeep.

Variable hypot : Q -> Q -> Q.
Variables (w h : Z) (solid : bool).

Lemma draw_soft_circle_keeps (px : list byte) (cx cy r : Q) (c : color)
  (feather : Q) :
  color8 c -> is_float feather -> kept w h solid px ->
  keeps w h solid (draw_soft_circle hypot px w h cx cy r c feather).
Proof.
  intros Hc Ff K. destruct c as [[[cr cg] cb] ca].
  unfold draw_soft_circle. apply scan_keeps; [| exact K].
  intros p x y Kp. cbv zeta.
  destruct (soft_circle_coverage_ok r feather
              (hypot (of_int x ⊕ f0_5 ⊖ cx) (of_int y ⊕ f0_5 ⊖ cy)) Ff)
    as [a [E R]].
  rewrite E. cbn [bind].
  destruct (Qltb 0 a); [apply shade_keeps; assumption | apply keeps_Ok, Kp].
Qed.

Lemma draw_ring_keeps (px : list byte) (cx cy r thickness : Q) (c : color)
  (feather : Q) :
  color8 c -> is_float feather -> kept w h solid px ->
  keeps w h solid (draw_ring hypot px w h cx cy r thickness c feather).
Proof.
  intros Hc Ff K. destruct c as [[[cr cg] cb] ca].
  unfold draw_ring. rewrite fdiv_ok by discriminate. cbn [bind].
  apply scan_keeps; [| exact K].
  intros p x y Kp. cbv zeta.
  destruct (ring_coverage_ok r thickness feather
              (hypot (of_int x ⊕ f0_5 ⊖ cx) (of_int y ⊕ f0_5 ⊖ cy)) Ff)
    as [a [E R]].
  rewrite E. cbn [bind].
  destruct (Qltb 0 a); [apply shade_keeps; assumption | apply keeps_Ok, Kp].
Qed.

Lemma draw_diag_glow_keeps (px : list byte) (x0 y0 x1 y1 width : Q) (c : color)
  (feather : Q) :
  color8 c -> is_float width -> kept w h solid px ->
  keeps w h solid (draw_diag_glow hypot px w h x0 y0 x1 y1 width c feather).
Proof.
  intros Hc Fw K. destruct c as [[[cr cg] cb] ca].
  unfold draw_diag_glow. cbv zeta. apply scan_keeps; [| exact K].
  intros p x y Kp.
  pose proof (vlen2_pos (x1 ⊖ x0) (y1 ⊖ y0)) as V.
  rewrite fdiv_ok by lra. cbn [bind].
  match goal with
  | |- context [Qle_bool ?d (width ⊕ feather)] =>
      destruct (Qle_bool d (width ⊕ feather)) eqn:B;
      [apply Qle_bool_iff in B;
       destruct (glow_coverage_ok width feather d Fw B) as [a [E R]]
      | apply keeps_Ok, Kp]
  end.
  rewrite E. cbn [bind]. apply shade_keeps; assumption.
Qed.

Lemma draw_rounded_rect_stroke_keeps (px : list byte)
  (x y rw rh radius thickness : Q) (c : color) :
  color8 c -> kept w h solid px ->
  keeps w h solid
    (draw_rounded_rect_stroke hypot px w h x y rw rh radius thickness c).
Proof.
  intros Hc K. destruct c as [[[cr cg] cb] ca].
  unfold draw_rounded_rect_stroke.
  rewrite !fdiv_ok by discriminate. cbn [bind]. cbv zeta.
  apply scan_keeps; [| exact K].
  intros p pxl py Kp.
  match goal with
  | |- context [Qle_bool (Qabs ?dist) thickness] =>
      destruct (Qle_bool (Qabs dist) thickness);
      [destruct (stroke_coverage_ok thickness (Qabs dist) (Qabs_nonneg dist))
         as [a [E R]]
      | apply keeps_Ok, Kp]
  end.
  rewrite E. cbn [bind]. apply shade_keeps; assumption.
Qed.

End RasterisersKeep.

(** A gradient between two opaque colours makes every pixel opaque. *)
Lemma fill_linear_gradient_keeps (w h : Z) (solid : bool) (px : list byte)
  (c_tl c_br : color) :
  len px = w * h * 4 -> color8 c_tl -> color8 c_br ->
  alpha_of c_tl = 255 -> alpha_of c_br = 255 ->
  keeps w h solid (fill_linear_gradient px w h c_tl c_br).
Proof.
  intros L H1 H2 A1 A2.
  destruct (gradient_painted px w h c_tl c_br L H1 H2) as [p' [E [Lp P]]].
  exists p'. split; [exact E |]. split; [exact Lp |].
  intros _ x y Hx Hy. rewrite (P x y Hx Hy).
  assert (T : (0 <= gradient_t w h x y /\ gradient_t w h x y <= 1)%Q)
    by (unfold gradient_t; cbv zeta; apply clamp01).
  pose proof (mix_between c_tl c_br (gradient_t w h x y) H1 H2 T) as Bt.
  destruct c_tl as [[[r1 g1] b1] a1]. destruct c_br as [[[r2 g2] b2] a2].
  unfold alpha_of in *. cbn [snd] in A1, A2. subst a1 a2.
  destruct (mix (r1, g1, b1, 255) (r2, g2, b2, 255) (gradient_t w h x y))
    as [[[r g] b] a].
  unfold color_between, between in Bt. cbn [snd]. lia.
Qed.

Ltac colour8 := unfold color8; cbn [fst snd]; lia.

Ltac draws :=
  first
    [ apply draw_soft_circle_keeps; [colour8 | apply RN_is_float | eassumption]
    | apply draw_ring_keeps; [colour8 | apply RN_is_float | eassumption]
    | apply draw_diag_glow_keeps; [colour8 | apply RN_is_float | eassumption]
    | apply draw_rounded_rect_stroke_keeps; [colour8 | eassumption] ].

Ltac then_draws :=
  let p := fresh "p" in
  let K := fresh "K" in
  eapply keeps_bind; [draws | intros p K].

Section IconProofs.

Variable hypot : Q -> Q -> Q.
Variables radians cos sin : Q -> Q.

(** The icon is drawn without an exception on any buffer of the canvas's
    size; drawn with its background, every pixel of it is opaque. *)
Lemma draw_personalens_icon_keeps (px : list byte) (w h : Z)
  (transparent_bg : bool) :
  len px = w * h * 4 ->
  keeps w h (negb transparent_bg)
    (draw_personalens_icon hypot radians cos sin px w h transparent_bg).
Proof.
  intros L. unfold draw_personalens_icon. cbv zeta.
  destruct transparent_bg; cbn [negb].
  - cbn [bind].
    assert (K : kept w h false px) by (split; [exact L | discriminate]).
    do 9 then_draws.
    eapply keeps_bind;
      [cbn [for_in]; do 3 then_draws; apply keeps_Ok; eassumption
      | intros q Kq].
    then_draws. draws.
  - apply (keeps_bind w h true true).
    + apply (keeps_bind w h true true).
      * apply fill_linear_gradient_keeps;
          first [exact L | colour8 | reflexivity].
      * intros p0 K0. do 4 then_draws. draws.
    + intros p0 K0.
      do 9 then_draws.
      eapply keeps_bind;
        [cbn [for_in]; do 3 then_draws; apply keeps_Ok; eassumption
        | intros q Kq].
      then_draws. draws.
Qed.

Lemma generate_ok (pf : platform) (size : Z) (transparent : bool) :
  size * size * 4 <= capacity pf -> capacity pf <= maxsize pf ->
  exists px,
    generate hypot radians cos sin pf size transparent = Ok px
    /\ len px = size * size * 4
    /\ (transparent = false -> opaque size size px).
Proof.
  intros Hc Hm. unfold generate.
  destruct (make_canvas_len pf size size
              (if transparent then (0, 0, 0, 0) else (0, 0, 0, 255)))
    as [px [E L]]; try nia.
  { destruct transparent; colour8. }
  rewrite E. cbn [bind].
  destruct (draw_personalens_icon_keeps px size size transparent L)
    as [p' [E' [L' O]]].
  exists p'. split; [exact E' |]. split; [exact L' |].
  intros ->. apply O. reflexivity.
Qed.

Lemma generate_overflow (pf : platform) (size : Z) (transparent : bool) :
  maxsize pf < size * size * 4 ->
  generate hypot radians cos sin pf size transparent = Raise OverflowError.
Proof.
  intros H. unfold generate. rewrite make_canvas_overflow by (right; exact H).
  reflexivity.
Qed.

Lemma generate_memory (pf : platform) (size : Z) (transparent : bool) :
  0 <= capacity pf -> capacity pf < size * size * 4 <= maxsize pf ->
  generate hypot radians cos sin pf size transparent = Raise MemoryError.
Proof.
  intros H0 H. unfold generate. rewrite make_canvas_memory by assumption.
  reflexivity.
Qed.

End IconProofs.

(** X10. [generate] depends on the allocation alone.  For a size of
    magnitude at most 2^31, on a platform that can allocate no more than it
    can index: when [4*size*size] bytes cannot be indexed the call raises
    [OverflowError], when they can be indexed but not allocated it raises
    [MemoryError], and otherwise it returns a buffer of exactly
    [4*size*size] bytes, no drawing step raising; a size below zero never
    raises [ValueError], the byte count being a square.  Generated with its
    background ([transparent] false), every pixel of the icon is fully
    opaque.  This holds for any values of [math.hypot], [math.radians],
    [math.cos] and [math.sin]. *)
Theorem generate_outcome (hypot : Q -> Q -> Q) (radians cos sin : Q -> Q)
  (pf : platform) (size : Z) (transparent : bool) :
  - 2 ^ 31 <= size <= 2 ^ 31 -> 0 <= capacity pf <= maxsize pf ->
  (maxsize pf < size * size * 4 ->
     generate hypot radians cos sin pf size transparent = Raise OverflowError)
  /\ (capacity pf < size * size * 4 <= maxsize pf ->
     generate hypot radians cos sin pf size transparent = Raise MemoryError)
  /\ (size * size * 4 <= capacity pf ->
      exists px,
        generate hypot radians cos sin pf size transparent = Ok px
        /\ len px = size * size * 4
        /\ (transparent = false -> opaque size size px)).
Proof.
  intros _ [H0 Hm]. split; [| split].
  - apply generate_overflow.
  - apply generate_memory, H0.
  - intros Hc. apply generate_ok; assumption.
Qed.

Lemma generate_outcome_witness :
  exists px,
    generate (fun _ _ => 0%Q) (fun _ => 0%Q) (fun _ => 0%Q) (fun _ => 0%Q)
      host 2 false = Ok px
    /\ len px = 2 * 2 * 4
    /\ (false = false -> opaque 2 2 px).
Proof.
  apply (generate_outcome (fun _ _ => 0%Q) (fun _ => 0%Q) (fun _ => 0%Q)
           (fun _ => 0%Q) host 2 false);
    first [lia | zdecide].
Defined.
